(** * Music log analyzer: a shallow embedding of [music_log_analyzer.py]

    The development follows the script top-down: Python strings and the
    character classes used by [str.strip], [str.split] and [re]; the
    backtracking matcher behind [re.split]; [int]; [parse_log_line]; the
    aggregation done by [analyze_logs] ([Counter.most_common],
    [Series.value_counts], per-minute resampling); the text layer under
    [open] and [for line in f]; and finally the run as a whole, as a
    function from the platform (the encoding of the locale and the file
    system) to a trace of output events.

    Conventions.
    - The interpreter is CPython 3.11 with its settings at their
      defaults.
    - A Python [str] is a list of Unicode code points ([N]).
    - [print] and [plt.savefig] are recorded as events of a trace, in the
      order the script performs them.
    - A raised exception is a value of [exn]; [try]/[except] is a match on
      the outcome. *)

From Stdlib Require Import List NArith ZArith Arith Lia Bool String Ascii.
From Stdlib Require Import Sorted Permutation.
Import ListNotations.


(** ** Python strings *)

Definition char := N.
Definition pystr := list char.

(** [lit "abc"] is the Python literal ['abc'] (ASCII text only). *)
Definition lit (s : string) : pystr := map N_of_ascii (list_ascii_of_string s).
Arguments lit s%_string.

Definition c_newline : char := 10%N.
Definition c_return : char := 13%N.
Definition c_space : char := 32%N.
Definition c_dquote : char := 34%N.
Definition c_plus : char := 43%N.
Definition c_minus : char := 45%N.
Definition c_lbracket : char := 91%N.
Definition c_rbracket : char := 93%N.
Definition c_underscore : char := 95%N.
Definition c_replacement : char := 0xFFFD%N.

(** ['"' + s + '"'] *)
Definition quoted (s : pystr) : pystr := c_dquote :: s ++ [c_dquote].

Definition str_eqb (a b : pystr) : bool :=
  if list_eq_dec N.eq_dec a b then true else false.

(** [str.isspace] on one character: the code points CPython's Unicode
    database marks as whitespace.  [str.strip], [str.split] and the [re]
    classes [\s], [\S] all use this set. *)
Definition is_space (c : char) : bool :=
  (((0x09 <=? c) && (c <=? 0x0D)) || ((0x1C <=? c) && (c <=? 0x20))
   || (c =? 0x85) || (c =? 0xA0) || (c =? 0x1680)
   || ((0x2000 <=? c) && (c <=? 0x200A))
   || (c =? 0x2028) || (c =? 0x2029) || (c =? 0x202F) || (c =? 0x205F)
   || (c =? 0x3000))%N.

Fixpoint lstrip (s : pystr) : pystr :=
  match s with
  | c :: s' => if is_space c then lstrip s' else s
  | [] => []
  end.

Definition rstrip (s : pystr) : pystr := rev (lstrip (rev s)).

(** [s.strip()] *)
Definition strip (s : pystr) : pystr := rstrip (lstrip s).

(** [s.split()]: maximal runs of non-whitespace characters.  [cur] is the
    token being read, reversed. *)
Fixpoint split_ws_aux (cur : pystr) (s : pystr) : list pystr :=
  match s with
  | [] => match cur with [] => [] | _ => [rev cur] end
  | c :: s' =>
      if is_space c then
        match cur with
        | [] => split_ws_aux [] s'
        | _ => rev cur :: split_ws_aux [] s'
        end
      else split_ws_aux (c :: cur) s'
  end.

Definition split_ws (s : pystr) : list pystr := split_ws_aux [] s.

(** ** Exceptions and output events *)

(** what a [ValueError] says *)
Inductive value_error : Type :=
| InvalidLiteral (literal : pystr)
    (* invalid literal for int() with base 10: ... *)
| ExceedsDigitLimit (limit digits : nat)
    (* Exceeds the limit (... digits) for integer string conversion:
       value has ... digits *)
| EmptySequence.
    (* attempt to get argmax of an empty sequence *)

Inductive exn : Type :=
| ValueError (what : value_error)
| IndexError                        (* list index out of range *)
| UnicodeDecodeError (position : nat)
    (* the position is that of the first byte of the ill-formed sequence
       in the bytes the decoder was given *)
| OSError (errno : nat).
    (* [IsADirectoryError] is the [OSError] with errno 21,
       [PermissionError] the one with errno 13 *)

Inductive result (A : Type) : Type :=
| Ok (a : A)
| Raise (e : exn).
Arguments Ok {A} a.
Arguments Raise {A} e.

Definition bind {A B} (m : result A) (f : A -> result B) : result B :=
  match m with
  | Ok a => f a
  | Raise e => Raise e
  end.

Notation "x <- m ;; k" := (bind m (fun x => k))
  (at level 61, m at next level, right associativity).

(** [xs[i]] on a Python list *)
Definition index {A} (xs : list A) (i : nat) : result A :=
  match nth_error xs i with
  | Some x => Ok x
  | None => Raise IndexError
  end.

(** What the script writes: one constructor for each [print] (or group
    of consecutive [print]s with fixed text) and one for [plt.savefig].
    Numbers are kept as numbers, a bucket of the time series as the epoch
    second it starts at. *)
Inductive event : Type :=
| SkippingMalformedLine (prefix : pystr) (e : exn)
| AnalyzingLogFile (path : pystr)
| ErrorFileNotFound (path : pystr)
| ProcessingReport (scanned valid : nat) (malformed : Z)
| ErrorNoValidEntries            (* the explanation and the echo's heading *)
| EchoLine (number : nat) (text : pystr)
| TrafficAnalysis (total unique : nat)
| TopIPsHeading
| TopIPLine (ip : pystr) (count : nat)
| PotentialBotTraffic (bots total : nat)
| HttpMethods (table : list (pystr * nat))
| TopRequestedPaths (table : list (pystr * nat))
| HttpStatusCodes (table : list (Z * nat))
| DroppedInvalidTimestamps (dropped : nat)
| SaveFig (file : pystr) (series : list (Z * nat))
| SavedTrafficGraph
| BusiestMinute (peak_time : Z) (peak_requests : nat)
| WarningNoValidTimestamps
| CouldNotGenerateTimeGraph (e : exn).

(** ** [collections.Counter] and [Series.value_counts]

    A [Counter] is a dict, and a dict keeps its keys in the order of their
    first insertion: it is modelled as an association list in that order. *)
Section Counting.

Context {K : Type} (K_eq_dec : forall x y : K, {x = y} + {x <> y}).

(** [c[x] += 1] *)
Fixpoint counter_add (x : K) (c : list (K * nat)) : list (K * nat) :=
  match c with
  | [] => [(x, 1)]
  | (y, n) :: c' =>
      if K_eq_dec y x then (y, S n) :: c' else (y, n) :: counter_add x c'
  end.

(** [Counter(xs)] *)
Definition Counter (xs : list K) : list (K * nat) :=
  fold_left (fun c x => counter_add x c) xs [].

(** [c[x]], which is 0 for a missing key *)
Fixpoint count_of (x : K) (c : list (K * nat)) : nat :=
  match c with
  | [] => 0
  | (y, n) :: c' => if K_eq_dec y x then n else count_of x c'
  end.

(** [sorted(items, key=itemgetter(1), reverse=True)]: Python's sort is
    stable, also with [reverse=True], so items with equal counts keep
    their order.  [x] comes from before everything in [l]. *)
Fixpoint insert_by_count (x : K * nat) (l : list (K * nat)) : list (K * nat) :=
  match l with
  | [] => [x]
  | y :: l' => if snd x <? snd y then y :: insert_by_count x l' else x :: l
  end.

Definition sort_by_count (l : list (K * nat)) : list (K * nat) :=
  fold_right insert_by_count [] l.

(** [c.most_common(n)], that is [heapq.nlargest(n, c.items(), key=count)],
    which is documented to equal [sorted(..., reverse=True)[:n]]. *)
Definition most_common (n : nat) (c : list (K * nat)) : list (K * nat) :=
  firstn n (sort_by_count c).

(** [s.dropna()] on a column whose missing values are [None] *)
Fixpoint dropna (xs : list (option K)) : list K :=
  match xs with
  | [] => []
  | Some x :: xs' => x :: dropna xs'
  | None :: xs' => dropna xs'
  end.

(** [s.value_counts()] with its defaults [sort=True, ascending=False,
    dropna=True]: missing values are left out, the rest is counted and
    listed by descending count.  pandas does not fix the order of values
    with equal counts; nothing below depends on it. *)
Definition value_counts (xs : list (option K)) : list (K * nat) :=
  sort_by_count (Counter (dropna xs)).

(** [s.nunique()] *)
Definition nunique (xs : list K) : nat := List.length (nodup K_eq_dec xs).

(** the sum of the counts of a table *)
Definition table_total (t : list (K * nat)) : nat :=
  fold_right (fun kv acc => snd kv + acc) 0 t.

(** the position of the first [x] in [xs] ([length xs] if there is none) *)
Fixpoint first_index (x : K) (xs : list K) : nat :=
  match xs with
  | [] => 0
  | y :: xs' => if K_eq_dec y x then 0 else S (first_index x xs')
  end.

(** [a] ranks above [b] in a ranking of the values of [xs]: a higher
    count, or the same count and seen first. *)
Definition ranks_above (xs : list K) (a b : K * nat) : Prop :=
  snd b < snd a \/
  (snd a = snd b /\ first_index (fst a) xs < first_index (fst b) xs).

End Counting.

Definition str_eq_dec : forall a b : pystr, {a = b} + {a <> b} :=
  list_eq_dec N.eq_dec.

(** ** Time series: [resample('T').size()], [idxmax], [max]

    A valid datetime is the number of seconds since 1970-01-01 00:00:00
    (the script's timestamps carry no zone and no fraction). *)

(** the start of the one-minute bin a datetime falls in *)
Definition minute_floor (t : Z) : Z := (60 * (t / 60))%Z.

Definition z_min_list (x : Z) (l : list Z) : Z := fold_right Z.min x l.
Definition z_max_list (x : Z) (l : list Z) : Z := fold_right Z.max x l.

Definition count_in_bin (b : Z) (ts : list Z) : nat :=
  count_occ Z.eq_dec (map minute_floor ts) b.

(** [resample('T').size()]: one bin per minute from the bin of the
    earliest datetime to the bin of the latest one, in time order, each
    with the number of rows that fall in it (0 for a minute without
    rows). *)
Definition requests_per_minute (ts : list Z) : list (Z * nat) :=
  match ts with
  | [] => []
  | t :: ts' =>
      let lo := minute_floor (z_min_list t ts') in
      let hi := minute_floor (z_max_list t ts') in
      map (fun i => let b := (lo + 60 * Z.of_nat i)%Z in (b, count_in_bin b ts))
          (seq 0 (S (Z.to_nat ((hi - lo) / 60))))
  end.

(** [s.max()] *)
Definition series_max (s : list (Z * nat)) : nat :=
  fold_right Nat.max 0 (map snd s).

(** [s.idxmax()]: the label of the first row holding the maximum; it
    raises [ValueError] on an empty series. *)
Fixpoint idxmax (s : list (Z * nat)) : result Z :=
  match s with
  | [] => Raise (ValueError EmptySequence)
  | (b, n) :: s' => if n <? series_max s' then idxmax s' else Ok b
  end.

(** ** Reading a text file

    The UTF-8 decoder, as [codecs] has it.  With [errors='replace'] every
    maximal ill-formed byte sequence becomes U+FFFD; with the default
    [errors='strict'] the first one raises [UnicodeDecodeError].  A text
    file is decoded piece by piece: as long as the input is not [final],
    the bytes of a sequence that the end of the input cuts short are not
    an error but are kept, to be decoded with the bytes that follow. *)

Definition is_cont (b : N) : bool := ((0x80 <=? b) && (b <=? 0xBF))%N.

Definition cont_bits (b : N) : N := (b - 0x80)%N.

Section Decode.

Variable replace : bool.
Variable final : bool.

(** the text decoded and the bytes kept for the next call *)
Local Abbreviation decoded_text := (pystr * list Byte.byte)%type.

(** what to do with an ill-formed sequence found at byte [pos]; [rest] is
    the decoding of what follows it *)
Definition ill_formed (pos : nat) (rest : result decoded_text) : result decoded_text :=
  if replace then (t <- rest ;; Ok (c_replacement :: fst t, snd t))
  else Raise (UnicodeDecodeError pos).

Definition emit (c : char) (rest : result decoded_text) : result decoded_text :=
  t <- rest ;; Ok (c :: fst t, snd t).

(** the input ends within the sequence [kept], which starts at [pos] and
    is well formed as far as it goes *)
Definition truncated (pos : nat) (kept : list Byte.byte) : result decoded_text :=
  if final then ill_formed pos (Ok ([], [])) else Ok ([], kept).

Fixpoint utf8_decode (pos : nat) (bs : list Byte.byte) : result decoded_text :=
  match bs with
  | [] => Ok ([], [])
  | b0 :: r0 =>
      let n0 := Byte.to_N b0 in
      if (n0 <? 0x80)%N then emit n0 (utf8_decode (1 + pos) r0)
      else if (n0 <? 0xC2)%N then ill_formed pos (utf8_decode (1 + pos) r0)
      else if (n0 <? 0xE0)%N then
        (* two bytes: U+0080 .. U+07FF *)
        match r0 with
        | [] => truncated pos [b0]
        | b1 :: r1 =>
            let n1 := Byte.to_N b1 in
            if is_cont n1 then
              emit ((n0 - 0xC0) * 64 + cont_bits n1)%N (utf8_decode (2 + pos) r1)
            else ill_formed pos (utf8_decode (1 + pos) r0)
        end
      else if (n0 <? 0xF0)%N then
        (* three bytes: U+0800 .. U+FFFF, without the surrogates *)
        match r0 with
        | [] => truncated pos [b0]
        | b1 :: r1 =>
            let n1 := Byte.to_N b1 in
            if is_cont n1
               && negb ((n0 =? 0xE0) && (n1 <? 0xA0))%N
               && negb ((n0 =? 0xED) && (0xA0 <=? n1))%N then
              match r1 with
              | [] => truncated pos [b0; b1]
              | b2 :: r2 =>
                  let n2 := Byte.to_N b2 in
                  if is_cont n2 then
                    emit (((n0 - 0xE0) * 64 + cont_bits n1) * 64 + cont_bits n2)%N
                         (utf8_decode (3 + pos) r2)
                  else ill_formed pos (utf8_decode (2 + pos) r1)
              end
            else
              (* the first two bytes of a surrogate, at the very end of an
                 input that is not final, are kept like a sequence cut
                 short; the error comes with the next call *)
              match r1 with
              | [] =>
                  if negb final && (n0 =? 0xED)%N && is_cont n1
                  then Ok ([], [b0; b1])
                  else ill_formed pos (utf8_decode (1 + pos) r0)
              | _ :: _ => ill_formed pos (utf8_decode (1 + pos) r0)
              end
        end
      else if (n0 <? 0xF5)%N then
        (* four bytes: U+10000 .. U+10FFFF *)
        match r0 with
        | [] => truncated pos [b0]
        | b1 :: r1 =>
            let n1 := Byte.to_N b1 in
            if is_cont n1
               && negb ((n0 =? 0xF0) && (n1 <? 0x90))%N
               && negb ((n0 =? 0xF4) && (0x90 <=? n1))%N then
              match r1 with
              | [] => truncated pos [b0; b1]
              | b2 :: r2 =>
                  let n2 := Byte.to_N b2 in
                  if is_cont n2 then
                    match r2 with
                    | [] => truncated pos [b0; b1; b2]
                    | b3 :: r3 =>
                        let n3 := Byte.to_N b3 in
                        if is_cont n3 then
                          emit ((((n0 - 0xF0) * 64 + cont_bits n1) * 64
                                 + cont_bits n2) * 64 + cont_bits n3)%N
                               (utf8_decode (4 + pos) r3)
                        else ill_formed pos (utf8_decode (3 + pos) r2)
                    end
                  else ill_formed pos (utf8_decode (2 + pos) r1)
              end
            else ill_formed pos (utf8_decode (1 + pos) r0)
        end
      else ill_formed pos (utf8_decode (1 + pos) r0)
  end.

End Decode.

(** text mode with [newline=None]: ['\r\n'] and ['\r'] are read as ['\n'] *)
Fixpoint universal_newlines (s : pystr) : pystr :=
  match s with
  | [] => []
  | c :: s' =>
      if (c =? c_return)%N then
        match s' with
        | c2 :: s'' =>
            if (c2 =? c_newline)%N then c_newline :: universal_newlines s''
            else c_newline :: universal_newlines s'
        | [] => [c_newline]
        end
      else c :: universal_newlines s'
  end.

(** [for line in f]: the lines with their ['\n'], the last one possibly
    without.  [cur] is the line being read, reversed. *)
Fixpoint lines_aux (cur : pystr) (s : pystr) : list pystr :=
  match s with
  | [] => match cur with [] => [] | _ => [rev cur] end
  | c :: s' =>
      if (c =? c_newline)%N then rev (c :: cur) :: lines_aux [] s'
      else lines_aux (c :: cur) s'
  end.

Definition text_lines (text : pystr) : list pystr :=
  lines_aux [] (universal_newlines text).

(** The file system, as the script meets it: what [os.path.exists] and
    [open] make of a path.  It is taken not to change during the run. *)
Inductive path_state : Type :=
| NoSuchPath
    (* [os.path.exists] is [False] *)
| CannotOpen (errno : nat)
    (* [os.path.exists] is [True] and [open] raises [OSError]: a
       directory, a file the user may not read *)
| File (content : list Byte.byte).
    (* a file that [open] opens, and its bytes *)

Definition file_system := pystr -> path_state.

(** [open(path, 'r', encoding='utf-8', errors='replace')], iterated to
    the end of the file: the lines of the whole file, decoded. *)
Definition read_lines_replace (bytes : list Byte.byte) : result (list pystr) :=
  t <- utf8_decode true true 0 bytes ;; Ok (text_lines (fst t)).

(** ** A file opened without [encoding] and read line by line

    [open(path, 'r')] decodes with the encoding of the locale, and
    strictly.  That encoding belongs to the platform, not to the script:
    it is a parameter of the run, either UTF-8 or a single-byte code page
    given by its table (Latin-1, cp1252, ...), in which a byte without an
    entry raises [UnicodeDecodeError]. *)
Inductive encoding : Type :=
| utf_8
| charmap (table : Byte.byte -> option char).

Fixpoint charmap_decode (table : Byte.byte -> option char) (pos : nat)
    (bs : list Byte.byte) : result pystr :=
  match bs with
  | [] => Ok []
  | b :: bs' =>
      match table b with
      | Some c => t <- charmap_decode table (1 + pos) bs' ;; Ok (c :: t)
      | None => Raise (UnicodeDecodeError pos)
      end
  end.

(** [decoder.decode(input, final)] of the strict incremental decoder,
    [input] being the bytes kept by the previous call followed by the
    new ones: the text, and the bytes kept. *)
Definition decode (enc : encoding) (input : list Byte.byte) (final : bool)
    : result (pystr * list Byte.byte) :=
  match enc with
  | utf_8 => utf8_decode false final 0 input
  | charmap table => t <- charmap_decode table 0 input ;; Ok (t, [])
  end.

(** The text layer on top of it, [io.TextIOWrapper], does not read the
    file at once.  Whenever the text it holds has no complete line, it
    fetches one more chunk of [chunk_size] bytes, decodes it and turns
    its line ends into ['\n']; a ['\r'] that ends a chunk is kept back
    until the next chunk shows whether a ['\n'] follows.  An ill-formed
    byte is met, and raises, only when the chunk that holds it is
    fetched. *)
Definition chunk_size : nat := 8 * 1024.

Fixpoint chunks_fuel (fuel : nat) (bs : list Byte.byte) : list (list Byte.byte) :=
  match fuel with
  | 0 => []
  | S fuel' =>
      match bs with
      | [] => []
      | _ :: _ => firstn chunk_size bs :: chunks_fuel fuel' (skipn chunk_size bs)
      end
  end.

(** the pieces in which [read1(chunk_size)] hands out the bytes of a file *)
Definition chunks (bs : list Byte.byte) : list (list Byte.byte) :=
  chunks_fuel (List.length bs) bs.

Record reader : Type := {
  unread : list (list Byte.byte);   (* the chunks not yet fetched *)
  buffer : list Byte.byte;          (* bytes kept by the decoder *)
  pendingcr : bool;                 (* a ['\r'] kept back *)
  decoded_chars : pystr             (* text decoded and not yet handed out *)
}.

Definition open_text (bytes : list Byte.byte) : reader :=
  {| unread := chunks bytes; buffer := []; pendingcr := false; decoded_chars := [] |}.

Definition ends_with_return (s : pystr) : bool :=
  match rev s with
  | c :: _ => (c =? c_return)%N
  | [] => false
  end.

(** [IncrementalNewlineDecoder.decode] with [translate=True], applied to
    the output of the decoder: the text with its line ends translated,
    and the new [pendingcr]. *)
Definition newline_decode (pendingcr : bool) (output : pystr) (final : bool)
    : pystr * bool :=
  let prefixed :=
    pendingcr && (match output with [] => false | _ :: _ => true end || final) in
  let output := if prefixed then c_return :: output else output in
  let pendingcr := if prefixed then false else pendingcr in
  if negb final && ends_with_return output
  then (universal_newlines (removelast output), true)
  else (universal_newlines output, pendingcr).

(** the text up to and with its first ['\n'], and what follows *)
Fixpoint split_line (s : pystr) : option (pystr * pystr) :=
  match s with
  | [] => None
  | c :: s' =>
      if (c =? c_newline)%N then Some ([c], s')
      else match split_line s' with
           | Some (line, rest) => Some (c :: line, rest)
           | None => None
           end
  end.

(** [f.readline()], which is what [next(f)] calls: the next line and the
    reader after it; [None] is the empty string, at the end of the file.
    The recursion is on the chunks still to fetch. *)
Fixpoint readline_from (enc : encoding) (unread : list (list Byte.byte))
    (kept : list Byte.byte) (pendingcr : bool) (decoded_chars : pystr)
    : result (option pystr * reader) :=
  match split_line decoded_chars with
  | Some (line, rest) =>
      Ok (Some line,
          {| unread := unread; buffer := kept; pendingcr := pendingcr;
             decoded_chars := rest |})
  | None =>
      match unread with
      | chunk :: unread' =>
          t <- decode enc (kept ++ chunk) false ;;
          let '(text, pendingcr') := newline_decode pendingcr (fst t) false in
          readline_from enc unread' (snd t) pendingcr' (decoded_chars ++ text)
      | [] =>
          (* [read1] returns no byte: the decoder is flushed *)
          t <- decode enc kept true ;;
          let '(text, pendingcr') := newline_decode pendingcr (fst t) true in
          match split_line (decoded_chars ++ text) with
          | Some (line, rest) =>
              Ok (Some line,
                  {| unread := []; buffer := snd t; pendingcr := pendingcr';
                     decoded_chars := rest |})
          | None =>
              Ok (match decoded_chars ++ text with
                  | [] => None
                  | _ :: _ => Some (decoded_chars ++ text)
                  end,
                  {| unread := []; buffer := snd t; pendingcr := pendingcr';
                     decoded_chars := [] |})
          end
      end
  end.

Definition readline (enc : encoding) (f : reader) : result (option pystr * reader) :=
  readline_from enc (unread f) (buffer f) (pendingcr f) (decoded_chars f).

(** ** The part of the Unicode database that is not in the script

    [\d] and [int] accept every character of category Nd, and
    [str.lower] follows the Unicode case mapping.  The digits of ASCII
    are fixed below; the digits beyond ASCII and the case mapping are
    taken as parameters, so that every statement holds whatever the
    interpreter's tables are. *)
Record unicode_db : Type := {
  nd_value : char -> option N;   (* decimal value of a non-ASCII digit *)
  str_lower : pystr -> pystr     (* [str.lower] *)
}.

(** The tables restricted to ASCII: used for the concrete runs below,
    whose inputs are ASCII text. *)
Definition ascii_lower (c : char) : char :=
  if ((65 <=? c) && (c <=? 90))%N then (c + 32)%N else c.

Definition ascii_db : unicode_db :=
  {| nd_value := fun _ => None; str_lower := map ascii_lower |}.

Section Analyzer.

Variable ucd : unicode_db.

(** [Py_UNICODE_TODECIMAL]: the value of a decimal digit, if it is one.
    No whitespace character is a digit. *)
Definition to_decimal (c : char) : option N :=
  if (c <? 128)%N then
    if ((48 <=? c) && (c <=? 57))%N then Some (c - 48)%N else None
  else if is_space c then None
  else nd_value ucd c.

Definition is_decimal (c : char) : bool :=
  match to_decimal c with Some _ => true | None => false end.

(** ** The regular expression of [parse_log_line]

    Every capture group of the pattern is a greedy [+] or a lazy [*?] over
    one character class, and everything between the groups is literal
    text; the pattern is kept in that shape. *)

Inductive cclass : Type :=
| NonSpace      (* \S *)
| Digit         (* \d *)
| Dot.          (* .  : anything but a newline *)

Definition in_class (k : cclass) (c : char) : bool :=
  match k with
  | NonSpace => negb (is_space c)
  | Digit => is_decimal c
  | Dot => negb (c =? c_newline)%N
  end.

Inductive item : Type :=
| Lit (c : char)            (* a literal character *)
| GreedyPlus (k : cclass)   (* (k+)  *)
| LazyStar (k : cclass).    (* (k*?) *)

Definition pattern := list item.

(** [(\S+) (\S+) (\S+) \[(.*?)\] "(.*?)" (\d+) (\d+) "(.*?)" "(.*?)" (\d+)] *)
Definition log_pattern : pattern :=
  [ GreedyPlus NonSpace; Lit c_space;
    GreedyPlus NonSpace; Lit c_space;
    GreedyPlus NonSpace; Lit c_space;
    Lit c_lbracket; LazyStar Dot; Lit c_rbracket; Lit c_space;
    Lit c_dquote; LazyStar Dot; Lit c_dquote; Lit c_space;
    GreedyPlus Digit; Lit c_space;
    GreedyPlus Digit; Lit c_space;
    Lit c_dquote; LazyStar Dot; Lit c_dquote; Lit c_space;
    Lit c_dquote; LazyStar Dot; Lit c_dquote; Lit c_space;
    GreedyPlus Digit ].

(** The backtracking matcher.  [k] is the continuation: what has to match
    after the group.  A lazy group tries the continuation before it takes
    one more character; a greedy group takes all it can and gives
    characters back one at a time. *)
Fixpoint lazy_star {A} (cls : char -> bool) (k : pystr -> option A)
    (s : pystr) : option (pystr * A) :=
  match k s with
  | Some a => Some ([], a)
  | None =>
      match s with
      | c :: s' =>
          if cls c then
            match lazy_star cls k s' with
            | Some (g, a) => Some (c :: g, a)
            | None => None
            end
          else None
      | [] => None
      end
  end.

Fixpoint greedy_plus {A} (cls : char -> bool) (k : pystr -> option A)
    (s : pystr) : option (pystr * A) :=
  match s with
  | c :: s' =>
      if cls c then
        match greedy_plus cls k s' with
        | Some (g, a) => Some (c :: g, a)
        | None =>
            match k s' with
            | Some a => Some ([c], a)
            | None => None
            end
        end
      else None
  | [] => None
  end.

(** [match_k p k s]: match [p] at the start of [s], then [k] on what is
    left; the result is the list of captured groups and [k]'s answer. *)
Fixpoint match_k {A} (p : pattern) (k : pystr -> option A) (s : pystr)
    : option (list pystr * A) :=
  match p with
  | [] =>
      match k s with
      | Some a => Some ([], a)
      | None => None
      end
  | Lit c :: p' =>
      match s with
      | c' :: s' => if (c' =? c)%N then match_k p' k s' else None
      | [] => None
      end
  | GreedyPlus cl :: p' =>
      match greedy_plus (in_class cl) (match_k p' k) s with
      | Some (g, (gs, a)) => Some (g :: gs, a)
      | None => None
      end
  | LazyStar cl :: p' =>
      match lazy_star (in_class cl) (match_k p' k) s with
      | Some (g, (gs, a)) => Some (g :: gs, a)
      | None => None
      end
  end.

(** [pattern.match(s)]: the groups and the unmatched rest *)
Definition match_here (p : pattern) (s : pystr) : option (list pystr * pystr) :=
  match_k p (fun r => Some r) s.

(** A match found by [pattern.search]: the text before it, its groups and
    the text after it. *)
Record re_match : Type := {
  m_pre : pystr;
  m_groups : list pystr;
  m_post : pystr
}.

(** [m.group(n)], for [n >= 1] *)
Definition group (n : nat) (m : re_match) : pystr := nth (n - 1) (m_groups m) [].

(** [pattern.search(s)]: the leftmost match *)
Fixpoint re_search (p : pattern) (s : pystr) : option re_match :=
  match match_here p s with
  | Some (gs, r) => Some {| m_pre := []; m_groups := gs; m_post := r |}
  | None =>
      match s with
      | c :: s' =>
          match re_search p s' with
          | Some m => Some {| m_pre := c :: m_pre m; m_groups := m_groups m;
                              m_post := m_post m |}
          | None => None
          end
      | [] => None
      end
  end.

(** [re.split(p, s)] for a pattern with capture groups: the text before
    each match, then its groups, and at the end the text after the last
    match.  Every match of [log_pattern] is non-empty, so each round works
    on a shorter string and [length s] rounds are enough; the rule of
    [re.split] for empty matches is not needed. *)
Fixpoint re_split_fuel (fuel : nat) (p : pattern) (s : pystr) : list pystr :=
  match fuel with
  | O => [s]
  | S fuel' =>
      match re_search p s with
      | None => [s]
      | Some m => m_pre m :: m_groups m ++ re_split_fuel fuel' p (m_post m)
      end
  end.

Definition re_split (p : pattern) (s : pystr) : list pystr :=
  re_split_fuel (S (List.length s)) p s.

(** The grammar the pattern stands for, as a relation: [matches p t gs]
    when the text [t] as a whole is an instance of [p] whose groups are
    [gs]. *)
Inductive matches : pattern -> pystr -> list pystr -> Prop :=
| matches_nil : matches [] [] []
| matches_lit c p t gs :
    matches p t gs -> matches (Lit c :: p) (c :: t) gs
| matches_greedy cl p g t gs :
    g <> [] -> forallb (in_class cl) g = true -> matches p t gs ->
    matches (GreedyPlus cl :: p) (g ++ t) (g :: gs)
| matches_lazy cl p g t gs :
    forallb (in_class cl) g = true -> matches p t gs ->
    matches (LazyStar cl :: p) (g ++ t) (g :: gs).

(** [s] contains an instance of [p] *)
Definition occurs_in (p : pattern) (s : pystr) : Prop :=
  exists pre t post gs, s = pre ++ t ++ post /\ matches p t gs.

(** [pattern.fullmatch(s) is not None]: the matcher with the end of the
    string as continuation *)
Definition at_end (r : pystr) : option unit :=
  match r with
  | [] => Some tt
  | _ :: _ => None
  end.

Definition full_match (p : pattern) (s : pystr) : bool :=
  match match_k p at_end s with
  | Some _ => true
  | None => false
  end.

(** ** [int(s)] in base 10

    Whitespace around the literal is dropped, one sign is allowed, and
    the digits may be separated by single underscores.  Python integers
    are unbounded, but [int] refuses a literal with more than
    [sys.get_int_max_str_digits()] digits; the script leaves that setting
    at its default. *)

Definition int_max_str_digits : nat := 4300.

(** the whitespace [int] skips: that of [str.isspace] without the four
    ASCII separators 0x1C to 0x1F *)
Definition int_space (c : char) : bool :=
  is_space c && negb ((0x1C <=? c) && (c <=? 0x1F))%N.

Fixpoint skip_int_space (s : pystr) : pystr :=
  match s with
  | c :: s' => if int_space c then skip_int_space s' else s
  | [] => []
  end.

Definition int_strip (s : pystr) : pystr :=
  rev (skip_int_space (rev (skip_int_space s))).

(** the digits after a first digit, [acc] being the value read so far *)
Fixpoint digits_value (acc : N) (s : pystr) : option N :=
  match s with
  | [] => Some acc
  | c :: s' =>
      match to_decimal c with
      | Some d => digits_value (10 * acc + d) s'
      | None =>
          if (c =? c_underscore)%N then
            match s' with
            | c2 :: s'' =>
                match to_decimal c2 with
                | Some d => digits_value (10 * acc + d) s''
                | None => None
                end
            | [] => None
            end
          else None
      end
  end.

Definition unsigned_value (s : pystr) : option N :=
  match s with
  | c :: s' =>
      match to_decimal c with
      | Some d => digits_value d s'
      | None => None
      end
  | [] => None
  end.

(** the literal without its sign *)
Definition unsigned_part (s : pystr) : pystr :=
  match s with
  | c :: s' => if ((c =? c_minus) || (c =? c_plus))%N then s' else s
  | [] => []
  end.

Definition signed_value (s : pystr) : option Z :=
  match s with
  | c :: s' =>
      if (c =? c_minus)%N then option_map (fun n => (- Z.of_N n)%Z) (unsigned_value s')
      else if (c =? c_plus)%N then option_map Z.of_N (unsigned_value s')
      else option_map Z.of_N (unsigned_value s)
  | [] => None
  end.

(** the digits and underscores a literal starts with, and how many of
    them are digits *)
Fixpoint digit_run (s : pystr) : pystr :=
  match s with
  | c :: s' =>
      if is_decimal c || (c =? c_underscore)%N then c :: digit_run s' else []
  | [] => []
  end.

Definition digit_count (s : pystr) : nat := List.length (filter is_decimal s).

(** [int(s)].  The digits are counted, and the limit is checked, as soon
    as the run of digits and underscores after the sign has been read and
    found well formed; what follows the run is looked at afterwards. *)
Definition py_int (s : pystr) : result Z :=
  let literal := int_strip s in
  let run := digit_run (unsigned_part literal) in
  match unsigned_value run with
  | Some _ =>
      if int_max_str_digits <? digit_count run
      then Raise (ValueError (ExceedsDigitLimit int_max_str_digits (digit_count run)))
      else
        match signed_value literal with
        | Some z => Ok z
        | None => Raise (ValueError (InvalidLiteral s))
        end
  | None => Raise (ValueError (InvalidLiteral s))
  end.

(** the number a string of decimal digits denotes, read digit by digit *)
Definition decimal_step (acc : N) (c : char) : N :=
  match to_decimal c with
  | Some d => (10 * acc + d)%N
  | None => (10 * acc)%N
  end.

Definition decimal_value (g : pystr) : N := fold_left decimal_step g 0%N.

(** ** [parse_log_line] *)

Record LogRecord : Type := {
  ip : pystr;
  timestamp : pystr;
  request : pystr;
  status : Z;
  user_agent : pystr
}.

(** The body of the [try]. [None] is Python's [None]. *)
Definition parse_log_line_try (line : pystr) : result (option LogRecord) :=
  match line with
  | [] => Ok None
  | _ =>
      let parts := re_split log_pattern line in
      if List.length parts <? 11 then Ok None
      else
        ip <- index parts 1 ;;
        timestamp <- index parts 4 ;;
        request <- index parts 5 ;;
        status_text <- index parts 6 ;;
        status <- py_int status_text ;;
        user_agent <- index parts 9 ;;
        if str_eqb timestamp (lit "-") then Ok None
        else Ok (Some {| ip := ip; timestamp := timestamp; request := request;
                         status := status; user_agent := user_agent |})
  end.

(** The function returns its value and the lines it printed.  [line] is
    rebound to the stripped line before anything can raise, so the
    handler prints a prefix of the stripped line. *)
Definition parse_log_line (line : pystr) : option LogRecord * list event :=
  let line := strip line in
  match parse_log_line_try line with
  | Ok r => (r, [])
  | Raise e => (None, [SkippingMalformedLine (firstn 100 line) e])
  end.

(** The layout [DD/MM/YYYY:HH:MM:SS]: two, two and four digits, then three
    times two digits, separated as shown. *)
Definition timestamp_layout (s : pystr) : bool :=
  match s with
  | [d1; d2; s1; m1; m2; s2; y1; y2; y3; y4; s3; h1; h2; s4; n1; n2; s5; e1; e2] =>
      forallb is_decimal [d1; d2; m1; m2; y1; y2; y3; y4; h1; h2; n1; n2; e1; e2]
      && (s1 =? 47)%N && (s2 =? 47)%N
      && (s3 =? 58)%N && (s4 =? 58)%N && (s5 =? 58)%N
  | _ => false
  end.

(** ** [pd.to_datetime(..., format='%d/%m/%Y:%H:%M:%S', errors='coerce')]

    The format is matched the way [strptime] does it, each directive
    with its own alternatives, and the whole string has to be used up.
    [None] is [NaT]. *)

Definition obind {A B} (m : option A) (f : A -> option B) : option B :=
  match m with
  | Some a => f a
  | None => None
  end.

(** the text before the first [sep] and the text after it *)
Fixpoint take_until (sep : char) (s : pystr) : option (pystr * pystr) :=
  match s with
  | [] => None
  | c :: s' =>
      if (c =? sep)%N then Some ([], s')
      else obind (take_until sep s') (fun '(a, b) => Some (c :: a, b))
  end.

(** the class [[lo-hi]] of ASCII digits *)
Definition in_digits (lo hi : N) (c : char) : option N :=
  if ((48 + lo <=? c) && (c <=? 48 + hi))%N then Some (c - 48)%N else None.

Definition a_space (c : char) : option N :=
  if (c =? c_space)%N then Some 0%N else None.

Definition two (f g : char -> option N) (t : pystr) : option N :=
  match t with
  | [a; b] => obind (f a) (fun x => obind (g b) (fun y => Some (10 * x + y)%N))
  | _ => None
  end.

Definition one (f : char -> option N) (t : pystr) : option N :=
  match t with
  | [a] => f a
  | _ => None
  end.

(** the first alternative that matches *)
Fixpoint first_of (alts : list (pystr -> option N)) (t : pystr) : option N :=
  match alts with
  | [] => None
  | f :: alts' =>
      match f t with
      | Some v => Some v
      | None => first_of alts' t
      end
  end.

(** [%d]: [3[0-1]|[1-2]\d|0[1-9]|[1-9]| [1-9]] *)
Definition fmt_d : pystr -> option N :=
  first_of [ two (in_digits 3 3) (in_digits 0 1); two (in_digits 1 2) to_decimal;
             two (in_digits 0 0) (in_digits 1 9); one (in_digits 1 9);
             two a_space (in_digits 1 9) ].

(** [%m]: [1[0-2]|0[1-9]|[1-9]] *)
Definition fmt_m : pystr -> option N :=
  first_of [ two (in_digits 1 1) (in_digits 0 2);
             two (in_digits 0 0) (in_digits 1 9); one (in_digits 1 9) ].

(** [%Y]: [\d\d\d\d] *)
Definition fmt_Y (t : pystr) : option N :=
  match t with
  | [a; b; c; d] =>
      obind (to_decimal a) (fun x => obind (to_decimal b) (fun y =>
      obind (to_decimal c) (fun z => obind (to_decimal d) (fun w =>
        Some (1000 * x + 100 * y + 10 * z + w)%N))))
  | _ => None
  end.

(** [%H]: [2[0-3]|[0-1]\d|\d] *)
Definition fmt_H : pystr -> option N :=
  first_of [ two (in_digits 2 2) (in_digits 0 3); two (in_digits 0 1) to_decimal;
             one to_decimal ].

(** [%M]: [[0-5]\d|\d] *)
Definition fmt_M : pystr -> option N :=
  first_of [ two (in_digits 0 5) to_decimal; one to_decimal ].

(** [%S]: [6[0-1]|[0-5]\d|\d] *)
Definition fmt_S : pystr -> option N :=
  first_of [ two (in_digits 6 6) (in_digits 0 1); two (in_digits 0 5) to_decimal;
             one to_decimal ].

Definition is_leap (y : Z) : bool :=
  ((y mod 4 =? 0) && (negb (y mod 100 =? 0) || (y mod 400 =? 0)))%Z.

Definition days_in_month (y m : Z) : Z :=
  (if m =? 2 then (if is_leap y then 29 else 28)
   else if (m =? 4) || (m =? 6) || (m =? 9) || (m =? 11) then 30
   else 31)%Z.

(** days from 1970-01-01 to the given date of the proleptic Gregorian
    calendar *)
Definition days_from_civil (y m d : Z) : Z :=
  (let y' := if m <=? 2 then y - 1 else y in
   let era := y' / 400 in
   let yoe := y' - era * 400 in
   let doy := (153 * (if 2 <? m then m - 3 else m + 9) + 2) / 5 + d - 1 in
   let doe := yoe * 365 + yoe / 4 - yoe / 100 + doy in
   era * 146097 + doe - 719468)%Z.

Definition epoch_seconds (y m d hh mm ss : Z) : Z :=
  (days_from_civil y m d * 86400 + hh * 3600 + mm * 60 + ss)%Z.

(** A date that does not exist and a datetime outside the range of a
    64-bit count of nanoseconds give [NaT].  The seconds 60 and 61, which
    [%S] admits, are added as they are. *)
Definition to_datetime (s : pystr) : option Z :=
  obind (take_until 47%N s) (fun '(d, s1) =>
  obind (take_until 47%N s1) (fun '(m, s2) =>
  obind (take_until 58%N s2) (fun '(y, s3) =>
  obind (take_until 58%N s3) (fun '(hh, s4) =>
  obind (take_until 58%N s4) (fun '(mm, ss) =>
  obind (fmt_d d) (fun day =>
  obind (fmt_m m) (fun month =>
  obind (fmt_Y y) (fun year =>
  obind (fmt_H hh) (fun hour =>
  obind (fmt_M mm) (fun minute =>
  obind (fmt_S ss) (fun second =>
    let year := Z.of_N year in
    let month := Z.of_N month in
    let day := Z.of_N day in
    if ((1 <=? year) && (day <=? days_in_month year month))%Z then
      let t := epoch_seconds year month day (Z.of_N hour) (Z.of_N minute)
                 (Z.of_N second) in
      if ((-9223372036 <=? t) && (t <=? 9223372036))%Z then Some t else None
    else None))))))))))).

(** ** [analyze_logs] *)

(** [needle in hay] *)
Fixpoint starts_with (p s : pystr) : bool :=
  match p, s with
  | [], _ => true
  | a :: p', b :: s' => (a =? b)%N && starts_with p' s'
  | _ :: _, [] => false
  end.

Fixpoint contains (needle hay : pystr) : bool :=
  starts_with needle hay ||
  match hay with
  | [] => false
  | _ :: hay' => contains needle hay'
  end.

Definition bot_keywords : list pystr :=
  [lit "bot"; lit "crawl"; lit "spider"; lit "scraper"; lit "monitoring";
   lit "python"; lit "curl"; lit "wget"].

(** [logs['user_agent'].str.lower().str.contains('bot|crawl|...')] *)
Definition is_bot (r : LogRecord) : bool :=
  existsb (fun k => contains k (str_lower ucd (user_agent r))) bot_keywords.

(** [logs['request'].str.split().str[0]] and [.str[1]]: an index out of
    range gives a missing value. *)
Definition method (r : LogRecord) : option pystr := nth_error (split_ws (request r)) 0.
Definition path (r : LogRecord) : option pystr := nth_error (split_ws (request r)) 1.

Definition ip_counts (logs : list LogRecord) : list (pystr * nat) :=
  Counter str_eq_dec (map ip logs).

Definition top_ips (logs : list LogRecord) : list (pystr * nat) :=
  most_common 10 (ip_counts logs).

Definition method_counts (logs : list LogRecord) : list (pystr * nat) :=
  value_counts str_eq_dec (map method logs).

Definition path_counts (logs : list LogRecord) : list (pystr * nat) :=
  value_counts str_eq_dec (map path logs).

(** the status column has no missing value *)
Definition status_counts (logs : list LogRecord) : list (Z * nat) :=
  value_counts Z.eq_dec (map (fun r => Some (status r)) logs).

(** the rows of [valid_time_logs], as datetimes *)
Definition valid_times (logs : list LogRecord) : list Z :=
  dropna (map (fun r => to_datetime (timestamp r)) logs).

(** the reading loop: the lines counted, the entries kept, in order, and
    what [parse_log_line] printed on the way *)
Definition collect_step (st : nat * list LogRecord * list event) (line : pystr)
    : nat * list LogRecord * list event :=
  let '(line_count, log_entries, out) := st in
  let '(entry, printed) := parse_log_line line in
  (S line_count,
   match entry with
   | Some r => log_entries ++ [r]
   | None => log_entries
   end,
   out ++ printed).

Definition collect (lines : list pystr) : nat * list LogRecord * list event :=
  fold_left collect_step lines (0, [], []).

(** the echo of the first lines:
    [for i, line in enumerate(f): if i < 3: print(...) else: break].
    The body runs four times at most, which is the fuel. *)
Fixpoint echo_first_lines (locale : encoding) (fuel i : nat) (f : reader)
    : list event * result unit :=
  match fuel with
  | 0 => ([], Ok tt)
  | S fuel' =>
      match readline locale f with
      | Raise e => ([], Raise e)
      | Ok (None, _) => ([], Ok tt)
      | Ok (Some line, f') =>
          if i <? 3 then
            let '(out, r) := echo_first_lines locale fuel' (S i) f' in
            (EchoLine (i + 1) (strip line) :: out, r)
          else ([], Ok tt)
      end
  end.

(** everything from ["=== Traffic Analysis ==="] to the status table *)
Definition traffic_report (logs : list LogRecord) : list event :=
  [TrafficAnalysis (List.length logs) (nunique str_eq_dec (map ip logs));
   TopIPsHeading]
  ++ map (fun kv => TopIPLine (fst kv) (snd kv)) (top_ips logs)
  ++ [PotentialBotTraffic (List.length (filter is_bot logs)) (List.length logs);
      HttpMethods (method_counts logs);
      TopRequestedPaths (firstn 10 (path_counts logs));
      HttpStatusCodes (status_counts logs)].

(** the time-based analysis, with its [try]/[except].  pandas and
    matplotlib are taken to work; the only exception left is the one of
    [idxmax]. *)
Definition time_report (logs : list LogRecord) : list event :=
  let valid := valid_times logs in
  let time_dropped := List.length logs - List.length valid in
  let note := if 0 <? time_dropped then [DroppedInvalidTimestamps time_dropped] else [] in
  if 0 <? List.length valid then
    let rpm := requests_per_minute valid in
    let saved := note ++ [SaveFig (lit "requests_per_minute.png") rpm; SavedTrafficGraph] in
    match idxmax rpm with
    | Ok peak_time => saved ++ [BusiestMinute peak_time (series_max rpm)]
    | Raise e => saved ++ [CouldNotGenerateTimeGraph e]
    end
  else note ++ [WarningNoValidTimestamps].

(** The run: the trace of what was written, and how the call ended
    ([Ok tt]: it returned; [Raise e]: [e] was not caught).  [locale] is
    the encoding of the locale and [fs] the file system. *)
Definition analyze_logs (locale : encoding) (fs : file_system) (log_file : pystr)
    : list event * result unit :=
  let out0 := [AnalyzingLogFile log_file] in
  match fs log_file with
  | NoSuchPath => (out0 ++ [ErrorFileNotFound log_file], Ok tt)
  | CannotOpen errno => (out0, Raise (OSError errno))
  | File bytes =>
      match read_lines_replace bytes with
      | Raise e => (out0, Raise e)
      | Ok lines =>
          let '(line_count, log_entries, printed) := collect lines in
          let out1 :=
            out0 ++ printed
            ++ [ProcessingReport line_count (List.length log_entries)
                  (Z.of_nat line_count - Z.of_nat (List.length log_entries))] in
          match log_entries with
          | [] =>
              let out2 := out1 ++ [ErrorNoValidEntries] in
              let '(echoed, outcome) := echo_first_lines locale 4 0 (open_text bytes) in
              (out2 ++ echoed, outcome)
          | _ =>
              (out1 ++ traffic_report log_entries ++ time_report log_entries, Ok tt)
          end
      end
  end.

(** ** Notions used to state the properties *)

(** the record made of the groups of a match *)
Definition record_of_match (m : re_match) : LogRecord :=
  {| ip := group 1 m; timestamp := group 4 m; request := group 5 m;
     status := Z.of_N (decimal_value (group 6 m)); user_agent := group 9 m |}.

(** the records the reading loop keeps, in the order of the lines *)
Definition accepted_records (lines : list pystr) : list LogRecord :=
  flat_map (fun line => match fst (parse_log_line line) with
                        | Some r => [r]
                        | None => []
                        end) lines.

(** what [parse_log_line] prints while the lines are read *)
Definition diagnostics (lines : list pystr) : list event :=
  flat_map (fun line => snd (parse_log_line line)) lines.

(** the status group is longer than [int] accepts, and what [int]
    raises then *)
Definition overlong (g : pystr) : bool := int_max_str_digits <? List.length g.

Definition too_many_digits (g : pystr) : exn :=
  ValueError (ExceedsDigitLimit int_max_str_digits (List.length g)).

(** the line [parse_log_line] prints when the status of the match [m]
    found in [line] is too long *)
Definition skipped (line : pystr) (m : re_match) : event :=
  SkippingMalformedLine (firstn 100 (strip line)) (too_many_digits (group 6 m)).

(** the line feeds of a text *)
Definition newline_count (s : pystr) : nat := count_occ N.eq_dec s c_newline.

(** the lines of the whole file, decoded strictly as UTF-8 *)
Definition read_lines_strict (bytes : list Byte.byte) : result (list pystr) :=
  t <- decode utf_8 bytes true ;; Ok (text_lines (fst t)).

(** what the run writes up to the explanation when no record is
    accepted from the lines *)
Definition no_entries_head (log_file : pystr) (lines : list pystr) : list event :=
  [AnalyzingLogFile log_file] ++ diagnostics lines
  ++ [ProcessingReport (List.length lines) 0 (Z.of_nat (List.length lines));
      ErrorNoValidEntries].

(** the echo of the lines [raw]: the first three, stripped and numbered *)
Definition echo_of (raw : list pystr) : list event :=
  map (fun il => EchoLine (S (fst il)) (strip (snd il))) (combine (seq 0 3) raw).




Definition has_method (r : LogRecord) : bool :=
  match method r with Some _ => true | None => false end.

Definition has_path (r : LogRecord) : bool :=
  match path r with Some _ => true | None => false end.

Definition opt_str_eq_dec : forall a b : option pystr, {a = b} + {a <> b}.
Proof. decide equality. apply str_eq_dec. Defined.

(** ** Notions used in the proofs about the reader *)

(** the decoding of [a] followed by that of what it kept and [b] *)
Definition decode_in_two (final : bool) (pos : nat) (a b : list Byte.byte)
    (x : pystr * list Byte.byte) : Prop :=
  match utf8_decode false false pos a with
  | Ok (t1, h1) =>
      match utf8_decode false final 0 (h1 ++ b) with
      | Ok x1 => x = (t1 ++ fst x1, snd x1)
      | Raise _ => False
      end
  | Raise _ => False
  end.

Definition starts_with_newline (s : pystr) : bool :=
  match s with
  | c :: _ => (c =? c_newline)%N
  | [] => false
  end.

(** The text that fetching the chunks [u] adds to the decoded text; with
    [final], the file ends after them. *)
Fixpoint ahead (enc : encoding) (final : bool) (u : list (list Byte.byte))
    (kept : list Byte.byte) (pendingcr : bool) : result pystr :=
  match u with
  | [] =>
      if final then
        t <- decode enc kept true ;; Ok (fst (newline_decode pendingcr (fst t) true))
      else Ok []
  | chunk :: u' =>
      t <- decode enc (kept ++ chunk) false ;;
      rest <- ahead enc final u' (snd t) (snd (newline_decode pendingcr (fst t) false)) ;;
      Ok (fst (newline_decode pendingcr (fst t) false) ++ rest)
  end.

(** [f] has the chunks [u1] and then [u2] to fetch, and [u1] gives the
    text [K] *)
Definition reads_ahead (enc : encoding) (final : bool) (u2 : list (list Byte.byte))
    (f : reader) (text : pystr) : Prop :=
  exists u1 K,
    unread f = u1 ++ u2
    /\ ahead enc final u1 (buffer f) (pendingcr f) = Ok K
    /\ decoded_chars f ++ K = text.

(** ** Sample inputs *)

(** a line of the expected shape, from its fields *)
Definition log_line (ip ts req st ua : pystr) : pystr :=
  ip ++ lit " - - [" ++ ts ++ lit "] " ++ quoted req ++ lit " " ++ st
  ++ lit " 512 " ++ quoted (lit "-") ++ lit " " ++ quoted ua ++ lit " 120".

Definition sample_line : pystr :=
  log_line (lit "203.0.113.7") (lit "01/07/2025:06:00:02")
           (lit "GET /api/episodes HTTP/1.1") (lit "200") (lit "Mozilla/5.0")
  ++ [c_newline].

Definition sample_record : LogRecord :=
  {| ip := lit "203.0.113.7"; timestamp := lit "01/07/2025:06:00:02";
     request := lit "GET /api/episodes HTTP/1.1"; status := 200;
     user_agent := lit "Mozilla/5.0" |}.

(** the same entry with text before and after it *)
Definition embedded_line : pystr :=
  lit "host42 " ++ log_line (lit "203.0.113.7") (lit "01/07/2025:06:00:02")
           (lit "GET /api/episodes HTTP/1.1") (lit "200") (lit "Mozilla/5.0")
  ++ lit "ms upstream=ok" ++ [c_newline].

(** an entry whose bracketed field is not a timestamp *)
Definition odd_timestamp_line : pystr :=
  log_line (lit "203.0.113.7") (lit "yesterday")
           (lit "GET /api/episodes HTTP/1.1") (lit "200") (lit "Mozilla/5.0")
  ++ [c_newline].


(** a status of 4301 digits, one more than [int] accepts *)
Definition overlong_status : pystr := repeat 49%N 4301.

(** an entry with that status, and one that has no timestamp either *)
Definition overlong_line : pystr :=
  log_line (lit "203.0.113.7") (lit "01/07/2025:06:00:02")
           (lit "GET /api/episodes HTTP/1.1") overlong_status (lit "Mozilla/5.0")
  ++ [c_newline].


(** an entry with an empty request *)
Definition empty_request_line : pystr :=
  log_line (lit "203.0.113.7") (lit "01/07/2025:06:00:02")
           [] (lit "400") (lit "Mozilla/5.0")
  ++ [c_newline].

Definition empty_request_record : LogRecord :=
  {| ip := lit "203.0.113.7"; timestamp := lit "01/07/2025:06:00:02";
     request := []; status := 400; user_agent := lit "Mozilla/5.0" |}.

(** the match found in [sample_line] *)
Definition sample_match : re_match :=
  {| m_pre := [];
     m_groups := [lit "203.0.113.7"; lit "-"; lit "-"; lit "01/07/2025:06:00:02";
                  lit "GET /api/episodes HTTP/1.1"; lit "200"; lit "512";
                  lit "-"; lit "Mozilla/5.0"; lit "120"];
     m_post := [] |}.


(** the matches found in [overlong_line] and in [dash_overlong_line] *)
Definition overlong_match : re_match :=
  {| m_pre := [];
     m_groups := [lit "203.0.113.7"; lit "-"; lit "-"; lit "01/07/2025:06:00:02";
                  lit "GET /api/episodes HTTP/1.1"; overlong_status; lit "512";
                  lit "-"; lit "Mozilla/5.0"; lit "120"];
     m_post := [] |}.


Definition record_from (ip ts : pystr) : LogRecord :=
  {| ip := ip; timestamp := ts; request := lit "GET / HTTP/1.1"; status := 200;
     user_agent := lit "Mozilla/5.0" |}.

(** A five times, B five times, C three times; C comes first, A before B *)
Definition ranking_logs : list LogRecord :=
  map (fun k => record_from (lit k) (lit "01/07/2025:06:00:02"))
      ["C"; "A"; "B"; "B"; "B"; "B"; "B"; "A"; "C"; "A"; "A"; "A"; "C"]%string.

Definition minute_logs : list LogRecord :=
  map (fun ts => record_from (lit "203.0.113.7") (lit ts))
      ["01/07/2025:06:00:02"; "01/07/2025:06:00:45"; "01/07/2025:06:01:10"]%string.

Definition default_log_file : pystr := lit "server_logs.txt".

Definition single_file (content : list Byte.byte) : file_system :=
  fun path => if str_eqb path default_log_file then File content else NoSuchPath.

(** a directory under the name of the log file *)
Definition EISDIR : nat := 21.

Definition directory_only : file_system :=
  fun path => if str_eqb path default_log_file then CannotOpen EISDIR else NoSuchPath.

(** ISO 8859-1: every byte is the character of its number *)
Definition latin_1 : encoding := charmap (fun b => Some (Byte.to_N b)).

(** a file of three lines, none an entry; the first is indented: the
    bytes of ["  play all  \nnext\n\n"] *)
Definition indented_file : list Byte.byte :=
  [Byte.x20; Byte.x20; Byte.x70; Byte.x6c; Byte.x61; Byte.x79; Byte.x20;
   Byte.x61; Byte.x6c; Byte.x6c; Byte.x20; Byte.x20; Byte.x0a;
   Byte.x6e; Byte.x65; Byte.x78; Byte.x74; Byte.x0a; Byte.x0a].

(** a file of one line that holds the byte 0xFF, which no UTF-8 text
    contains *)
Definition undecodable_file : list Byte.byte := [Byte.xff; Byte.x0a].

(** the lines of [indented_file] *)
Definition indented_lines : list pystr :=
  [lit "  play all  " ++ [c_newline]; lit "next" ++ [c_newline]; [c_newline]].





(** the bytes of an ASCII text *)
Definition ascii_bytes (text : pystr) : list Byte.byte :=
  map (fun c => match Byte.of_N c with Some b => b | None => Byte.x00 end) text.


(** a file of three lines: two entries and a line that is none *)
Definition sample_file : list Byte.byte :=
  ascii_bytes (sample_line ++ lit "not an entry" ++ [c_newline] ++ odd_timestamp_line).


(** a file whose first four lines are ASCII text and whose second chunk
    starts with the byte 0xFF *)
Definition late_undecodable_file : list Byte.byte :=
  ascii_bytes (List.concat (repeat (lit "skip" ++ [c_newline]) 4))
  ++ repeat Byte.x20 (chunk_size - 20) ++ [Byte.xff; Byte.x0a].

(** a file that holds [overlong_line] and nothing else *)
Definition overlong_file : list Byte.byte := ascii_bytes overlong_line.

(** ten paths that are requested twice each, and one that is requested
    once *)
Definition frequent_paths : list pystr :=
  map lit ["/a"; "/b"; "/c"; "/d"; "/e"; "/f"; "/g"; "/h"; "/i"; "/j"]%string.

Definition record_for (path : pystr) : LogRecord :=
  {| ip := lit "203.0.113.7"; timestamp := lit "01/07/2025:06:00:02";
     request := lit "GET " ++ path ++ lit " HTTP/1.1"; status := 200;
     user_agent := lit "Mozilla/5.0" |}.

Definition eleven_paths_logs : list LogRecord :=
  map record_for (frequent_paths ++ [lit "/rare"] ++ frequent_paths).

(** * Properties *)

(** ** The matcher against the grammar *)

Lemma lazy_star_unfold {A} cls (k : pystr -> option A) s :
  lazy_star cls k s =
  match k s with
  | Some a => Some ([], a)
  | None =>
      match s with
      | c :: s' =>
          if cls c then
            match lazy_star cls k s' with
            | Some (g, a) => Some (c :: g, a)
            | None => None
            end
          else None
      | [] => None
      end
  end.
Proof. destruct s; reflexivity. Qed.

Lemma lazy_star_sound {A} cls (k : pystr -> option A) s g a :
  lazy_star cls k s = Some (g, a) ->
  forallb cls g = true /\ exists r, s = g ++ r /\ k r = Some a.
Proof.
  revert g a. induction s as [|c s IH]; intros g a H; simpl in H.
  - destruct (k []) eqn:E; inversion H; subst.
    split; [reflexivity|]. exists []. auto.
  - destruct (k (c :: s)) eqn:E.
    + inversion H; subst. split; [reflexivity|]. exists (c :: s). auto.
    + destruct (cls c) eqn:Ec; [|discriminate].
      destruct (lazy_star cls k s) as [[g' a']|] eqn:El; [|discriminate].
      inversion H; subst.
      destruct (IH _ _ eq_refl) as [Hf [r [Hs Hk]]].
      split; [simpl; rewrite Ec; exact Hf|].
      exists r. subst. auto.
Qed.

Lemma greedy_plus_sound {A} cls (k : pystr -> option A) s g a :
  greedy_plus cls k s = Some (g, a) ->
  g <> [] /\ forallb cls g = true /\ exists r, s = g ++ r /\ k r = Some a.
Proof.
  revert g a. induction s as [|c s IH]; intros g a H; simpl in H; [discriminate|].
  destruct (cls c) eqn:Ec; [|discriminate].
  destruct (greedy_plus cls k s) as [[g' a']|] eqn:Eg.
  - inversion H; subst.
    destruct (IH _ _ eq_refl) as (_ & Hf & r & Hs & Hk).
    split; [discriminate|]. split; [simpl; rewrite Ec; exact Hf|].
    exists r. subst. auto.
  - destruct (k s) eqn:Ek; [|discriminate]. inversion H; subst.
    split; [discriminate|]. split; [simpl; rewrite Ec; reflexivity|].
    exists s. auto.
Qed.

Lemma lazy_star_complete {A} cls (k : pystr -> option A) g r a :
  forallb cls g = true -> k r = Some a ->
  exists g' a', lazy_star cls k (g ++ r) = Some (g', a').
Proof.
  intros Hf Hk. induction g as [|c g IH]; simpl in *.
  - rewrite lazy_star_unfold, Hk. eauto.
  - apply andb_true_iff in Hf. destruct Hf as [Hc Hf].
    destruct (k (c :: g ++ r)) eqn:E; [eauto|].
    rewrite Hc. destruct (IH Hf) as (g' & a' & ->). eauto.
Qed.

Lemma greedy_plus_complete {A} cls (k : pystr -> option A) g r a :
  g <> [] -> forallb cls g = true -> k r = Some a ->
  exists g' a', greedy_plus cls k (g ++ r) = Some (g', a').
Proof.
  intros Hne Hf Hk. induction g as [|c g IH]; [congruence|]. simpl in *.
  apply andb_true_iff in Hf. destruct Hf as [Hc Hf]. rewrite Hc.
  destruct (greedy_plus cls k (g ++ r)) as [[g' a']|] eqn:E; [eauto|].
  destruct g as [|c' g].
  - simpl. rewrite Hk. eauto.
  - destruct IH as (g' & a' & H); [discriminate|exact Hf|]. congruence.
Qed.

Lemma match_k_sound {A} p (k : pystr -> option A) : forall s gs a,
  match_k p k s = Some (gs, a) ->
  exists t r, s = t ++ r /\ matches p t gs /\ k r = Some a.
Proof.
  induction p as [|i p IH]; intros s gs a H; simpl in H.
  - destruct (k s) eqn:E; inversion H; subst.
    exists [], s. repeat split; auto. constructor.
  - destruct i as [c|cl|cl].
    + destruct s as [|c' s]; [discriminate|].
      destruct (N.eqb_spec c' c); [|discriminate]. subst.
      destruct (IH _ _ _ H) as (t & r & -> & Hm & Hk).
      exists (c :: t), r. repeat split; auto. constructor; auto.
    + destruct (greedy_plus (in_class cl) (match_k p k) s)
        as [[g [gs' a']]|] eqn:E; [|discriminate].
      inversion H; subst.
      apply greedy_plus_sound in E. destruct E as (Hne & Hf & r & -> & Hk).
      apply IH in Hk. destruct Hk as (t & r' & -> & Hm & Hk).
      exists (g ++ t), r'. rewrite app_assoc. repeat split; auto.
      constructor; auto.
    + destruct (lazy_star (in_class cl) (match_k p k) s)
        as [[g [gs' a']]|] eqn:E; [|discriminate].
      inversion H; subst.
      apply lazy_star_sound in E. destruct E as (Hf & r & -> & Hk).
      apply IH in Hk. destruct Hk as (t & r' & -> & Hm & Hk).
      exists (g ++ t), r'. rewrite app_assoc. repeat split; auto.
      constructor; auto.
Qed.

Lemma match_k_complete p t gs :
  matches p t gs ->
  forall A (k : pystr -> option A) r a, k r = Some a ->
  exists gs' a', match_k p k (t ++ r) = Some (gs', a').
Proof.
  induction 1 as [|c p t gs Hm IH|cl p g t gs Hne Hf Hm IH|cl p g t gs Hf Hm IH];
    intros A k r a Hk; simpl.
  - rewrite Hk. eauto.
  - rewrite N.eqb_refl. eapply IH; eauto.
  - destruct (IH _ k r a Hk) as (gs1 & a1 & H1).
    rewrite <- app_assoc.
    destruct (greedy_plus_complete (in_class cl) (match_k p k) g (t ++ r) _ Hne Hf H1)
      as (g' & [gs2 a2] & ->). eauto.
  - destruct (IH _ k r a Hk) as (gs1 & a1 & H1).
    rewrite <- app_assoc.
    destruct (lazy_star_complete (in_class cl) (match_k p k) g (t ++ r) _ Hf H1)
      as (g' & [gs2 a2] & ->). eauto.
Qed.

(** [full_match] decides the grammar. *)
Lemma full_match_iff p s :
  full_match p s = true <-> exists gs, matches p s gs.
Proof.
  unfold full_match. split.
  - destruct (match_k p at_end s) as [[gs a]|] eqn:E; [|discriminate]. intros _.
    apply match_k_sound in E. destruct E as (t & r & -> & Hm & Hr).
    destruct r; [|discriminate]. rewrite app_nil_r. eauto.
  - intros [gs Hm].
    destruct (match_k_complete _ _ _ Hm _ at_end [] tt eq_refl) as (gs' & a' & H).
    rewrite app_nil_r in H. rewrite H. reflexivity.
Qed.

Lemma match_here_sound p s gs r :
  match_here p s = Some (gs, r) -> exists t, s = t ++ r /\ matches p t gs.
Proof.
  unfold match_here. intros H. apply match_k_sound in H.
  destruct H as (t & r' & -> & Hm & Hr). inversion Hr; subst. eauto.
Qed.

Lemma re_search_unfold p s :
  re_search p s =
  match match_here p s with
  | Some (gs, r) => Some {| m_pre := []; m_groups := gs; m_post := r |}
  | None =>
      match s with
      | c :: s' =>
          match re_search p s' with
          | Some m => Some {| m_pre := c :: m_pre m; m_groups := m_groups m;
                              m_post := m_post m |}
          | None => None
          end
      | [] => None
      end
  end.
Proof. destruct s; reflexivity. Qed.

(** A match that [search] finds is an instance of the grammar inside the
    string. *)
Lemma re_search_sound p : forall s m,
  re_search p s = Some m ->
  exists t, s = m_pre m ++ t ++ m_post m /\ matches p t (m_groups m).
Proof.
  induction s as [|c s IH]; intros m H; rewrite re_search_unfold in H.
  - destruct (match_here p []) as [[gs r]|] eqn:E; [|discriminate].
    inversion H; subst; simpl. apply match_here_sound in E. exact E.
  - destruct (match_here p (c :: s)) as [[gs r]|] eqn:E.
    + inversion H; subst; simpl. apply match_here_sound in E. exact E.
    + destruct (re_search p s) as [m'|] eqn:Es; [|discriminate].
      inversion H; subst; simpl.
      destruct (IH _ eq_refl) as (t & -> & Hm). eauto.
Qed.

(** [search] finds a match whenever the string contains an instance. *)
Lemma re_search_complete p s :
  occurs_in p s -> exists m, re_search p s = Some m.
Proof.
  intros (pre & t & post & gs & -> & Hm).
  induction pre as [|c pre IH]; simpl app; rewrite re_search_unfold.
  - destruct (match_k_complete _ _ _ Hm _ (fun r => Some r) post post eq_refl)
      as (gs' & r' & H).
    unfold match_here. rewrite H. eauto.
  - destruct (match_here p (c :: pre ++ t ++ post)) as [[gs' r']|]; [eauto|].
    destruct IH as (m & ->). eauto.
Qed.

Lemma re_search_none p s :
  re_search p s = None <-> ~ occurs_in p s.
Proof.
  split.
  - intros H Ho. apply re_search_complete in Ho. destruct Ho as [m Hm]. congruence.
  - intros Hn. destruct (re_search p s) as [m|] eqn:E; [|reflexivity].
    exfalso. apply Hn. apply re_search_sound in E. destruct E as (t & Hs & Hm).
    exists (m_pre m), t, (m_post m), (m_groups m). auto.
Qed.

(** ** Digits, whitespace and [int] *)

Ltac decide_comparisons :=
  repeat match goal with
  | |- context [(?a <=? ?b)%N] =>
      first [ rewrite (proj2 (N.leb_gt a b)) by lia
            | rewrite (proj2 (N.leb_le a b)) by lia ]
  | |- context [(?a =? ?b)%N] =>
      first [ rewrite (proj2 (N.eqb_neq a b)) by lia
            | rewrite (proj2 (N.eqb_eq a b)) by lia ]
  end.

Lemma ascii_digit_not_space c :
  (48 <= c <= 57)%N -> is_space c = false.
Proof. intros H. unfold is_space. decide_comparisons. reflexivity. Qed.

Lemma to_decimal_cases c d :
  to_decimal c = Some d ->
  ((48 <= c <= 57)%N /\ d = (c - 48)%N) \/ (128 <= c)%N /\ is_space c = false.
Proof.
  unfold to_decimal. destruct (N.ltb_spec c 128).
  - destruct (N.leb_spec 48 c); destruct (N.leb_spec c 57); simpl;
      try discriminate.
    intros H'. inversion H'. left. lia.
  - destruct (is_space c); [discriminate|]. intros _. right. auto.
Qed.

Lemma is_decimal_not_space c : is_decimal c = true -> is_space c = false.
Proof.
  unfold is_decimal. destruct (to_decimal c) as [d|] eqn:E; [|discriminate].
  intros _. destruct (to_decimal_cases c d E) as [[H _]|[_ H]]; auto.
  apply ascii_digit_not_space; exact H.
Qed.

Lemma is_decimal_not_punct c :
  is_decimal c = true ->
  (c =? c_minus)%N = false /\ (c =? c_plus)%N = false
  /\ (c =? c_underscore)%N = false.
Proof.
  unfold is_decimal, c_minus, c_plus, c_underscore.
  destruct (to_decimal c) as [d|] eqn:E; [|discriminate]. intros _.
  destruct (to_decimal_cases c d E) as [[H _]|[H _]];
    repeat split; apply N.eqb_neq; lia.
Qed.

Lemma forallb_rev {A} (f : A -> bool) l : forallb f (rev l) = forallb f l.
Proof.
  induction l as [|x l IH]; [reflexivity|]. simpl.
  rewrite forallb_app, IH. simpl. rewrite andb_true_r. apply andb_comm.
Qed.

Lemma lstrip_no_space s :
  forallb (fun c => negb (is_space c)) s = true -> lstrip s = s.
Proof.
  destruct s as [|c s]; [reflexivity|]. simpl. intros H.
  apply andb_true_iff in H. destruct H as [H _].
  destruct (is_space c); [discriminate|reflexivity].
Qed.

(** [strip] leaves a string without whitespace as it is. *)
Lemma strip_no_space s :
  forallb (fun c => negb (is_space c)) s = true -> strip s = s.
Proof.
  intros H. unfold strip, rstrip. rewrite (lstrip_no_space s H).
  rewrite lstrip_no_space; [apply rev_involutive|].
  rewrite forallb_rev. exact H.
Qed.

Lemma decimals_no_space g :
  forallb is_decimal g = true -> forallb (fun c => negb (is_space c)) g = true.
Proof.
  induction g as [|c g IH]; [reflexivity|]. simpl. intros H.
  apply andb_true_iff in H. destruct H as [Hc Hg].
  rewrite (is_decimal_not_space c Hc). simpl. auto.
Qed.

Lemma digits_value_decimals g : forall acc,
  forallb is_decimal g = true ->
  digits_value acc g = Some (fold_left decimal_step g acc).
Proof.
  induction g as [|c g IH]; intros acc H; [reflexivity|]. simpl in *.
  apply andb_true_iff in H. destruct H as [Hc Hg].
  unfold decimal_step at 2. unfold is_decimal in Hc.
  destruct (to_decimal c) as [d|]; [|discriminate]. apply IH; exact Hg.
Qed.

Lemma unsigned_value_decimals g :
  g <> [] -> forallb is_decimal g = true ->
  unsigned_value g = Some (decimal_value g).
Proof.
  destruct g as [|c g]; [congruence|]. intros _ H. simpl in *.
  apply andb_true_iff in H. destruct H as [Hc Hg].
  unfold decimal_value. simpl. unfold decimal_step at 2. unfold is_decimal in Hc.
  destruct (to_decimal c) as [d|]; [|discriminate].
  rewrite (digits_value_decimals g d Hg). reflexivity.
Qed.

Lemma skip_int_space_no_space s :
  forallb (fun c => negb (is_space c)) s = true -> skip_int_space s = s.
Proof.
  destruct s as [|c s]; [reflexivity|]. simpl. intros H.
  apply andb_true_iff in H. destruct H as [H _]. unfold int_space.
  destruct (is_space c); [discriminate|reflexivity].
Qed.

Lemma int_strip_no_space s :
  forallb (fun c => negb (is_space c)) s = true -> int_strip s = s.
Proof.
  intros H. unfold int_strip. rewrite (skip_int_space_no_space s H).
  rewrite skip_int_space_no_space; [apply rev_involutive|].
  rewrite forallb_rev. exact H.
Qed.

Lemma digit_run_decimals g : forallb is_decimal g = true -> digit_run g = g.
Proof.
  induction g as [|c g IH]; [reflexivity|]. simpl. intros H.
  apply andb_true_iff in H. destruct H as [-> Hg]. simpl. f_equal. auto.
Qed.

Lemma digit_count_decimals g :
  forallb is_decimal g = true -> digit_count g = List.length g.
Proof.
  unfold digit_count. induction g as [|c g IH]; [reflexivity|]. simpl. intros H.
  apply andb_true_iff in H. destruct H as [-> Hg]. simpl. f_equal. auto.
Qed.

(** [int] of a non-empty string of decimal digits: the number the digits
    denote, which is not negative, unless there are more digits than the
    limit allows. *)
Lemma py_int_decimals g :
  g <> [] -> forallb is_decimal g = true ->
  py_int g = if overlong g then Raise (too_many_digits g)
             else Ok (Z.of_N (decimal_value g)).
Proof.
  intros Hne H. unfold py_int, overlong, too_many_digits.
  rewrite (int_strip_no_space g (decimals_no_space g H)).
  pose proof (unsigned_value_decimals g Hne H) as Hu.
  assert (Hpart : unsigned_part g = g).
  { destruct g as [|c g]; [congruence|]. simpl in H.
    apply andb_true_iff in H. destruct H as [Hc _].
    destruct (is_decimal_not_punct c Hc) as (Hm & Hp & _).
    unfold unsigned_part. rewrite Hm, Hp. reflexivity. }
  rewrite Hpart, (digit_run_decimals g H), Hu, (digit_count_decimals g H).
  destruct (int_max_str_digits <? List.length g); [reflexivity|].
  destruct g as [|c g]; [congruence|]. unfold signed_value.
  simpl in H. apply andb_true_iff in H. destruct H as [Hc _].
  destruct (is_decimal_not_punct c Hc) as (-> & -> & _).
  rewrite Hu. reflexivity.
Qed.

(** ** The first match decides [parse_log_line] *)

Lemma re_split_none p s : re_search p s = None -> re_split p s = [s].
Proof. unfold re_split. simpl. intros ->. reflexivity. Qed.

Lemma re_split_some p s m :
  re_search p s = Some m ->
  re_split p s =
  m_pre m :: m_groups m ++ re_split_fuel (List.length s) p (m_post m).
Proof. unfold re_split. simpl. intros ->. reflexivity. Qed.

(** A match of [log_pattern] has ten groups; the sixth is a non-empty
    string of digits and no group holds a newline. *)
Lemma log_pattern_groups t gs :
  matches log_pattern t gs ->
  exists g1 g2 g3 g4 g5 g6 g7 g8 g9 g10,
    gs = [g1; g2; g3; g4; g5; g6; g7; g8; g9; g10]
    /\ g1 <> [] /\ forallb (in_class NonSpace) g1 = true
    /\ forallb (in_class Dot) g4 = true
    /\ forallb (in_class Dot) g5 = true
    /\ g6 <> [] /\ forallb is_decimal g6 = true
    /\ forallb (in_class Dot) g9 = true.
Proof.
  unfold log_pattern. intros H.
  repeat match goal with
  | H : matches (_ :: _) _ _ |- _ => inversion H; clear H; subst
  | H : matches [] _ _ |- _ => inversion H; clear H; subst
  end.
  do 10 eexists. repeat split; eauto.
Qed.

Lemma re_search_empty : re_search log_pattern [] = None.
Proof. reflexivity. Qed.

Lemma parse_log_line_try_match line m :
  re_search log_pattern line = Some m ->
  parse_log_line_try line =
  if overlong (group 6 m) then Raise (too_many_digits (group 6 m))
  else Ok (if str_eqb (group 4 m) (lit "-") then None else Some (record_of_match m)).
Proof.
  intros Hs. destruct line as [|c line]; [rewrite re_search_empty in Hs; discriminate|].
  unfold parse_log_line_try. rewrite (re_split_some _ _ _ Hs).
  destruct (re_search_sound _ _ _ Hs) as (t & _ & Hm).
  destruct (log_pattern_groups _ _ Hm)
    as (g1 & g2 & g3 & g4 & g5 & g6 & g7 & g8 & g9 & g10 & Hg & _ & _ & _ & _ & Hne & Hd & _).
  unfold record_of_match, group. rewrite Hg. simpl.
  rewrite (py_int_decimals g6 Hne Hd).
  destruct (overlong g6); [reflexivity|]. simpl.
  destruct (str_eqb g4 (lit "-")); reflexivity.
Qed.

Lemma parse_log_line_try_no_match line :
  re_search log_pattern line = None -> parse_log_line_try line = Ok None.
Proof.
  intros Hs. destruct line as [|c line]; [reflexivity|].
  unfold parse_log_line_try. rewrite (re_split_none _ _ Hs). reflexivity.
Qed.

(** What [parse_log_line] returns, by the outcome of the search in the
    stripped line. *)
Lemma parse_log_line_match line m :
  re_search log_pattern (strip line) = Some m ->
  parse_log_line line =
  if overlong (group 6 m) then (None, [skipped line m])
  else (if str_eqb (group 4 m) (lit "-") then None else Some (record_of_match m), []).
Proof.
  intros Hs. unfold parse_log_line. rewrite (parse_log_line_try_match _ _ Hs).
  destruct (overlong (group 6 m)); reflexivity.
Qed.

Lemma parse_log_line_no_match line :
  re_search log_pattern (strip line) = None -> parse_log_line line = (None, []).
Proof.
  intros Hs. unfold parse_log_line. rewrite (parse_log_line_try_no_match _ Hs).
  reflexivity.
Qed.

Lemma str_eqb_eq a b : str_eqb a b = true <-> a = b.
Proof.
  unfold str_eqb. destruct (list_eq_dec N.eq_dec a b); split; congruence.
Qed.

(** A returned record comes from a match whose timestamp is not ["-"]
    and whose status is not too long; nothing is printed with it. *)
Lemma parse_log_line_some line r out :
  parse_log_line line = (Some r, out) ->
  exists m, re_search log_pattern (strip line) = Some m
            /\ group 4 m <> lit "-" /\ r = record_of_match m /\ out = []
            /\ overlong (group 6 m) = false.
Proof.
  intros H. destruct (re_search log_pattern (strip line)) as [m|] eqn:Hs.
  - rewrite (parse_log_line_match _ _ Hs) in H. exists m.
    destruct (overlong (group 6 m)); [discriminate|].
    destruct (str_eqb (group 4 m) (lit "-")) eqn:E; [discriminate|].
    inversion H; subst. repeat split; auto.
    intros Heq. apply str_eqb_eq in Heq. congruence.
  - rewrite (parse_log_line_no_match _ Hs) in H. discriminate.
Qed.

(** Something is printed exactly when the status of the match is too
    long, and then no record is returned. *)
Lemma parse_log_line_prints line e out :
  snd (parse_log_line line) = e :: out ->
  exists m, re_search log_pattern (strip line) = Some m
            /\ overlong (group 6 m) = true
            /\ e = skipped line m /\ out = []
            /\ fst (parse_log_line line) = None.
Proof.
  intros H. destruct (re_search log_pattern (strip line)) as [m|] eqn:Hs.
  - rewrite (parse_log_line_match _ _ Hs) in H |- *. exists m.
    destruct (overlong (group 6 m)); [|discriminate].
    simpl in H. inversion H; subst. auto.
  - rewrite (parse_log_line_no_match _ Hs) in H. discriminate.
Qed.

(** ** Counters and rankings *)

Section CountingFacts.

Context {K : Type} (K_eq_dec : forall x y : K, {x = y} + {x <> y}).

Local Abbreviation add := (counter_add K_eq_dec).
Local Abbreviation cnt := (count_of K_eq_dec).
Local Abbreviation Cnt := (Counter K_eq_dec).
Local Abbreviation fidx := (first_index K_eq_dec).

Lemma count_of_counter_add x y c :
  cnt x (add y c) = if K_eq_dec y x then S (cnt x c) else cnt x c.
Proof.
  induction c as [|[z n] c IH]; simpl.
  - destruct (K_eq_dec y x); reflexivity.
  - destruct (K_eq_dec z y) as [->|Hzy]; simpl.
    + destruct (K_eq_dec y x); reflexivity.
    + rewrite IH. destruct (K_eq_dec z x), (K_eq_dec y x); congruence.
Qed.

Lemma count_of_fold xs : forall c x,
  cnt x (fold_left (fun c x => add x c) xs c) = cnt x c + count_occ K_eq_dec xs x.
Proof.
  induction xs as [|y xs IH]; intros c x; simpl.
  - lia.
  - rewrite IH, count_of_counter_add. destruct (K_eq_dec y x); lia.
Qed.

(** A counter holds, for each key, the number of its occurrences. *)
Lemma count_of_Counter xs x : cnt x (Cnt xs) = count_occ K_eq_dec xs x.
Proof. unfold Counter. rewrite count_of_fold. reflexivity. Qed.

Lemma Counter_snoc xs x : Cnt (xs ++ [x]) = add x (Cnt xs).
Proof. unfold Counter. rewrite fold_left_app. reflexivity. Qed.

Lemma counter_add_keys_in y c :
  In y (map fst c) -> map fst (add y c) = map fst c.
Proof.
  induction c as [|[z n] c IH]; simpl; [tauto|]. intros H.
  destruct (K_eq_dec z y) as [->|Hzy]; simpl; [reflexivity|].
  rewrite IH; [reflexivity|]. destruct H; [congruence|assumption].
Qed.

Lemma counter_add_keys_notin y c :
  ~ In y (map fst c) -> map fst (add y c) = map fst c ++ [y].
Proof.
  induction c as [|[z n] c IH]; simpl; [reflexivity|]. intros H.
  destruct (K_eq_dec z y) as [->|Hzy]; [tauto|]. simpl.
  rewrite IH; [reflexivity|tauto].
Qed.

Lemma count_of_notin x c : ~ In x (map fst c) -> cnt x c = 0.
Proof.
  induction c as [|[z n] c IH]; simpl; [reflexivity|]. intros H.
  destruct (K_eq_dec z x); [tauto|]. apply IH. tauto.
Qed.

(** With distinct keys, an entry of the table is a key with its count. *)
Lemma in_table_iff c k n :
  NoDup (map fst c) ->
  (In (k, n) c <-> In k (map fst c) /\ cnt k c = n).
Proof.
  induction c as [|[z m] c IH]; simpl; [tauto|]. intros Hnd.
  inversion Hnd as [|? ? Hz Hc]; subst.
  destruct (K_eq_dec z k) as [->|Hzk].
  - split.
    + intros [H|H]; [inversion H; auto|].
      exfalso. apply Hz. apply (in_map fst) in H. exact H.
    + intros [_ ->]. auto.
  - rewrite (IH Hc). split.
    + intros [H|H]; [congruence|tauto].
    + intros [[H|H] Hn]; [congruence|tauto].
Qed.

Lemma first_index_in_app k xs ys :
  In k xs -> fidx k (xs ++ ys) = fidx k xs.
Proof.
  induction xs as [|y xs IH]; simpl; [tauto|]. intros H.
  destruct (K_eq_dec y k); [reflexivity|]. f_equal. apply IH.
  destruct H; [congruence|assumption].
Qed.

Lemma first_index_lt k xs : In k xs -> fidx k xs < List.length xs.
Proof.
  induction xs as [|y xs IH]; simpl; [tauto|]. intros H.
  destruct (K_eq_dec y k); [lia|]. apply -> Nat.succ_lt_mono. apply IH.
  destruct H; [congruence|assumption].
Qed.

Lemma first_index_notin_app k xs ys :
  ~ In k xs -> fidx k (xs ++ ys) = List.length xs + fidx k ys.
Proof.
  induction xs as [|y xs IH]; simpl; [reflexivity|]. intros H.
  destruct (K_eq_dec y k); [tauto|]. f_equal. apply IH. tauto.
Qed.

Lemma StronglySorted_impl_in {A} (R R' : A -> A -> Prop) l :
  (forall a b, In a l -> In b l -> R a b -> R' a b) ->
  StronglySorted R l -> StronglySorted R' l.
Proof.
  intros HR H. induction H as [|a l Hs IH Hf]; constructor.
  - apply IH. intros x y Hx Hy. apply HR; right; assumption.
  - rewrite Forall_forall in *. intros x Hx.
    apply HR; [left; reflexivity|right; exact Hx|apply Hf; exact Hx].
Qed.

Lemma StronglySorted_snoc {A} (R : A -> A -> Prop) l x :
  StronglySorted R l -> Forall (fun a => R a x) l -> StronglySorted R (l ++ [x]).
Proof.
  intros H Hx. induction H as [|a l Hs IH Hf]; simpl.
  - repeat constructor.
  - inversion Hx; subst. constructor; [apply IH; assumption|].
    apply Forall_app. split; [assumption|]. constructor; [assumption|constructor].
Qed.

Lemma StronglySorted_of_map {A B} (f : A -> B) (R : B -> B -> Prop) l :
  StronglySorted R (map f l) -> StronglySorted (fun a b => R (f a) (f b)) l.
Proof.
  induction l as [|a l IH]; simpl; intros H; [constructor|].
  inversion H; subst. constructor; [apply IH; assumption|].
  rewrite Forall_forall in *. intros x Hx.
  match goal with Hf : forall _, In _ (map f l) -> _ |- _ => apply Hf end.
  apply in_map. exact Hx.
Qed.

Lemma in_firstn {A} n (l : list A) x : In x (firstn n l) -> In x l.
Proof.
  intros H. rewrite <- (firstn_skipn n l). apply in_or_app. left. exact H.
Qed.

Lemma StronglySorted_firstn {A} (R : A -> A -> Prop) n l :
  StronglySorted R l -> StronglySorted R (firstn n l).
Proof.
  intros H. revert n. induction H as [|a l Hs IH Hf]; intros [|n]; simpl;
    try constructor.
  - apply IH.
  - rewrite Forall_forall in *. intros x Hx. apply Hf.
    eapply in_firstn; eauto.
Qed.

Lemma StronglySorted_app_cross {A} (R : A -> A -> Prop) l1 l2 :
  StronglySorted R (l1 ++ l2) ->
  forall a b, In a l1 -> In b l2 -> R a b.
Proof.
  induction l1 as [|x l1 IH]; simpl; intros H a b Ha Hb; [tauto|].
  inversion H as [|? ? Hs Hf]; subst. destruct Ha as [->|Ha].
  - rewrite Forall_forall in Hf. apply Hf. apply in_or_app. right. exact Hb.
  - apply IH; assumption.
Qed.

(** The keys of a counter are the values seen, each once, and their
    counts are positive. *)
Lemma Counter_keys xs :
  NoDup (map fst (Cnt xs)) /\ (forall k, In k (map fst (Cnt xs)) <-> In k xs).
Proof.
  induction xs as [|x xs [Hnd Hin]] using rev_ind.
  - split; [constructor|]. simpl. tauto.
  - rewrite Counter_snoc.
    destruct (in_dec K_eq_dec x (map fst (Cnt xs))) as [Hx|Hx].
    + rewrite (counter_add_keys_in _ _ Hx). split; [exact Hnd|].
      intros k. rewrite Hin, in_app_iff. simpl. split; [tauto|].
      intros [H|[<-|[]]]; [exact H|]. apply Hin. exact Hx.
    + rewrite (counter_add_keys_notin _ _ Hx). split.
      * apply (Permutation_NoDup (Permutation_cons_append _ _)).
        constructor; assumption.
      * intros k. rewrite !in_app_iff, Hin. tauto.
Qed.

Lemma Counter_entry xs k n :
  In (k, n) (Cnt xs) <-> In k xs /\ n = count_occ K_eq_dec xs k.
Proof.
  destruct (Counter_keys xs) as [Hnd Hin].
  rewrite (in_table_iff _ _ _ Hnd), Hin, count_of_Counter.
  split; intros [H1 H2]; auto.
Qed.

(** The keys of a counter are in the order they were first seen. *)
Lemma Counter_order xs :
  StronglySorted (fun a b => fidx a xs < fidx b xs) (map fst (Cnt xs)).
Proof.
  induction xs as [|x xs IH] using rev_ind; [constructor|].
  destruct (Counter_keys xs) as [Hnd Hin].
  assert (Hold : StronglySorted (fun a b => fidx a (xs ++ [x]) < fidx b (xs ++ [x]))
                   (map fst (Cnt xs))).
  { revert IH. apply StronglySorted_impl_in. intros a b Ha Hb.
    rewrite !first_index_in_app by (apply Hin; assumption). auto. }
  rewrite Counter_snoc.
  destruct (in_dec K_eq_dec x (map fst (Cnt xs))) as [Hx|Hx].
  - rewrite (counter_add_keys_in _ _ Hx). exact Hold.
  - rewrite (counter_add_keys_notin _ _ Hx).
    apply StronglySorted_snoc; [exact Hold|].
    rewrite Forall_forall. intros a Ha.
    assert (Hax : In a xs) by (apply Hin; exact Ha).
    assert (Hxx : ~ In x xs) by (intros H; apply Hx, Hin; exact H).
    rewrite (first_index_in_app _ _ _ Hax), (first_index_notin_app _ _ _ Hxx).
    pose proof (first_index_lt _ _ Hax). lia.
Qed.

Lemma insert_by_count_perm (x : K * nat) l :
  Permutation (insert_by_count x l) (x :: l).
Proof.
  induction l as [|y l IH]; simpl; [reflexivity|].
  destruct (snd x <? snd y); [|reflexivity].
  rewrite IH. apply perm_swap.
Qed.

Lemma sort_by_count_perm (l : list (K * nat)) : Permutation (sort_by_count l) l.
Proof.
  induction l as [|x l IH]; simpl; [reflexivity|].
  rewrite insert_by_count_perm. constructor. exact IH.
Qed.

(** The sort is stable: what was in order of first occurrence is, after
    the sort, in order of count and, at equal counts, of first
    occurrence. *)
Lemma insert_by_count_sorted xs (x : K * nat) l :
  StronglySorted (ranks_above K_eq_dec xs) l ->
  Forall (fun b => fidx (fst x) xs < fidx (fst b) xs) l ->
  StronglySorted (ranks_above K_eq_dec xs) (insert_by_count x l).
Proof.
  intros Hs Hx. induction Hs as [|y l Hs IH Hy]; simpl.
  - repeat constructor.
  - inversion Hx as [|? ? Hxy Hxl]; subst.
    destruct (Nat.ltb_spec (snd x) (snd y)) as [Hlt|Hge].
    + constructor; [apply IH; exact Hxl|].
      apply (Permutation_Forall (Permutation_sym (insert_by_count_perm x l))).
      constructor; [left; exact Hlt|exact Hy].
    + constructor; [constructor; assumption|].
      constructor.
      * unfold ranks_above. destruct (Nat.eq_dec (snd x) (snd y)); [right; auto|left; lia].
      * rewrite Forall_forall in *. intros z Hz.
        specialize (Hy z Hz). specialize (Hxl z Hz). unfold ranks_above in *.
        destruct (Nat.eq_dec (snd x) (snd z)); [right; auto|left; lia].
Qed.

Lemma sort_by_count_stable xs (l : list (K * nat)) :
  StronglySorted (fun a b => fidx (fst a) xs < fidx (fst b) xs) l ->
  StronglySorted (ranks_above K_eq_dec xs) (sort_by_count l).
Proof.
  intros H. induction H as [|x l Hs IH Hx]; simpl; [constructor|].
  apply insert_by_count_sorted; [exact IH|].
  apply (Permutation_Forall (Permutation_sym (sort_by_count_perm l))). exact Hx.
Qed.

Lemma table_total_perm (l l' : list (K * nat)) :
  Permutation l l' -> table_total l = table_total l'.
Proof.
  induction 1; simpl; lia.
Qed.

Lemma table_total_counter_add x c : table_total (add x c) = S (table_total c).
Proof.
  induction c as [|[z n] c IH]; simpl; [reflexivity|].
  destruct (K_eq_dec z x); simpl; [reflexivity|]. rewrite IH. lia.
Qed.

(** The counts of a counter add up to the number of values counted. *)
Lemma table_total_Counter xs : table_total (Cnt xs) = List.length xs.
Proof.
  induction xs as [|x xs IH] using rev_ind; [reflexivity|].
  rewrite Counter_snoc, table_total_counter_add, IH, length_app. simpl. lia.
Qed.

Lemma count_of_perm (l l' : list (K * nat)) x :
  NoDup (map fst l) -> Permutation l l' -> cnt x l = cnt x l'.
Proof.
  intros Hnd Hp.
  assert (Hnd' : NoDup (map fst l')).
  { eapply Permutation_NoDup; [apply Permutation_map; exact Hp|exact Hnd]. }
  destruct (in_dec K_eq_dec x (map fst l)) as [Hx|Hx].
  - assert (H : In (x, cnt x l) l) by (apply in_table_iff; auto).
    apply (Permutation_in _ Hp) in H. apply in_table_iff in H; [|exact Hnd'].
    symmetry. tauto.
  - rewrite (count_of_notin _ _ Hx). symmetry. apply count_of_notin.
    intros H. apply Hx.
    apply (Permutation_in _ (Permutation_sym (Permutation_map fst Hp))). exact H.
Qed.

Lemma count_occ_dropna (xs : list (option K)) (x : K)
    (O_eq_dec : forall a b : option K, {a = b} + {a <> b}) :
  count_occ K_eq_dec (dropna xs) x = count_occ O_eq_dec xs (Some x).
Proof.
  induction xs as [|[y|] xs IH]; simpl; auto.
  - destruct (K_eq_dec y x), (O_eq_dec (Some y) (Some x)); congruence.
  - destruct (O_eq_dec None (Some x)); [discriminate|exact IH].
Qed.

End CountingFacts.

(** ** One-minute bins and the peak *)

Lemma minute_floor_le a b : (a <= b)%Z -> (minute_floor a <= minute_floor b)%Z.
Proof.
  intros H. unfold minute_floor.
  apply Z.mul_le_mono_nonneg_l; [lia|]. apply Z.div_le_mono; lia.
Qed.


(** The bin of a datetime starts at most 59 seconds before it. *)
Lemma minute_floor_bounds t : (minute_floor t <= t < minute_floor t + 60)%Z.
Proof.
  unfold minute_floor. pose proof (Z.mod_pos_bound t 60).
  pose proof (Z.div_mod t 60). lia.
Qed.

Lemma z_min_list_le x l : (z_min_list x l <= x)%Z /\ Forall (fun y => z_min_list x l <= y)%Z l.
Proof.
  induction l as [|y l [IH1 IH2]]; simpl; [split; [lia|constructor]|].
  split; [lia|]. constructor; [lia|].
  revert IH2. apply Forall_impl. intros z Hz. lia.
Qed.

Lemma z_max_list_ge x l : (x <= z_max_list x l)%Z /\ Forall (fun y => y <= z_max_list x l)%Z l.
Proof.
  induction l as [|y l [IH1 IH2]]; simpl; [split; [lia|constructor]|].
  split; [lia|]. constructor; [lia|].
  revert IH2. apply Forall_impl. intros z Hz. lia.
Qed.

Lemma StronglySorted_map_seq {B} (R : B -> B -> Prop) (f : nat -> B) :
  (forall i j, i < j -> R (f i) (f j)) ->
  forall n a, StronglySorted R (map f (seq a n)).
Proof.
  intros Hf. induction n as [|n IH]; intros a; simpl; constructor.
  - apply IH.
  - rewrite Forall_forall. intros y Hy. apply in_map_iff in Hy.
    destruct Hy as (j & <- & Hj). apply in_seq in Hj. apply Hf. lia.
Qed.

(** The rows of the resampled series: the minutes from the first bin to the
    last one, each with the number of datetimes in it. *)
Lemma requests_per_minute_rows t ts b n :
  In (b, n) (requests_per_minute (t :: ts)) <->
  exists i : nat,
    (Z.of_nat i <= z_max_list t ts / 60 - z_min_list t ts / 60)%Z
    /\ b = (60 * (z_min_list t ts / 60 + Z.of_nat i))%Z
    /\ n = count_in_bin b (t :: ts).
Proof.
  unfold requests_per_minute.
  set (klo := (z_min_list t ts / 60)%Z). set (khi := (z_max_list t ts / 60)%Z).
  assert (Hspan : ((minute_floor (z_max_list t ts) - minute_floor (z_min_list t ts)) / 60
                   = khi - klo)%Z).
  { unfold minute_floor. fold klo khi.
    replace (60 * khi - 60 * klo)%Z with ((khi - klo) * 60)%Z by lia.
    apply Z.div_mul. lia. }
  assert (Hle : (klo <= khi)%Z).
  { unfold klo, khi. apply Z.div_le_mono; [lia|].
    pose proof (proj1 (z_min_list_le t ts)). pose proof (proj1 (z_max_list_ge t ts)). lia. }
  rewrite Hspan, in_map_iff. unfold minute_floor at 1 2. fold klo. split.
  - intros (i & Hi & Hin). apply in_seq in Hin.
    apply pair_equal_spec in Hi. destruct Hi as [<- <-].
    exists i. repeat split; try lia.
  - intros (i & Hi & -> & ->). exists i. split.
    + f_equal; [lia|]. f_equal. lia.
    + apply in_seq. lia.
Qed.

Lemma requests_per_minute_sorted ts :
  StronglySorted (fun a b => (fst a < fst b)%Z) (requests_per_minute ts).
Proof.
  destruct ts as [|t ts]; [constructor|]. unfold requests_per_minute.
  apply StronglySorted_map_seq. intros i j Hij. cbv beta zeta. cbn [fst]. lia.
Qed.

(** Every datetime is counted in the row of its minute. *)
Lemma requests_per_minute_covers ts t :
  In t ts ->
  In (minute_floor t, count_in_bin (minute_floor t) ts) (requests_per_minute ts).
Proof.
  destruct ts as [|t0 ts]; [simpl; tauto|]. intros Hin.
  apply requests_per_minute_rows.
  assert (Hlo : (z_min_list t0 ts <= t)%Z).
  { destruct (z_min_list_le t0 ts) as [H1 H2]. destruct Hin as [<-|Hin]; [exact H1|].
    rewrite Forall_forall in H2. apply H2. exact Hin. }
  assert (Hhi : (t <= z_max_list t0 ts)%Z).
  { destruct (z_max_list_ge t0 ts) as [H1 H2]. destruct Hin as [<-|Hin]; [exact H1|].
    rewrite Forall_forall in H2. apply H2. exact Hin. }
  pose proof (Z.div_le_mono _ _ 60 ltac:(lia) Hlo).
  pose proof (Z.div_le_mono _ _ 60 ltac:(lia) Hhi).
  exists (Z.to_nat (t / 60 - z_min_list t0 ts / 60)).
  repeat split; try lia. unfold minute_floor. f_equal. lia.
Qed.

Lemma series_max_ge s e : In e s -> snd e <= series_max s.
Proof.
  unfold series_max. induction s as [|x s IH]; simpl; [tauto|].
  intros [<-|H]; [lia|]. specialize (IH H). lia.
Qed.

(** [idxmax] returns the first row that holds the maximum. *)
Lemma idxmax_first s :
  s <> [] ->
  exists p before after,
    idxmax s = Ok p /\ s = before ++ (p, series_max s) :: after
    /\ Forall (fun e => snd e < series_max s) before.
Proof.
  induction s as [|[b n] s IH]; [congruence|]. intros _. simpl.
  change (series_max ((b, n) :: s)) with (Nat.max n (series_max s)).
  destruct (Nat.ltb_spec n (series_max s)) as [Hlt|Hge].
  - destruct s as [|e s]; [unfold series_max in Hlt; simpl in Hlt; lia|].
    destruct IH as (p & before & after & Hp & Hs & Hb); [discriminate|].
    exists p, ((b, n) :: before), after.
    rewrite Nat.max_r by lia. split; [exact Hp|]. split.
    + simpl. f_equal. exact Hs.
    + constructor; [exact Hlt|exact Hb].
  - exists b, [], s. rewrite Nat.max_l by lia. repeat split. constructor.
Qed.

(** ** The properties of [parse_log_line] *)

Lemma group_of_match m t :
  matches log_pattern t (m_groups m) ->
  group 6 m <> [] /\ forallb is_decimal (group 6 m) = true
  /\ forallb (in_class Dot) (group 4 m) = true.
Proof.
  intros Hm.
  destruct (log_pattern_groups _ _ Hm)
    as (g1 & g2 & g3 & g4 & g5 & g6 & g7 & g8 & g9 & g10 & Hg & _ & _ & H4 & _ & Hne & Hd & _).
  unfold group. rewrite Hg. simpl. auto.
Qed.

(** A text that is an instance of the grammar as a whole is matched at
    its start. *)
Lemma re_search_at_start p t gs :
  matches p t gs -> exists m, re_search p t = Some m /\ m_pre m = [].
Proof.
  intros Hm.
  destruct (match_k_complete _ _ _ Hm _ (fun r => Some r) [] [] eq_refl)
    as (gs' & r' & H).
  rewrite app_nil_r in H. rewrite re_search_unfold. unfold match_here.
  rewrite H. eexists. split; reflexivity.
Qed.

Lemma overlong_false g : List.length g <= int_max_str_digits -> overlong g = false.
Proof. intros H. apply Nat.ltb_ge. exact H. Qed.

Lemma overlong_true g : int_max_str_digits < List.length g -> overlong g = true.
Proof. intros H. apply Nat.ltb_lt. exact H. Qed.

(** [int] on the status group of a match *)
Lemma py_int_status line m :
  re_search log_pattern line = Some m ->
  py_int (group 6 m) = if overlong (group 6 m) then Raise (too_many_digits (group 6 m))
                       else Ok (Z.of_N (decimal_value (group 6 m))).
Proof.
  intros Hs. destruct (re_search_sound _ _ _ Hs) as (t & _ & Hm).
  destruct (group_of_match _ _ Hm) as (Hne & Hd & _).
  apply py_int_decimals; assumption.
Qed.

(** C1, as the code has it: for every line in which the grammar is found
    (and it is found, at the very start, in every line whose stripped
    form is an instance of the grammar), whose timestamp group is not
    ["-"] and whose status group has no more digits than [int] accepts,
    [parse_log_line] returns the record made of the groups 1, 4, 5, 6
    and 9 of the match, the status being [int] of group 6, which is the
    number its digits denote; nothing is printed. *)
Theorem parse_log_line_fields line :
  (forall m,
     re_search log_pattern (strip line) = Some m ->
     group 4 m <> lit "-" ->
     List.length (group 6 m) <= int_max_str_digits ->
     exists z,
       py_int (group 6 m) = Ok z /\ z = Z.of_N (decimal_value (group 6 m))
       /\ parse_log_line line =
          (Some {| ip := group 1 m; timestamp := group 4 m; request := group 5 m;
                   status := z; user_agent := group 9 m |}, []))
  /\ (forall gs,
        matches log_pattern (strip line) gs ->
        exists m, re_search log_pattern (strip line) = Some m /\ m_pre m = []).
Proof.
  split.
  - intros m Hs Hts Hlen. exists (Z.of_N (decimal_value (group 6 m))).
    apply overlong_false in Hlen.
    split; [rewrite (py_int_status _ _ Hs), Hlen; reflexivity|].
    split; [reflexivity|].
    rewrite (parse_log_line_match _ _ Hs), Hlen.
    destruct (str_eqb (group 4 m) (lit "-")) eqn:E; [|reflexivity].
    apply str_eqb_eq in E. congruence.
  - intros gs Hm. exact (re_search_at_start _ _ _ Hm).
Qed.

(** C2, as the code has it: a record is returned only if the stripped
    line contains an instance of the grammar, text before and after it
    being ignored, and then all five fields come from that one instance;
    a line whose stripped form contains no instance gives no record and
    no output; and whenever an instance is contained, the leftmost match
    alone decides between a full record and none: none, with a
    diagnostic, when its status is too long for [int]; otherwise none
    when its timestamp is ["-"], and else the record of its groups. *)
Theorem parse_log_line_accepts_occurrence line :
  (forall r out, parse_log_line line = (Some r, out) ->
     exists pre t post gs,
       strip line = pre ++ t ++ post /\ matches log_pattern t gs
       /\ r = {| ip := nth 0 gs []; timestamp := nth 3 gs [];
                 request := nth 4 gs [];
                 status := Z.of_N (decimal_value (nth 5 gs []));
                 user_agent := nth 8 gs [] |})
  /\ (~ occurs_in log_pattern (strip line) -> parse_log_line line = (None, []))
  /\ (occurs_in log_pattern (strip line) ->
      exists m, re_search log_pattern (strip line) = Some m
        /\ parse_log_line line =
           if overlong (group 6 m) then (None, [skipped line m])
           else (if str_eqb (group 4 m) (lit "-") then None
                 else Some (record_of_match m), [])).
Proof.
  split; [|split].
  - intros r out H.
    destruct (parse_log_line_some _ _ _ H) as (m & Hs & _ & -> & _).
    destruct (re_search_sound _ _ _ Hs) as (t & Ht & Hm).
    exists (m_pre m), t, (m_post m), (m_groups m). auto.
  - intros Hn. apply parse_log_line_no_match. apply re_search_none. exact Hn.
  - intros Ho. destruct (re_search_complete _ _ Ho) as [m Hs].
    exists m. split; [exact Hs|]. apply parse_log_line_match. exact Hs.
Qed.


(** C9, as the code has it: the timestamp of a returned record is the
    bracketed text of the match, which holds no newline and is never the
    placeholder ["-"]; its layout is not checked. *)
Theorem record_timestamp_not_placeholder line r out :
  parse_log_line line = (Some r, out) ->
  timestamp r <> lit "-"
  /\ forallb (in_class Dot) (timestamp r) = true
  /\ exists m, re_search log_pattern (strip line) = Some m
               /\ timestamp r = group 4 m.
Proof.
  intros H. destruct (parse_log_line_some _ _ _ H) as (m & Hs & Hts & -> & _).
  destruct (re_search_sound _ _ _ Hs) as (t & _ & Hm).
  destruct (group_of_match _ _ Hm) as (_ & _ & H4).
  simpl. repeat split; auto. exists m. auto.
Qed.

(** C10, as the code has it: the status group of every match is a
    non-empty string of decimal digits; [int] of it succeeds, with a
    value that is not negative, when it has no more digits than [int]
    accepts, and raises otherwise, in which case no record is returned;
    so the status of every returned record is a nonnegative integer. *)
Theorem record_status_nonnegative line :
  (forall m, re_search log_pattern (strip line) = Some m ->
     group 6 m <> [] /\ forallb is_decimal (group 6 m) = true
     /\ (List.length (group 6 m) <= int_max_str_digits ->
         exists z, py_int (group 6 m) = Ok z /\ (0 <= z)%Z)
     /\ (int_max_str_digits < List.length (group 6 m) ->
         py_int (group 6 m) = Raise (too_many_digits (group 6 m))
         /\ fst (parse_log_line line) = None))
  /\ (forall r out, parse_log_line line = (Some r, out) -> (0 <= status r)%Z).
Proof.
  split.
  - intros m Hs. destruct (re_search_sound _ _ _ Hs) as (t & _ & Hm).
    destruct (group_of_match _ _ Hm) as (Hne & Hd & _).
    split; [exact Hne|]. split; [exact Hd|]. split.
    + intros Hlen. exists (Z.of_N (decimal_value (group 6 m))).
      rewrite (py_int_status _ _ Hs), (overlong_false _ Hlen).
      split; [reflexivity|apply N2Z.is_nonneg].
    + intros Hlen. apply overlong_true in Hlen.
      rewrite (py_int_status _ _ Hs), (parse_log_line_match _ _ Hs), Hlen.
      split; reflexivity.
  - intros r out H. destruct (parse_log_line_some _ _ _ H) as (m & _ & _ & -> & _).
    simpl. apply N2Z.is_nonneg.
Qed.

(** ** The properties of the aggregator *)

Section ValueCountsFacts.

Context {K : Type} (K_eq_dec : forall x y : K, {x = y} + {x <> y}).

(** [value_counts] gives each present value its number of occurrences,
    and its counts add up to the number of present values. *)
Lemma value_counts_count (xs : list (option K)) x :
  count_of K_eq_dec x (value_counts K_eq_dec xs)
  = count_occ K_eq_dec (dropna xs) x.
Proof.
  unfold value_counts. rewrite <- count_of_Counter.
  symmetry. apply count_of_perm.
  - apply Counter_keys.
  - apply Permutation_sym, sort_by_count_perm.
Qed.

Lemma value_counts_total (xs : list (option K)) :
  table_total (value_counts K_eq_dec xs) = List.length (dropna xs).
Proof.
  unfold value_counts.
  rewrite (table_total_perm _ _ (sort_by_count_perm _)).
  apply table_total_Counter.
Qed.

Lemma length_dropna_map {A} (f : A -> option K) l :
  List.length (dropna (map f l))
  = List.length (filter (fun a => match f a with Some _ => true | None => false end) l).
Proof.
  induction l as [|a l IH]; simpl; [reflexivity|].
  destruct (f a); simpl; auto.
Qed.

Lemma dropna_map_Some {A} (f : A -> K) l :
  dropna (map (fun a => Some (f a)) l) = map f l.
Proof. induction l as [|a l IH]; simpl; [reflexivity|]. f_equal. exact IH. Qed.

Lemma in_dropna (xs : list (option K)) k : In k (dropna xs) <-> In (Some k) xs.
Proof.
  induction xs as [|[y|] xs IH]; simpl; [tauto| |].
  - rewrite IH. split; [intros [->|H]; auto|intros [H|H]; [inversion H|]; auto].
  - rewrite IH. split; [auto|intros [H|H]; [discriminate|auto]].
Qed.

(** A table of [value_counts] cut by [head(n)]: it has [n] rows at most,
    each a present value with the number of its occurrences; a value
    that is cut occurs no more often than any value that is kept; and
    nothing is cut from a table of [n] rows or fewer. *)
Lemma value_counts_head (xs : list (option K)) n :
  let shown := firstn n (value_counts K_eq_dec xs) in
  List.length shown <= n
  /\ (forall k c, In (k, c) shown ->
        c = count_occ K_eq_dec (dropna xs) k /\ 0 < c)
  /\ (forall k, In k (dropna xs) ->
        In (k, count_occ K_eq_dec (dropna xs) k) shown
        \/ (List.length shown = n
            /\ forall q c, In (q, c) shown -> count_occ K_eq_dec (dropna xs) k <= c))
  /\ (List.length (value_counts K_eq_dec xs) <= n -> shown = value_counts K_eq_dec xs).
Proof.
  intros shown. unfold value_counts in *.
  set (table := sort_by_count (Counter K_eq_dec (dropna xs))) in *.
  assert (Hperm : Permutation table (Counter K_eq_dec (dropna xs)))
    by apply sort_by_count_perm.
  assert (Hsorted : StronglySorted (fun a b => snd b <= snd a) table).
  { apply (StronglySorted_impl_in (ranks_above K_eq_dec (dropna xs))).
    - intros a b _ _ [H|[H _]]; lia.
    - apply sort_by_count_stable.
      apply (StronglySorted_of_map fst
               (fun a b => first_index K_eq_dec a (dropna xs)
                           < first_index K_eq_dec b (dropna xs))).
      apply Counter_order. }
  split; [apply firstn_le_length|]. split; [|split].
  - intros k c H. apply in_firstn in H. apply (Permutation_in _ Hperm) in H.
    apply Counter_entry in H. destruct H as [Hk ->]. split; [reflexivity|].
    apply count_occ_In. exact Hk.
  - intros k Hk.
    assert (H : In (k, count_occ K_eq_dec (dropna xs) k) table).
    { apply (Permutation_in _ (Permutation_sym Hperm)). apply Counter_entry. auto. }
    rewrite <- (firstn_skipn n table) in H. apply in_app_or in H.
    destruct H as [H|H]; [left; exact H|right]. split.
    + unfold shown. rewrite length_firstn. apply Nat.min_l.
      destruct (Nat.le_gt_cases n (List.length table)) as [Hl|Hl]; [exact Hl|].
      rewrite skipn_all2 in H by lia. destruct H.
    + intros q c Hq. rewrite <- (firstn_skipn n table) in Hsorted.
      exact (StronglySorted_app_cross _ _ _ Hsorted (q, c) _ Hq H).
  - intros Hl. apply firstn_all2. exact Hl.
Qed.

End ValueCountsFacts.

(** C4, as the code has it: the status table counts every record; the
    method table and the path table count the records whose request has
    a first, respectively a second, token, each under its value, and
    leave the others out: there is no category for an absent value.
    The method table and the status table are written as they are; the
    path table is cut to its first ten rows before it is written.  What
    is written has ten rows at most, each a path with the number of the
    records that have it; a path that is left out has no more records
    than any path that is shown, and no path is left out when there are
    ten or fewer. *)
Theorem frequency_tables_count_present logs :
  (forall m, count_of str_eq_dec m (method_counts logs)
             = count_occ opt_str_eq_dec (map method logs) (Some m))
  /\ table_total (method_counts logs) = List.length (filter has_method logs)
  /\ (forall p, count_of str_eq_dec p (path_counts logs)
                = count_occ opt_str_eq_dec (map path logs) (Some p))
  /\ table_total (path_counts logs) = List.length (filter has_path logs)
  /\ (forall c, count_of Z.eq_dec c (status_counts logs)
                = count_occ Z.eq_dec (map status logs) c)
  /\ table_total (status_counts logs) = List.length logs
  /\ (let shown := firstn 10 (path_counts logs) in
      In (HttpMethods (method_counts logs)) (traffic_report logs)
      /\ In (TopRequestedPaths shown) (traffic_report logs)
      /\ In (HttpStatusCodes (status_counts logs)) (traffic_report logs)
      /\ List.length shown <= 10
      /\ (forall p n, In (p, n) shown ->
            n = count_occ opt_str_eq_dec (map path logs) (Some p) /\ 0 < n)
      /\ (forall p, In (Some p) (map path logs) ->
            In (p, count_occ opt_str_eq_dec (map path logs) (Some p)) shown
            \/ (List.length shown = 10
                /\ forall q n, In (q, n) shown ->
                     count_occ opt_str_eq_dec (map path logs) (Some p) <= n))
      /\ (List.length (path_counts logs) <= 10 -> shown = path_counts logs)).
Proof.
  split; [|split; [|split; [|split; [|split; [|split]]]]].
  - intros m. unfold method_counts. rewrite value_counts_count. apply count_occ_dropna.
  - unfold method_counts. rewrite value_counts_total. apply length_dropna_map.
  - intros q. unfold path_counts. rewrite value_counts_count. apply count_occ_dropna.
  - unfold path_counts. rewrite value_counts_total. apply length_dropna_map.
  - intros c. unfold status_counts.
    rewrite value_counts_count, dropna_map_Some. reflexivity.
  - unfold status_counts. rewrite value_counts_total, dropna_map_Some. apply length_map.
  - cbv zeta.
    assert (Hin : forall e,
              In e [PotentialBotTraffic (List.length (filter is_bot logs)) (List.length logs);
                    HttpMethods (method_counts logs);
                    TopRequestedPaths (firstn 10 (path_counts logs));
                    HttpStatusCodes (status_counts logs)] ->
              In e (traffic_report logs)).
    { intros e He. unfold traffic_report. apply in_or_app. right.
      apply in_or_app. right. exact He. }
    split; [apply Hin; simpl; tauto|]. split; [apply Hin; simpl; tauto|].
    split; [apply Hin; simpl; tauto|].
    destruct (value_counts_head str_eq_dec (map path logs) 10) as (H1 & H2 & H3 & H4).
    fold (path_counts logs) in H1, H2, H3, H4.
    split; [exact H1|]. split; [|split; [|exact H4]].
    + intros q n Hq. destruct (H2 q n Hq) as [-> Hpos].
      rewrite (count_occ_dropna _ _ _ opt_str_eq_dec) in *. auto.
    + intros q Hq. apply in_dropna in Hq. specialize (H3 q Hq).
      rewrite (count_occ_dropna _ _ _ opt_str_eq_dec) in H3. exact H3.
Qed.

(** C5: the ranking of the ten most frequent IPs is in descending order
    of count and, at equal counts, in the order in which the IPs first
    occur in the input; each entry is an IP of the input with its number
    of requests, and an IP that is left out is ranked below all ten.
    With A and B five times each, A first seen before B, and C three
    times, the ranking is A, B, C. *)
Theorem top_ips_ranking logs :
  let ips := map ip logs in
  StronglySorted (ranks_above str_eq_dec ips) (top_ips logs)
  /\ (forall k n, In (k, n) (top_ips logs) ->
                  In k ips /\ n = count_occ str_eq_dec ips k)
  /\ (forall k, In k ips ->
        In (k, count_occ str_eq_dec ips k) (top_ips logs)
        \/ (List.length (top_ips logs) = 10
            /\ forall a, In a (top_ips logs) ->
                 ranks_above str_eq_dec ips a (k, count_occ str_eq_dec ips k)))
  /\ top_ips ranking_logs = [(lit "A", 5); (lit "B", 5); (lit "C", 3)].
Proof.
  intros ips. unfold top_ips, most_common, ip_counts. fold ips.
  set (sorted := sort_by_count (Counter str_eq_dec ips)).
  assert (Hsorted : StronglySorted (ranks_above str_eq_dec ips) sorted).
  { apply sort_by_count_stable.
    apply (StronglySorted_of_map fst
             (fun a b => first_index str_eq_dec a ips < first_index str_eq_dec b ips)).
    apply Counter_order. }
  assert (Hperm : Permutation sorted (Counter str_eq_dec ips))
    by apply sort_by_count_perm.
  split; [|split; [|split]].
  - apply StronglySorted_firstn. exact Hsorted.
  - intros k n H. apply in_firstn in H. apply (Permutation_in _ Hperm) in H.
    apply Counter_entry in H. exact H.
  - intros k Hk.
    assert (H : In (k, count_occ str_eq_dec ips k) sorted).
    { apply (Permutation_in _ (Permutation_sym Hperm)). apply Counter_entry. auto. }
    rewrite <- (firstn_skipn 10 sorted) in H. apply in_app_or in H.
    destruct H as [H|H]; [left; exact H|right]. split.
    + rewrite length_firstn. apply Nat.min_l.
      destruct (Nat.le_gt_cases 10 (List.length sorted)) as [Hl|Hl]; [exact Hl|].
      rewrite skipn_all2 in H by lia. destruct H.
    + intros a Ha. rewrite <- (firstn_skipn 10 sorted) in Hsorted.
      exact (StronglySorted_app_cross _ _ _ Hsorted a _ Ha H).
  - vm_compute. reflexivity.
Qed.

(** ** The properties of the time series *)

Lemma requests_per_minute_nonempty t ts : requests_per_minute (t :: ts) <> [].
Proof. unfold requests_per_minute. simpl seq. simpl map. discriminate. Qed.


(** ** The run *)

(** More fuel does not change [re.split]: a match of [log_pattern] is
    never empty, so the text after it is shorter. *)
Lemma matches_log_pattern_nonempty t gs : matches log_pattern t gs -> t <> [].
Proof.
  unfold log_pattern. intros H. inversion H; subst.
  destruct g; [congruence|discriminate].
Qed.

Lemma re_split_fuel_enough : forall n m s,
  List.length s < n -> List.length s < m ->
  re_split_fuel n log_pattern s = re_split_fuel m log_pattern s.
Proof.
  induction n as [|n IH]; intros m s Hn Hm; [lia|].
  destruct m as [|m]; [lia|]. simpl.
  destruct (re_search log_pattern s) as [mt|] eqn:Hs; [|reflexivity].
  destruct (re_search_sound _ _ _ Hs) as (t & Ht & Hmt).
  apply matches_log_pattern_nonempty in Hmt.
  assert (List.length (m_post mt) < List.length s).
  { rewrite Ht, !length_app. destruct t; [congruence|simpl; lia]. }
  f_equal. f_equal. apply IH; lia.
Qed.

(** *** The decoders *)

Ltac decode_cases :=
  repeat match goal with
  | |- context [match ?l with [] => _ | _ :: _ => _ end] => is_var l; destruct l
  | |- context [if ?c then _ else _] => destruct c
  end.

(** Reading with [errors='replace'] never fails. *)
Lemma utf8_decode_replace_total : forall n bs pos,
  List.length bs <= n -> exists t, utf8_decode true true pos bs = Ok t.
Proof.
  induction n as [|n IH]; intros bs pos Hn.
  - destruct bs; [|simpl in Hn; lia]. eexists. reflexivity.
  - destruct bs as [|b0 r0]; [eexists; reflexivity|].
    cbn [utf8_decode]. unfold truncated, ill_formed, emit.
    decode_cases;
    try (eexists; reflexivity);
    match goal with
    | |- context [utf8_decode true true ?p ?r] =>
        destruct (IH r p) as [t Ht]; [simpl in *; lia|]; rewrite Ht; simpl; eauto
    end.
Qed.

Lemma utf8_decode_strict_replace : forall n bs pos t,
  List.length bs <= n ->
  utf8_decode false true pos bs = Ok t -> utf8_decode true true pos bs = Ok t.
Proof.
  induction n as [|n IH]; intros bs pos t Hn H.
  - destruct bs; [exact H|simpl in Hn; lia].
  - destruct bs as [|b0 r0]; [exact H|].
    cbn [utf8_decode] in *. unfold truncated, ill_formed, emit in *.
    cbn [negb andb] in *.
    decode_cases;
    try discriminate H; try exact H;
    match goal with
    | H : bind (utf8_decode false true ?p ?r) _ = Ok _ |- _ =>
        destruct (utf8_decode false true p r) as [t'|] eqn:E; [|discriminate H];
        rewrite (IH r p t') by (simpl in *; lia || exact E); exact H
    end.
Qed.


Lemma utf8_decode_ascii mode final : forall bs pos,
  forallb (fun b => (Byte.to_N b <? 128)%N) bs = true ->
  utf8_decode mode final pos bs = Ok (map Byte.to_N bs, []).
Proof.
  induction bs as [|b bs IH]; intros pos H; [reflexivity|].
  cbn [forallb] in H. apply andb_true_iff in H. destruct H as [Hb Hbs].
  cbn [utf8_decode]. change 0x80%N with 128%N. rewrite Hb.
  unfold emit. rewrite (IH _ Hbs). reflexivity.
Qed.

(** A final decoding keeps nothing back. *)
Lemma utf8_decode_final_kept mode : forall n bs pos t h,
  List.length bs <= n ->
  utf8_decode mode true pos bs = Ok (t, h) -> h = [].
Proof.
  induction n as [|n IH]; intros bs pos t h Hn H.
  - destruct bs; [inversion H; reflexivity|simpl in Hn; lia].
  - destruct bs as [|b0 r0]; [inversion H; reflexivity|].
    cbn [utf8_decode] in H. unfold truncated, ill_formed, emit in H.
    cbn [negb andb] in H.
    repeat match type of H with
    | context [match ?l with [] => _ | _ :: _ => _ end] => is_var l; destruct l
    | context [if ?c then _ else _] => is_var c; destruct c
    | context [if ?c then _ else _] => destruct c eqn:?
    end;
    try discriminate H; try (inversion H; reflexivity);
    match type of H with
    | bind (utf8_decode ?m true ?p ?r) _ = Ok _ =>
        destruct (utf8_decode m true p r) as [[t' h']|e'] eqn:E; [|discriminate H];
        simpl in H; inversion H; subst; apply (IH r p t'); [simpl in *; lia|exact E]
    end.
Qed.

(** Where the decoding starts to count does not matter when it succeeds. *)
Lemma utf8_decode_pos final : forall n bs pos pos' x,
  List.length bs <= n ->
  utf8_decode false final pos bs = Ok x -> utf8_decode false final pos' bs = Ok x.
Proof.
  induction n as [|n IH]; intros bs pos pos' x Hn H.
  - destruct bs; [exact H|simpl in Hn; lia].
  - destruct bs as [|b0 r0]; [exact H|].
    cbn [utf8_decode] in *. unfold truncated, ill_formed, emit in *.
    decode_cases;
    try discriminate H; try exact H;
    match goal with
    | H : bind (utf8_decode false final ?p ?r) _ = Ok _ |- _ =>
        destruct (utf8_decode false final p r) as [t'|] eqn:E; [|discriminate H];
        match goal with
        | |- bind (utf8_decode false final ?p' r) _ = _ =>
            rewrite (IH r p p' t') by (simpl in *; lia || exact E); exact H
        end
    end.
Qed.

Lemma decode_in_two_kept final pos (a b : list Byte.byte) x :
  utf8_decode false final pos (a ++ b) = Ok x ->
  match utf8_decode false final 0 (a ++ b) with
  | Ok x1 => x = ([] ++ fst x1, snd x1)
  | Raise _ => False
  end.
Proof.
  intros H. rewrite (utf8_decode_pos final _ _ pos 0 x (le_n _) H).
  destruct x; reflexivity.
Qed.

Lemma decode_in_two_step final (c : char) p p' (r b : list Byte.byte) x :
  (forall y, utf8_decode false final p (r ++ b) = Ok y -> decode_in_two final p' r b y) ->
  bind (utf8_decode false final p (r ++ b)) (fun t => Ok (c :: fst t, snd t)) = Ok x ->
  match bind (utf8_decode false false p' r) (fun t => Ok (c :: fst t, snd t)) with
  | Ok (t1, h1) =>
      match utf8_decode false final 0 (h1 ++ b) with
      | Ok x1 => x = (t1 ++ fst x1, snd x1)
      | Raise _ => False
      end
  | Raise _ => False
  end.
Proof.
  intros IH H.
  destruct (utf8_decode false final p (r ++ b)) as [y|] eqn:E; [|discriminate H].
  specialize (IH y eq_refl). unfold decode_in_two in IH.
  destruct (utf8_decode false false p' r) as [[t1 h1]|]; [|contradiction].
  simpl. destruct (utf8_decode false final 0 (h1 ++ b)) as [x1|]; [|contradiction].
  simpl in H. inversion H. subst. reflexivity.
Qed.

Lemma utf8_decode_in_two final : forall n a b pos x,
  List.length a <= n ->
  utf8_decode false final pos (a ++ b) = Ok x -> decode_in_two final pos a b x.
Proof.
  induction n as [|n IH]; intros a b pos x Hn H.
  - destruct a; [|simpl in Hn; lia]. unfold decode_in_two. simpl in *.
    rewrite (utf8_decode_pos final _ _ pos 0 x (le_n _) H). destruct x; reflexivity.
  - destruct a as [|b0 r0].
    { unfold decode_in_two. simpl in *.
      rewrite (utf8_decode_pos final _ _ pos 0 x (le_n _) H). destruct x; reflexivity. }
    pose proof (decode_in_two_kept final pos _ _ _ H) as Hkept.
    assert (IH' : forall r p p' y, List.length r <= n ->
              utf8_decode false final p (r ++ b) = Ok y -> decode_in_two final p' r b y).
    { intros r p p' y Hr Hy. apply IH; [exact Hr|].
      exact (utf8_decode_pos final _ _ p p' y (le_n _) Hy). }
    clear IH. unfold decode_in_two.
    change ((b0 :: r0) ++ b) with (b0 :: (r0 ++ b)) in H.
    cbn [utf8_decode] in H |- *.
    destruct (Byte.to_N b0 <? 0x80)%N.
    { apply (decode_in_two_step final _ _ _ _ _ _ (fun y => IH' r0 _ _ y ltac:(simpl in Hn; lia)) H). }
    destruct (Byte.to_N b0 <? 0xC2)%N; [discriminate H|].
    destruct (Byte.to_N b0 <? 0xE0)%N.
    { destruct r0 as [|b1 r1]; [exact Hkept|].
      change ((b1 :: r1) ++ b) with (b1 :: (r1 ++ b)) in H.
      cbv iota beta in H |- *.
      destruct (is_cont (Byte.to_N b1)); [|discriminate H].
      apply (decode_in_two_step final _ _ _ _ _ _ (fun y => IH' r1 _ _ y ltac:(simpl in Hn; lia)) H). }
    destruct (Byte.to_N b0 <? 0xF0)%N.
    { destruct r0 as [|b1 r1]; [exact Hkept|].
      change ((b1 :: r1) ++ b) with (b1 :: (r1 ++ b)) in H.
      cbv iota beta in H |- *.
      destruct (is_cont (Byte.to_N b1)
                && negb ((Byte.to_N b0 =? 0xE0) && (Byte.to_N b1 <? 0xA0))%N
                && negb ((Byte.to_N b0 =? 0xED) && (0xA0 <=? Byte.to_N b1))%N).
      - destruct r1 as [|b2 r2]; [exact Hkept|].
        change ((b2 :: r2) ++ b) with (b2 :: (r2 ++ b)) in H.
        cbv iota beta in H |- *.
        destruct (is_cont (Byte.to_N b2)); [|discriminate H].
        apply (decode_in_two_step final _ _ _ _ _ _ (fun y => IH' r2 _ _ y ltac:(simpl in Hn; lia)) H).
      - destruct r1 as [|b2 r2].
        + simpl app in H. cbv iota beta in H |- *.
          destruct b as [|b2 b'].
          * cbn [negb andb] in *.
            destruct (negb final && (Byte.to_N b0 =? 0xED)%N && is_cont (Byte.to_N b1)) eqn:E;
              [|discriminate H].
            apply andb_true_iff in E. destruct E as [E E2].
            apply andb_true_iff in E. destruct E as [_ E1].
            cbn [negb andb]. rewrite E1, E2. exact Hkept.
          * discriminate H.
        + change ((b2 :: r2) ++ b) with (b2 :: (r2 ++ b)) in H. discriminate H. }
    destruct (Byte.to_N b0 <? 0xF5)%N; [|discriminate H].
    destruct r0 as [|b1 r1]; [exact Hkept|].
    change ((b1 :: r1) ++ b) with (b1 :: (r1 ++ b)) in H.
    cbv iota beta in H |- *.
    destruct (is_cont (Byte.to_N b1)
              && negb ((Byte.to_N b0 =? 0xF0) && (Byte.to_N b1 <? 0x90))%N
              && negb ((Byte.to_N b0 =? 0xF4) && (0x90 <=? Byte.to_N b1))%N);
      [|discriminate H].
    destruct r1 as [|b2 r2]; [exact Hkept|].
    change ((b2 :: r2) ++ b) with (b2 :: (r2 ++ b)) in H.
    cbv iota beta in H |- *.
    destruct (is_cont (Byte.to_N b2)); [|discriminate H].
    destruct r2 as [|b3 r3]; [exact Hkept|].
    change ((b3 :: r3) ++ b) with (b3 :: (r3 ++ b)) in H.
    cbv iota beta in H |- *.
    destruct (is_cont (Byte.to_N b3)); [|discriminate H].
    apply (decode_in_two_step final _ _ _ _ _ _ (fun y => IH' r3 _ _ y ltac:(simpl in Hn; lia)) H).
Qed.

(** *** Line ends *)

Lemma universal_newlines_cons c s :
  universal_newlines (c :: s) =
  if (c =? c_return)%N then
    match s with
    | c2 :: s'' =>
        if (c2 =? c_newline)%N then c_newline :: universal_newlines s''
        else c_newline :: universal_newlines s
    | [] => [c_newline]
    end
  else c :: universal_newlines s.
Proof. destruct s; reflexivity. Qed.

Lemma ends_with_return_snoc s c : ends_with_return (s ++ [c]) = (c =? c_return)%N.
Proof. unfold ends_with_return. rewrite rev_app_distr. reflexivity. Qed.

Lemma ends_with_return_cons c s : s <> [] -> ends_with_return (c :: s) = ends_with_return s.
Proof.
  intros Hs. destruct (exists_last Hs) as (s' & d & ->).
  change (c :: s' ++ [d]) with ((c :: s') ++ [d]). rewrite !ends_with_return_snoc.
  reflexivity.
Qed.

Lemma ends_with_return_app a b : b <> [] -> ends_with_return (a ++ b) = ends_with_return b.
Proof.
  intros Hb. destruct (exists_last Hb) as (b' & d & ->).
  rewrite app_assoc, !ends_with_return_snoc. reflexivity.
Qed.

Lemma ends_with_return_last s :
  ends_with_return s = true -> s = removelast s ++ [c_return].
Proof.
  destruct s as [|c s] using rev_ind; [discriminate|].
  rewrite ends_with_return_snoc, removelast_last. intros H.
  apply N.eqb_eq in H. subst. reflexivity.
Qed.

(** The translation of line ends can be done piece by piece, unless the
    cut falls between a ['\r'] and a ['\n']. *)
Lemma universal_newlines_app : forall n a b,
  List.length a <= n ->
  ends_with_return a && starts_with_newline b = false ->
  universal_newlines (a ++ b) = universal_newlines a ++ universal_newlines b.
Proof.
  induction n as [|n IH]; intros a b Hn Hcut.
  - destruct a; [reflexivity|simpl in Hn; lia].
  - destruct a as [|c a]; [reflexivity|]. simpl in Hn.
    change ((c :: a) ++ b) with (c :: (a ++ b)).
    rewrite !universal_newlines_cons.
    destruct (c =? c_return)%N eqn:Ec.
    + destruct a as [|c2 a].
      * simpl app. unfold ends_with_return in Hcut. simpl in Hcut. rewrite Ec in Hcut.
        destruct b as [|d b]; [reflexivity|]. simpl in Hcut. rewrite Hcut. reflexivity.
      * change ((c2 :: a) ++ b) with (c2 :: (a ++ b)). cbv iota.
        rewrite ends_with_return_cons in Hcut by discriminate.
        destruct (c2 =? c_newline)%N eqn:E2.
        -- rewrite <- app_comm_cons. f_equal. apply IH; [simpl in Hn; lia|].
           destruct a as [|c3 a]; [reflexivity|].
           rewrite ends_with_return_cons in Hcut by discriminate. exact Hcut.
        -- change (c2 :: (a ++ b)) with ((c2 :: a) ++ b).
           change ((c_newline :: universal_newlines (c2 :: a)) ++ universal_newlines b)
             with (c_newline :: (universal_newlines (c2 :: a) ++ universal_newlines b)).
           f_equal. apply IH; [simpl in *; lia|exact Hcut].
    + rewrite <- app_comm_cons. f_equal. apply IH; [lia|].
      destruct a as [|c2 a]; [reflexivity|].
      rewrite ends_with_return_cons in Hcut by discriminate. exact Hcut.
Qed.

Lemma newline_decode_nil cr : newline_decode cr [] false = ([], cr).
Proof. destruct cr; reflexivity. Qed.

Lemma newline_decode_final cr s :
  newline_decode cr s true
  = (universal_newlines (if cr then c_return :: s else s), false).
Proof. unfold newline_decode. destruct cr; simpl; rewrite ?orb_true_r; reflexivity. Qed.

Lemma newline_decode_cons cr c s final :
  newline_decode cr (c :: s) final
  = let output := if cr then c_return :: c :: s else c :: s in
    if negb final && ends_with_return (c :: s)
    then (universal_newlines (removelast output), true)
    else (universal_newlines output, false).
Proof.
  unfold newline_decode. destruct cr; simpl andb; cbv iota zeta; [|reflexivity].
  rewrite ends_with_return_cons by discriminate. reflexivity.
Qed.

Lemma universal_newlines_kept_return s :
  ends_with_return s = true ->
  forall t, universal_newlines (s ++ t)
            = universal_newlines (removelast s) ++ universal_newlines (c_return :: t).
Proof.
  intros H t. pose proof (ends_with_return_last _ H) as Hs.
  transitivity (universal_newlines (removelast s ++ c_return :: t)).
  - f_equal. rewrite Hs at 1. rewrite <- app_assoc. reflexivity.
  - apply (universal_newlines_app _ _ _ (le_n _)).
    simpl. rewrite andb_false_r. reflexivity.
Qed.

Lemma universal_newlines_kept_return_nil s :
  ends_with_return s = true ->
  universal_newlines s = universal_newlines (removelast s) ++ [c_newline].
Proof.
  intros H. pose proof (universal_newlines_kept_return s H []) as Hk.
  rewrite app_nil_r in Hk. exact Hk.
Qed.

(** [IncrementalNewlineDecoder] is incremental: a text may be given in
    two pieces. *)
Lemma newline_decode_app cr t1 t2 final :
  newline_decode cr (t1 ++ t2) final
  = let '(x1, cr1) := newline_decode cr t1 false in
    let '(x2, cr2) := newline_decode cr1 t2 final in
    (x1 ++ x2, cr2).
Proof.
  destruct t1 as [|c1 t1]; [rewrite newline_decode_nil; simpl;
    destruct (newline_decode cr t2 final); reflexivity|].
  set (s1 := if cr then c_return :: c1 :: t1 else c1 :: t1).
  assert (Es1 : ends_with_return s1 = ends_with_return (c1 :: t1)).
  { unfold s1. destruct cr; [|reflexivity]. apply ends_with_return_cons. discriminate. }
  assert (H1 : newline_decode cr (c1 :: t1) false
               = if ends_with_return (c1 :: t1)
                 then (universal_newlines (removelast s1), true)
                 else (universal_newlines s1, false)).
  { rewrite newline_decode_cons. reflexivity. }
  rewrite H1. clear H1.
  destruct t2 as [|c2 t2].
  { rewrite app_nil_r. destruct final.
    - rewrite newline_decode_final.
      change (if cr then c_return :: c1 :: t1 else c1 :: t1) with s1.
      destruct (ends_with_return (c1 :: t1)) eqn:E.
      + rewrite newline_decode_final. f_equal.
        apply universal_newlines_kept_return_nil. exact Es1.
      + rewrite newline_decode_final. rewrite app_nil_r. reflexivity.
    - rewrite newline_decode_cons. cbv zeta. simpl negb. cbn [andb]. fold s1.
      destruct (ends_with_return (c1 :: t1)); rewrite newline_decode_nil, app_nil_r;
        reflexivity. }
  change ((c1 :: t1) ++ c2 :: t2) with (c1 :: (t1 ++ c2 :: t2)).
  rewrite (newline_decode_cons cr). cbv zeta.
  change (c1 :: (t1 ++ c2 :: t2)) with ((c1 :: t1) ++ c2 :: t2).
  rewrite ends_with_return_app by discriminate.
  assert (Happ : (if cr then c_return :: (c1 :: t1) ++ c2 :: t2 else (c1 :: t1) ++ c2 :: t2)
                 = s1 ++ c2 :: t2) by (unfold s1; destruct cr; reflexivity).
  rewrite Happ. clear Happ.
  destruct (ends_with_return (c1 :: t1)) eqn:E1.
  - (* the first piece ends with a return, which is kept back *)
    rewrite newline_decode_cons. cbv zeta.
    destruct (negb final && ends_with_return (c2 :: t2)) eqn:E2.
    + cbv iota beta. f_equal. rewrite removelast_app by discriminate.
      assert (Hrl : removelast (c_return :: c2 :: t2) = c_return :: removelast (c2 :: t2))
        by reflexivity.
      rewrite Hrl.
      assert (Hne : c2 :: t2 <> []) by discriminate.
      destruct (exists_last Hne) as (t2' & d & Ht2). rewrite Ht2, removelast_last.
      apply universal_newlines_kept_return. exact Es1.
    + f_equal. apply universal_newlines_kept_return. exact Es1.
  - rewrite newline_decode_cons. cbv zeta.
    destruct (negb final && ends_with_return (c2 :: t2)).
    + rewrite removelast_app by discriminate. f_equal.
      apply (universal_newlines_app _ _ _ (le_n _)). rewrite Es1. reflexivity.
    + f_equal. apply (universal_newlines_app _ _ _ (le_n _)). rewrite Es1. reflexivity.
Qed.

(** *** The strict decoder of the locale *)

Lemma charmap_decode_app table : forall a b pos t,
  charmap_decode table pos (a ++ b) = Ok t ->
  exists t1 t2, charmap_decode table pos a = Ok t1
                /\ charmap_decode table 0 b = Ok t2 /\ t = t1 ++ t2.
Proof.
  assert (Hpos : forall b p p' t, charmap_decode table p b = Ok t ->
                                  charmap_decode table p' b = Ok t).
  { induction b as [|x b IH]; intros p p' t H; [exact H|]. simpl in *.
    destruct (table x); [|discriminate].
    destruct (charmap_decode table (S p) b) as [t'|] eqn:E; [|discriminate].
    rewrite (IH _ (S p') _ E). exact H. }
  induction a as [|x a IH]; intros b pos t H.
  - exists [], t. simpl in *. split; [reflexivity|]. split; [|reflexivity].
    exact (Hpos _ _ _ _ H).
  - simpl in *. destruct (table x); [|discriminate].
    destruct (charmap_decode table (S pos) (a ++ b)) as [t'|] eqn:E; [|discriminate].
    destruct (IH _ _ _ E) as (t1 & t2 & -> & H2 & ->).
    simpl in H. inversion H. exists (c :: t1), t2. auto.
Qed.

(** The decoder is incremental: bytes may be given in two pieces, the
    second piece after what was kept of the first. *)
Lemma decode_app enc final a b x :
  decode enc (a ++ b) final = Ok x ->
  exists t1 h1 x1,
    decode enc a false = Ok (t1, h1)
    /\ decode enc (h1 ++ b) final = Ok x1
    /\ x = (t1 ++ fst x1, snd x1).
Proof.
  destruct enc as [|table]; simpl.
  - intros H. pose proof (utf8_decode_in_two final _ a b 0 x (le_n _) H) as H2.
    unfold decode_in_two in H2.
    destruct (utf8_decode false false 0 a) as [[t1 h1]|]; [|contradiction].
    destruct (utf8_decode false final 0 (h1 ++ b)) as [x1|] eqn:E2; [|contradiction].
    exists t1, h1, x1. auto.
  - intros H. destruct (charmap_decode table 0 (a ++ b)) as [t|] eqn:E; [|discriminate].
    destruct (charmap_decode_app _ _ _ _ _ E) as (t1 & t2 & E1 & E2 & ->).
    simpl in H. inversion H. exists t1, [], (t2, []).
    rewrite E1. simpl. rewrite E2. auto.
Qed.

Lemma decode_nil enc final : decode enc [] final = Ok ([], []).
Proof. destruct enc; reflexivity. Qed.

Lemma decode_final_kept enc bs x : decode enc bs true = Ok x -> snd x = [].
Proof.
  destruct enc as [|table]; simpl.
  - destruct x as [t h]. intros H.
    exact (utf8_decode_final_kept _ _ _ _ _ _ (le_n _) H).
  - destruct (charmap_decode table 0 bs); [|discriminate].
    simpl. intros H. inversion H. reflexivity.
Qed.

(** What the decoder keeps is a sequence that is not complete: decoded
    again, it gives no text and is kept again. *)
Lemma decode_kept enc bs t h :
  decode enc bs false = Ok (t, h) -> decode enc h false = Ok ([], h).
Proof.
  intros H. pose proof H as H0. rewrite <- (app_nil_r bs) in H.
  destruct (decode_app _ _ _ _ _ H) as (t1 & h1 & [t2 h2] & H1 & H2 & Hx).
  rewrite H0 in H1. inversion H1; subst t1 h1. rewrite app_nil_r in H2.
  simpl in Hx. inversion Hx as [[Ht Hh]]. subst h2.
  assert (t2 = []).
  { apply (f_equal (@List.length _)) in Ht. rewrite length_app in Ht.
    destruct t2; [reflexivity|simpl in Ht; lia]. }
  subst t2. exact H2.
Qed.


(** *** Lines *)

Lemma split_line_some : forall s l r,
  split_line s = Some (l, r) ->
  s = l ++ r /\ forall cur x, lines_aux cur (s ++ x) = (rev cur ++ l) :: lines_aux [] (r ++ x).
Proof.
  induction s as [|c s IH]; intros l r H; [discriminate|]. simpl in H.
  destruct (c =? c_newline)%N eqn:Ec.
  - inversion H; subst. split; [reflexivity|]. intros cur x. simpl. rewrite Ec.
    reflexivity.
  - destruct (split_line s) as [[l' r']|] eqn:E; [|discriminate].
    inversion H; subst. destruct (IH _ _ eq_refl) as [-> Hl]. split; [reflexivity|].
    intros cur x. simpl. rewrite Ec. rewrite Hl. simpl. rewrite <- app_assoc.
    reflexivity.
Qed.

Lemma split_line_none : forall s,
  split_line s = None ->
  forall cur x, lines_aux cur (s ++ x) = lines_aux (rev s ++ cur) x.
Proof.
  induction s as [|c s IH]; intros H cur x; [reflexivity|]. simpl in H.
  destruct (c =? c_newline)%N eqn:Ec; [discriminate|].
  destruct (split_line s) as [[l' r']|] eqn:E; [discriminate|].
  simpl. rewrite Ec. rewrite IH by reflexivity. rewrite <- app_assoc. reflexivity.
Qed.

Lemma split_line_app_some s x l r :
  split_line s = Some (l, r) -> split_line (s ++ x) = Some (l, r ++ x).
Proof.
  revert l r. induction s as [|c s IH]; intros l r H; [discriminate|]. simpl in *.
  destruct (c =? c_newline)%N; [inversion H; reflexivity|].
  destruct (split_line s) as [[l' r']|]; [|discriminate].
  inversion H; subst. rewrite (IH _ _ eq_refl). reflexivity.
Qed.

(** the lines of a text that has no line end *)
Lemma lines_aux_no_newline s :
  split_line s = None ->
  lines_aux [] s = match s with [] => [] | _ :: _ => [s] end.
Proof.
  intros H. pose proof (split_line_none s H [] []) as Hl.
  rewrite !app_nil_r in Hl. rewrite Hl. simpl.
  destruct s as [|c s]; [reflexivity|].
  destruct (rev (c :: s)) eqn:E.
  - apply (f_equal (@List.length _)) in E. rewrite length_rev in E. discriminate.
  - rewrite <- E, rev_involutive. reflexivity.
Qed.

(** *** The text a reader has ahead of it *)


Lemma readline_from_found enc u kept cr dec l rest :
  split_line dec = Some (l, rest) ->
  readline_from enc u kept cr dec
  = Ok (Some l, {| unread := u; buffer := kept; pendingcr := cr; decoded_chars := rest |}).
Proof. intros H. destruct u; cbn [readline_from]; rewrite H; reflexivity. Qed.

Lemma readline_from_fetch enc chunk u kept cr dec :
  split_line dec = None ->
  readline_from enc (chunk :: u) kept cr dec
  = (t <- decode enc (kept ++ chunk) false ;;
     readline_from enc u (snd t) (snd (newline_decode cr (fst t) false))
                   (dec ++ fst (newline_decode cr (fst t) false))).
Proof.
  intros H. cbn [readline_from]. rewrite H.
  destruct (decode enc (kept ++ chunk) false) as [t|]; [|reflexivity].
  cbn [bind]. destruct (newline_decode cr (fst t) false). reflexivity.
Qed.

Lemma readline_from_flush enc kept cr dec :
  split_line dec = None ->
  readline_from enc [] kept cr dec
  = (t <- decode enc kept true ;;
     let all := dec ++ fst (newline_decode cr (fst t) true) in
     match split_line all with
     | Some (line, rest) =>
         Ok (Some line,
             {| unread := []; buffer := snd t; pendingcr := false; decoded_chars := rest |})
     | None =>
         Ok (match all with [] => None | _ :: _ => Some all end,
             {| unread := []; buffer := snd t; pendingcr := false; decoded_chars := [] |})
     end).
Proof.
  intros H. cbn [readline_from]. rewrite H.
  destruct (decode enc kept true) as [t|]; [|reflexivity].
  cbn [bind]. rewrite newline_decode_final. reflexivity.
Qed.

Lemma ahead_flushed enc kept t :
  decode enc kept true = Ok t -> reads_ahead enc true []
    {| unread := []; buffer := snd t; pendingcr := false; decoded_chars := [] |} [].
Proof.
  intros Et. exists [], []. cbn [unread buffer pendingcr decoded_chars ahead app].
  rewrite (decode_final_kept _ _ _ Et), decode_nil. cbn [bind fst].
  rewrite newline_decode_final. auto.
Qed.

Lemma readline_line enc final u2 : forall u1 kept cr dec K l rest,
  (final = true -> u2 = []) ->
  ahead enc final u1 kept cr = Ok K ->
  split_line (dec ++ K) = Some (l, rest) ->
  exists f', readline_from enc (u1 ++ u2) kept cr dec = Ok (Some l, f')
             /\ reads_ahead enc final u2 f' rest.
Proof.
  induction u1 as [|chunk u1 IH]; intros kept cr dec K l rest Hfin HK Hl.
  - destruct (split_line dec) as [[l0 r0]|] eqn:Ed.
    + rewrite (split_line_app_some _ K _ _ Ed) in Hl. inversion Hl; subst.
      eexists. split; [apply readline_from_found; exact Ed|].
      exists [], K. auto.
    + destruct final.
      * rewrite (Hfin eq_refl). cbn [app ahead] in HK |- *.
        rewrite (readline_from_flush _ _ _ _ Ed).
        destruct (decode enc kept true) as [t|] eqn:Et; [|discriminate].
        cbn [bind] in HK |- *.
        assert (HK' : K = fst (newline_decode cr (fst t) true)) by congruence.
        subst K. cbv zeta. rewrite Hl.
        eexists. split; [reflexivity|].
        destruct (ahead_flushed enc kept t Et) as (u & K0 & Hu & HK0 & Hd).
        exists u, K0. cbn [unread buffer pendingcr decoded_chars] in *.
        split; [exact Hu|]. split; [exact HK0|].
        destruct K0; [|destruct u; discriminate Hd]. apply app_nil_r.
      * cbn [ahead] in HK. inversion HK; subst. rewrite app_nil_r in Hl. congruence.
  - cbn [ahead] in HK.
    destruct (decode enc (kept ++ chunk) false) as [t|] eqn:Et; [|discriminate].
    cbn [bind] in HK.
    destruct (ahead enc final u1 (snd t) (snd (newline_decode cr (fst t) false)))
      as [K'|] eqn:EK; [|discriminate].
    cbn [bind] in HK. inversion HK; subst K. clear HK.
    destruct (split_line dec) as [[l0 r0]|] eqn:Ed.
    + rewrite (split_line_app_some _ _ _ _ Ed) in Hl. inversion Hl; subst.
      eexists. split; [apply readline_from_found; exact Ed|].
      exists (chunk :: u1), (fst (newline_decode cr (fst t) false) ++ K').
      cbn [unread buffer pendingcr decoded_chars ahead].
      rewrite Et. cbn [bind]. rewrite EK. auto.
    + change ((chunk :: u1) ++ u2) with (chunk :: (u1 ++ u2)).
      rewrite (readline_from_fetch _ _ _ _ _ _ Ed), Et. cbn [bind].
      rewrite app_assoc in Hl. exact (IH _ _ _ _ _ _ Hfin EK Hl).
Qed.

(** At the end of the file the text that is left, if any, is the last
    line. *)
Lemma readline_end enc : forall u1 kept cr dec K,
  ahead enc true u1 kept cr = Ok K ->
  split_line (dec ++ K) = None ->
  exists f', readline_from enc u1 kept cr dec
             = Ok (match dec ++ K with [] => None | _ :: _ => Some (dec ++ K) end, f')
             /\ reads_ahead enc true [] f' [].
Proof.
  induction u1 as [|chunk u1 IH]; intros kept cr dec K HK Hl.
  - assert (Ed : split_line dec = None).
    { destruct (split_line dec) as [[l0 r0]|] eqn:Ed; [|reflexivity].
      rewrite (split_line_app_some _ K _ _ Ed) in Hl. discriminate. }
    cbn [ahead] in HK. rewrite (readline_from_flush _ _ _ _ Ed).
    destruct (decode enc kept true) as [t|] eqn:Et; [|discriminate].
    cbn [bind] in HK |- *.
        assert (HK' : K = fst (newline_decode cr (fst t) true)) by congruence.
        subst K. cbv zeta. rewrite Hl.
    eexists. split; [reflexivity|]. exact (ahead_flushed enc kept t Et).
  - cbn [ahead] in HK.
    destruct (decode enc (kept ++ chunk) false) as [t|] eqn:Et; [|discriminate].
    cbn [bind] in HK.
    destruct (ahead enc true u1 (snd t) (snd (newline_decode cr (fst t) false)))
      as [K'|] eqn:EK; [|discriminate].
    cbn [bind] in HK. inversion HK; subst K. clear HK.
    assert (Ed : split_line dec = None).
    { destruct (split_line dec) as [[l0 r0]|] eqn:Ed; [|reflexivity].
      rewrite (split_line_app_some _ _ _ _ Ed) in Hl. discriminate. }
    rewrite (readline_from_fetch _ _ _ _ _ _ Ed), Et. cbn [bind].
    rewrite app_assoc in Hl |- *. exact (IH _ _ _ _ EK Hl).
Qed.

(** The text ahead is the translation of the decoding of the bytes
    ahead. *)
Lemma ahead_decode enc final : forall u kept cr x,
  decode enc kept false = Ok ([], kept) ->
  decode enc (kept ++ List.concat u) final = Ok x ->
  ahead enc final u kept cr = Ok (fst (newline_decode cr (fst x) final)).
Proof.
  induction u as [|chunk u IH]; intros kept cr x Hkept H.
  - cbn [List.concat ahead] in *. rewrite app_nil_r in H. destruct final.
    + rewrite H. reflexivity.
    + rewrite Hkept in H. inversion H; subst. cbn [fst]. rewrite newline_decode_nil.
      reflexivity.
  - cbn [List.concat ahead] in *. rewrite app_assoc in H.
    destruct (decode_app _ _ _ _ _ H) as (t1 & h1 & x1 & H1 & H2 & ->).
    rewrite H1. cbn [bind fst snd].
    rewrite (IH h1 (snd (newline_decode cr t1 false)) x1 (decode_kept _ _ _ _ H1) H2).
    cbn [bind]. rewrite newline_decode_app.
    destruct (newline_decode cr t1 false) as [y1 cr1]. cbn [fst snd].
    destruct (newline_decode cr1 (fst x1) final) as [y2 cr2]. reflexivity.
Qed.

(** *** Chunks *)

Lemma chunk_size_pos : 0 < chunk_size.
Proof. unfold chunk_size. apply Nat.mul_pos_pos; lia. Qed.

Lemma skipn_chunk_shorter (bs : list Byte.byte) :
  bs <> [] -> List.length (skipn chunk_size bs) < List.length bs.
Proof.
  intros Hne. rewrite length_skipn. pose proof chunk_size_pos.
  destruct bs; [congruence|]. cbn [List.length]. lia.
Qed.

Lemma chunks_fuel_concat : forall fuel bs,
  List.length bs <= fuel -> List.concat (chunks_fuel fuel bs) = bs.
Proof.
  induction fuel as [|fuel IH]; intros bs Hlen.
  - destruct bs; [reflexivity|simpl in Hlen; lia].
  - destruct bs as [|b bs]; [reflexivity|].
    cbn [chunks_fuel List.concat]. rewrite IH.
    + apply firstn_skipn.
    + pose proof (skipn_chunk_shorter (b :: bs) ltac:(discriminate)). lia.
Qed.

Lemma chunks_concat bs : List.concat (chunks bs) = bs.
Proof. apply chunks_fuel_concat. apply le_n. Qed.



(** *** The echo *)

Lemma newline_count_split s l r :
  split_line s = Some (l, r) -> newline_count s = S (newline_count r).
Proof.
  revert l r. induction s as [|c s IH]; intros l r H; [discriminate|].
  unfold newline_count in *. simpl in H |- *.
  destruct (N.eqb_spec c c_newline) as [->|Hc].
  - inversion H; subst. destruct (N.eq_dec c_newline c_newline); congruence.
  - destruct (split_line s) as [[l' r']|]; [|discriminate]. inversion H; subst.
    destruct (N.eq_dec c c_newline); [congruence|]. apply (IH _ _ eq_refl).
Qed.

Lemma newline_count_none s : split_line s = None -> newline_count s = 0.
Proof.
  induction s as [|c s IH]; intros H; [reflexivity|].
  unfold newline_count in *. simpl in H |- *.
  destruct (N.eqb_spec c c_newline) as [->|Hc]; [discriminate|].
  destruct (split_line s) as [[l' r']|]; [discriminate|].
  destruct (N.eq_dec c c_newline); [congruence|]. apply IH. reflexivity.
Qed.

Lemma readline_known enc final u2 f text l rest :
  (final = true -> u2 = []) ->
  reads_ahead enc final u2 f text ->
  split_line text = Some (l, rest) ->
  exists f', readline enc f = Ok (Some l, f') /\ reads_ahead enc final u2 f' rest.
Proof.
  intros Hfin (u1 & K & Hu & HK & <-) Hl. unfold readline. rewrite Hu.
  exact (readline_line enc final u2 _ _ _ _ _ _ _ Hfin HK Hl).
Qed.

Lemma readline_last enc f text :
  reads_ahead enc true [] f text ->
  split_line text = None ->
  exists f', readline enc f = Ok (match text with [] => None | _ :: _ => Some text end, f')
             /\ reads_ahead enc true [] f' [].
Proof.
  intros (u1 & K & Hu & HK & <-) Hl. unfold readline. rewrite Hu, app_nil_r.
  exact (readline_end enc _ _ _ _ _ HK Hl).
Qed.

(** The echo of a reader of which enough is known: the whole file, or a
    part that holds as many lines as the loop asks for. *)
Lemma echo_known enc final u2 : forall fuel i f text,
  (final = true -> u2 = []) ->
  reads_ahead enc final u2 f text ->
  final = true \/ fuel <= newline_count text ->
  fuel + i = 4 ->
  echo_first_lines enc fuel i f
  = (map (fun il => EchoLine (S (fst il)) (strip (snd il)))
         (combine (seq i (3 - i)) (lines_aux [] text)),
     Ok tt).
Proof.
  induction fuel as [|fuel IH]; intros i f text Hfin Hf Hknown Hi.
  - replace (3 - i) with 0 by lia. reflexivity.
  - cbn [echo_first_lines].
    destruct (split_line text) as [[l rest]|] eqn:El.
    + destruct (readline_known _ _ _ _ _ _ _ Hfin Hf El) as (f' & -> & Hf').
      destruct (split_line_some _ _ _ El) as [_ Hlines].
      specialize (Hlines [] []). rewrite !app_nil_r in Hlines. simpl in Hlines.
      rewrite Hlines.
      destruct (Nat.ltb_spec i 3) as [Hlt|Hge].
      * rewrite (IH (S i) f' rest Hfin Hf'); [| |lia].
        -- replace (3 - i) with (S (3 - S i)) by lia.
           cbn [seq combine map fst snd]. rewrite Nat.add_1_r. reflexivity.
        -- destruct Hknown as [Ht|Hn]; [left; exact Ht|right].
           rewrite (newline_count_split _ _ _ El) in Hn. lia.
      * replace (3 - i) with 0 by lia. reflexivity.
    + destruct Hknown as [->|Hn];
        [|rewrite (newline_count_none _ El) in Hn; lia].
      rewrite (Hfin eq_refl) in Hf.
      destruct (readline_last _ _ _ Hf El) as (f' & -> & Hf').
      rewrite (lines_aux_no_newline _ El).
      destruct text as [|c text].
      * destruct (seq i (3 - i)); reflexivity.
      * destruct (Nat.ltb_spec i 3) as [Hlt|Hge].
        -- rewrite (Hfin eq_refl) in IH.
           rewrite (IH (S i) f' [] (fun _ => eq_refl) Hf' (or_introl eq_refl)); [|lia].
           replace (3 - i) with (S (3 - S i)) by lia.
           cbn [seq combine map fst snd lines_aux]. rewrite Nat.add_1_r.
           destruct (seq (S i) (3 - S i)); reflexivity.
        -- replace (3 - i) with 0 by lia. reflexivity.
Qed.






(** When the file as a whole decodes, the echo is that of its first
    three lines, and the loop returns. *)
Lemma echo_whole_file enc bytes x :
  decode enc bytes true = Ok x ->
  echo_first_lines enc 4 0 (open_text bytes) = (echo_of (text_lines (fst x)), Ok tt).
Proof.
  intros Hx.
  assert (Hf : reads_ahead enc true [] (open_text bytes) (universal_newlines (fst x))).
  { exists (chunks bytes), (universal_newlines (fst x)).
    cbn [open_text unread buffer pendingcr decoded_chars app].
    split; [symmetry; apply app_nil_r|]. split; [|reflexivity].
    rewrite (ahead_decode enc true (chunks bytes) [] false x (decode_nil _ _)).
    - rewrite newline_decode_final. reflexivity.
    - cbn [app]. rewrite chunks_concat. exact Hx. }
  exact (echo_known enc true [] 4 0 _ _ (fun _ => eq_refl) Hf (or_introl eq_refl) eq_refl).
Qed.







(** *** The reading loop *)

Lemma read_lines_replace_total bytes :
  exists lines, read_lines_replace bytes = Ok lines.
Proof.
  unfold read_lines_replace.
  destruct (utf8_decode_replace_total (List.length bytes) bytes 0 (le_n _)) as [t ->].
  simpl. eauto.
Qed.

(** The three ways in which [parse_log_line] ends. *)
Lemma parse_log_line_outcomes line :
  (exists r, parse_log_line line = (Some r, []))
  \/ parse_log_line line = (None, [])
  \/ (exists m, re_search log_pattern (strip line) = Some m
                /\ overlong (group 6 m) = true
                /\ parse_log_line line = (None, [skipped line m])).
Proof.
  destruct (re_search log_pattern (strip line)) as [m|] eqn:Hs.
  - rewrite (parse_log_line_match _ _ Hs).
    destruct (overlong (group 6 m)) eqn:E.
    + right. right. exists m. auto.
    + destruct (str_eqb (group 4 m) (lit "-")); [right; left|left; eexists]; reflexivity.
  - right. left. apply parse_log_line_no_match. exact Hs.
Qed.

Lemma collect_fold lines : forall n acc out,
  fold_left collect_step lines (n, acc, out)
  = (n + List.length lines, acc ++ accepted_records lines, out ++ diagnostics lines).
Proof.
  induction lines as [|line lines IH]; intros n acc out; simpl.
  - rewrite Nat.add_0_r, !app_nil_r. reflexivity.
  - destruct (parse_log_line line) as [entry printed]. simpl. rewrite IH.
    destruct entry; rewrite <- ?app_assoc; simpl; f_equal; f_equal; lia.
Qed.

(** The loop counts every line, keeps the accepted records in order and
    writes the diagnostics of [parse_log_line] in order. *)
Lemma collect_eq lines :
  collect lines = (List.length lines, accepted_records lines, diagnostics lines).
Proof. unfold collect. rewrite collect_fold. reflexivity. Qed.

(** The run on a file from which no record is accepted. *)
Lemma analyze_logs_no_entries locale fs log_file bytes lines :
  fs log_file = File bytes ->
  read_lines_replace bytes = Ok lines ->
  accepted_records lines = [] ->
  analyze_logs locale fs log_file
  = (no_entries_head log_file lines
     ++ fst (echo_first_lines locale 4 0 (open_text bytes)),
     snd (echo_first_lines locale 4 0 (open_text bytes))).
Proof.
  intros Hfs Hread Hacc. unfold analyze_logs, no_entries_head.
  rewrite Hfs, Hread, collect_eq, Hacc. cbn [List.length]. rewrite Z.sub_0_r.
  destruct (echo_first_lines locale 4 0 (open_text bytes)) as [echoed outcome].
  cbn [fst snd]. rewrite <- !app_assoc. reflexivity.
Qed.




(** * Further properties *)

(** ** Whitespace around a line *)

Lemma lstrip_app_space ws s :
  forallb is_space ws = true -> lstrip (ws ++ s) = lstrip s.
Proof.
  induction ws as [|c ws IH]; simpl; [reflexivity|]. intros H.
  apply andb_true_iff in H. destruct H as [-> H]. apply IH. exact H.
Qed.

Lemma lstrip_nil_iff s : lstrip s = [] <-> forallb is_space s = true.
Proof.
  induction s as [|c s IH]; simpl; [tauto|].
  destruct (is_space c); simpl; [exact IH|]. split; discriminate.
Qed.

Lemma lstrip_app_kept s t : lstrip s <> [] -> lstrip (s ++ t) = lstrip s ++ t.
Proof.
  induction s as [|c s IH]; simpl; [congruence|].
  destruct (is_space c); [exact IH|reflexivity].
Qed.

Lemma rstrip_app_space s ws :
  forallb is_space ws = true -> rstrip (s ++ ws) = rstrip s.
Proof.
  intros H. unfold rstrip. rewrite rev_app_distr, lstrip_app_space; [reflexivity|].
  rewrite forallb_rev. exact H.
Qed.

Lemma strip_app_space ws1 s ws2 :
  forallb is_space ws1 = true -> forallb is_space ws2 = true ->
  strip (ws1 ++ s ++ ws2) = strip s.
Proof.
  intros H1 H2. unfold strip. rewrite (lstrip_app_space ws1 _ H1).
  destruct (lstrip s) as [|c r] eqn:E.
  - apply lstrip_nil_iff in E.
    assert (Hall : lstrip (s ++ ws2) = []).
    { apply lstrip_nil_iff. rewrite forallb_app, E, H2. reflexivity. }
    rewrite Hall. reflexivity.
  - rewrite lstrip_app_kept by (rewrite E; discriminate).
    rewrite E. apply rstrip_app_space. exact H2.
Qed.

Lemma lstrip_split s :
  exists ws, forallb is_space ws = true /\ s = ws ++ lstrip s.
Proof.
  induction s as [|c s (ws & Hws & Hs)]; simpl.
  - exists []. auto.
  - destruct (is_space c) eqn:Ec.
    + exists (c :: ws). simpl. rewrite Ec, Hws. split; [reflexivity|]. f_equal. exact Hs.
    + exists []. auto.
Qed.

Lemma rstrip_split s :
  exists ws, forallb is_space ws = true /\ s = rstrip s ++ ws.
Proof.
  destruct (lstrip_split (rev s)) as (ws & Hws & Hs).
  exists (rev ws). rewrite forallb_rev. split; [exact Hws|].
  unfold rstrip. rewrite <- rev_app_distr, <- Hs, rev_involutive. reflexivity.
Qed.

(** X1: [parse_log_line] does not see the whitespace around a line:
    indentation and line ends (["\n"], ["\r\n"]) change neither the
    record nor the output, and a line may be stripped beforehand. *)
Theorem parse_log_line_ignores_outer_space ws1 line ws2 :
  forallb is_space ws1 = true -> forallb is_space ws2 = true ->
  parse_log_line (ws1 ++ line ++ ws2) = parse_log_line line
  /\ parse_log_line (strip line) = parse_log_line line
  /\ strip (strip line) = strip line.
Proof.
  intros H1 H2.
  assert (Hidem : strip (strip line) = strip line).
  { destruct (lstrip_split line) as (wl & Hwl & Hl).
    destruct (rstrip_split (lstrip line)) as (wr & Hwr & Hr).
    fold (strip line) in Hr.
    transitivity (strip (wl ++ strip line ++ wr)).
    - symmetry. apply strip_app_space; assumption.
    - f_equal. rewrite <- Hr. symmetry. exact Hl. }
  unfold parse_log_line. rewrite (strip_app_space _ _ _ H1 H2), Hidem. auto.
Qed.

(** ** The shape of [re.split]'s result and of the fields *)

Lemma re_split_fuel_length : forall n s,
  exists k, List.length (re_split_fuel n log_pattern s) = 1 + 11 * k.
Proof.
  induction n as [|n IH]; intros s; simpl; [exists 0; reflexivity|].
  destruct (re_search log_pattern s) as [m|] eqn:Hs; [|exists 0; reflexivity].
  destruct (re_search_sound _ _ _ Hs) as (t & _ & Hm).
  destruct (log_pattern_groups _ _ Hm)
    as (g1 & g2 & g3 & g4 & g5 & g6 & g7 & g8 & g9 & g10 & Hg & _).
  destruct (IH (m_post m)) as [k Hk].
  exists (S k). simpl. rewrite length_app, Hg, Hk. simpl. lia.
Qed.

(** X2: the list [re.split] returns has 1 + 11 k elements, so the test
    [len(parts) < 11] holds exactly when the pattern is not found and the
    indices 1 to 9 are always in range: the body of the [try] never
    raises [IndexError].  It raises in one case only, the [ValueError]
    of [int] when the status group of the match has more digits than
    [int] accepts; on every other line it ends without an exception. *)
Theorem parse_log_line_try_outcomes line :
  (exists k, List.length (re_split log_pattern line) = 1 + 11 * k)
  /\ ((List.length (re_split log_pattern line) <? 11) = true
      <-> re_search log_pattern line = None)
  /\ (forall i, re_search log_pattern line <> None -> 1 <= i <= 9 ->
                exists part, index (re_split log_pattern line) i = Ok part)
  /\ (forall e, parse_log_line_try line = Raise e <->
        exists m, re_search log_pattern line = Some m
                  /\ int_max_str_digits < List.length (group 6 m)
                  /\ e = too_many_digits (group 6 m))
  /\ ((exists r, parse_log_line_try line = Ok r) <->
      forall m, re_search log_pattern line = Some m ->
                List.length (group 6 m) <= int_max_str_digits).
Proof.
  split; [apply re_split_fuel_length|].
  destruct (re_search log_pattern line) as [m|] eqn:Hs.
  - destruct (re_search_sound _ _ _ Hs) as (t & _ & Hm).
    destruct (log_pattern_groups _ _ Hm)
      as (g1 & g2 & g3 & g4 & g5 & g6 & g7 & g8 & g9 & g10 & Hg & _).
    rewrite (re_split_some _ _ _ Hs), Hg. split; [|split; [|split]].
    + split; [|discriminate]. intros H. simpl in H. discriminate H.
    + intros i _ Hi. unfold index.
      destruct i as [|[|[|[|[|[|[|[|[|[|i]]]]]]]]]]; try lia; simpl; eauto.
    + rewrite (parse_log_line_try_match _ _ Hs). unfold overlong.
      destruct (Nat.ltb_spec int_max_str_digits (List.length (group 6 m))) as [Hl|Hl].
      * intros e. split.
        -- intros H. inversion H. exists m. auto.
        -- intros (m' & Hm' & _ & ->). inversion Hm'. reflexivity.
      * intros e. split; [discriminate|].
        intros (m' & Hm' & Hl' & _). inversion Hm'; subst. lia.
    + rewrite (parse_log_line_try_match _ _ Hs). unfold overlong.
      destruct (Nat.ltb_spec int_max_str_digits (List.length (group 6 m))) as [Hl|Hl].
      * split; [intros [r Hr]; discriminate|].
        intros H. specialize (H m eq_refl). lia.
      * split; [|eauto]. intros _ m' Hm'. inversion Hm'; subst. exact Hl.
  - rewrite (re_split_none _ _ Hs). split; [|split; [|split]].
    + split; reflexivity.
    + intros i H. congruence.
    + rewrite (parse_log_line_try_no_match _ Hs). intros e. split; [discriminate|].
      intros (m & Hm & _). discriminate.
    + rewrite (parse_log_line_try_no_match _ Hs). split; [discriminate|eauto].
Qed.

(** [search] returns the leftmost instance. *)
Lemma re_search_leftmost p : forall s m,
  re_search p s = Some m ->
  forall pre t post gs,
    s = pre ++ t ++ post -> matches p t gs ->
    List.length (m_pre m) <= List.length pre.
Proof.
  induction s as [|c s IH]; intros m H pre t post gs Hs Hm;
    rewrite re_search_unfold in H.
  - destruct (match_here p []) as [[gs' r]|] eqn:E; [|discriminate].
    inversion H; subst; simpl. lia.
  - destruct (match_here p (c :: s)) as [[gs' r]|] eqn:E.
    + inversion H; subst; simpl. lia.
    + destruct (re_search p s) as [m'|] eqn:Es; [|discriminate].
      inversion H; subst; simpl. destruct pre as [|c' pre].
      * exfalso. simpl in Hs.
        destruct (match_k_complete _ _ _ Hm _ (fun r => Some r) post post eq_refl)
          as (gs' & r' & Hk).
        unfold match_here in E. rewrite Hs in E. congruence.
      * simpl in Hs. inversion Hs; subst. simpl.
        apply -> Nat.succ_le_mono. eapply IH; eauto.
Qed.

(** X3: the record of a line comes from its leftmost entry: no instance
    of the grammar starts before the match the fields are taken from. *)
Theorem parse_log_line_takes_leftmost line r out :
  parse_log_line line = (Some r, out) ->
  exists m t,
    r = record_of_match m
    /\ strip line = m_pre m ++ t ++ m_post m
    /\ matches log_pattern t (m_groups m)
    /\ forall pre t' post gs,
         strip line = pre ++ t' ++ post -> matches log_pattern t' gs ->
         List.length (m_pre m) <= List.length pre.
Proof.
  intros H. destruct (parse_log_line_some _ _ _ H) as (m & Hs & _ & -> & _).
  destruct (re_search_sound _ _ _ Hs) as (t & Ht & Hm).
  exists m, t. repeat split; auto.
  intros pre t' post gs. apply (re_search_leftmost _ _ _ Hs).
Qed.

(** X4: in every returned record the IP is a non-empty token without
    whitespace, and neither the request nor the user agent holds a
    newline. *)
Theorem record_fields_shape line r out :
  parse_log_line line = (Some r, out) ->
  ip r <> []
  /\ forallb (fun c => negb (is_space c)) (ip r) = true
  /\ forallb (fun c => negb (c =? c_newline)%N) (request r) = true
  /\ forallb (fun c => negb (c =? c_newline)%N) (user_agent r) = true.
Proof.
  intros H. destruct (parse_log_line_some _ _ _ H) as (m & Hs & _ & -> & _).
  destruct (re_search_sound _ _ _ Hs) as (t & _ & Hm).
  destruct (log_pattern_groups _ _ Hm)
    as (g1 & g2 & g3 & g4 & g5 & g6 & g7 & g8 & g9 & g10 & Hg & Hne & H1 & _ & H5 & _ & _ & H9).
  unfold record_of_match, group. rewrite Hg. simpl. auto.
Qed.

(** ** Method and path *)

Lemma split_ws_aux_tokens s : forall cur,
  forallb (fun c => negb (is_space c)) cur = true ->
  Forall (fun t => t <> [] /\ forallb (fun c => negb (is_space c)) t = true)
         (split_ws_aux cur s).
Proof.
  induction s as [|c s IH]; intros cur Hcur; simpl.
  - destruct cur as [|a cur]; [constructor|]. constructor; [|constructor].
    split; [|rewrite forallb_rev; exact Hcur].
    intros E. apply (f_equal (@List.length _)) in E.
    rewrite length_rev in E. discriminate.
  - destruct (is_space c) eqn:Ec.
    + destruct cur as [|a cur]; [apply IH; reflexivity|].
      constructor; [|apply IH; reflexivity].
      split; [|rewrite forallb_rev; exact Hcur].
      intros E. apply (f_equal (@List.length _)) in E.
      rewrite length_rev in E. discriminate.
    + apply IH. simpl. rewrite Ec. exact Hcur.
Qed.

Lemma split_ws_aux_nil s : forall cur,
  split_ws_aux cur s = [] <-> cur = [] /\ forallb is_space s = true.
Proof.
  induction s as [|c s IH]; intros cur; simpl.
  - destruct cur; split; try tauto; try discriminate. intros [H _]. discriminate.
  - destruct (is_space c) eqn:Ec; simpl.
    + destruct cur as [|a cur].
      * rewrite IH. tauto.
      * split; [discriminate|]. intros [H _]. discriminate.
    + rewrite IH. split; [intros [H _]; discriminate|intros [_ H]; discriminate].
Qed.

(** X5: the method and the path of a record are non-empty tokens without
    whitespace; the method is absent exactly when the request is empty
    or all whitespace; and a record with a path has a method, so the
    path table never counts more records than the method table. *)
Theorem method_and_path_tokens :
  (forall r t, method r = Some t \/ path r = Some t ->
               t <> [] /\ forallb (fun c => negb (is_space c)) t = true)
  /\ (forall r, method r = None <-> forallb is_space (request r) = true)
  /\ (forall r, has_path r = true -> has_method r = true)
  /\ (forall logs, table_total (path_counts logs) <= table_total (method_counts logs)).
Proof.
  assert (Htok : forall r, Forall (fun t => t <> [] /\ forallb (fun c => negb (is_space c)) t = true)
                                  (split_ws (request r))).
  { intros r. apply split_ws_aux_tokens. reflexivity. }
  assert (Hpm : forall r, has_path r = true -> has_method r = true).
  { intros r. unfold has_path, has_method, path, method.
    destruct (split_ws (request r)) as [|a [|b l]]; simpl; auto. }
  split; [|split; [|split]].
  - intros r t H. specialize (Htok r). rewrite Forall_forall in Htok. apply Htok.
    unfold method, path in H. destruct H as [H|H]; apply nth_error_In in H; exact H.
  - intros r. unfold method, split_ws.
    destruct (split_ws_aux [] (request r)) as [|a l] eqn:E; simpl.
    + apply split_ws_aux_nil in E. tauto.
    + split; [discriminate|]. intros H.
      assert (E' : split_ws_aux [] (request r) = []) by (apply split_ws_aux_nil; auto).
      congruence.
  - exact Hpm.
  - intros logs. unfold path_counts, method_counts.
    rewrite !value_counts_total, !length_dropna_map.
    fold has_path has_method.
    induction logs as [|r logs IH]; simpl; [lia|].
    specialize (Hpm r). unfold has_path, has_method in *.
    destruct (path r), (method r); simpl; lia.
Qed.

(** ** Bots, unique IPs and frequency tables *)

Lemma starts_with_iff p : forall s,
  starts_with p s = true <-> exists post, s = p ++ post.
Proof.
  induction p as [|a p IH]; intros s; simpl.
  - split; [intros _; exists s; reflexivity|reflexivity].
  - destruct s as [|b s].
    + split; [discriminate|]. intros [post H]. discriminate.
    + rewrite andb_true_iff, N.eqb_eq, IH. split.
      * intros [-> [post ->]]. exists post. reflexivity.
      * intros [post H]. inversion H; subst. split; [reflexivity|]. exists post. reflexivity.
Qed.

Lemma contains_iff needle : forall hay,
  contains needle hay = true <-> exists pre post, hay = pre ++ needle ++ post.
Proof.
  induction hay as [|c hay IH]; simpl; rewrite orb_true_iff, starts_with_iff.
  - split.
    + intros [[post H]|H]; [|discriminate]. exists [], post. exact H.
    + intros (pre & post & H). left. destruct pre; [|discriminate]. exists post. exact H.
  - rewrite IH. split.
    + intros [[post H]|(pre & post & H)].
      * exists [], post. exact H.
      * exists (c :: pre), post. simpl. f_equal. exact H.
    + intros (pre & post & H). destruct pre as [|c' pre].
      * left. exists post. exact H.
      * right. simpl in H. inversion H; subst. exists pre, post. reflexivity.
Qed.

(** X6: a record counts as bot traffic exactly when its lower-cased user
    agent contains one of the eight keywords as a substring; in
    particular the count of bots never exceeds the number of requests. *)
Theorem is_bot_iff_keyword :
  (forall r, is_bot r = true <->
             exists k pre post,
               In k bot_keywords
               /\ str_lower ucd (user_agent r) = pre ++ k ++ post)
  /\ (forall logs, List.length (filter is_bot logs) <= List.length logs).
Proof.
  split.
  - intros r. unfold is_bot. rewrite existsb_exists. split.
    + intros (k & Hk & Hc). apply contains_iff in Hc.
      destruct Hc as (pre & post & H). exists k, pre, post. auto.
    + intros (k & pre & post & Hk & H). exists k. split; [exact Hk|].
      apply contains_iff. exists pre, post. exact H.
  - intros logs. apply filter_length_le.
Qed.

(** X7: the number printed as unique IPs is the number of keys of the
    IP counter; the ranking has as many lines as there are unique IPs,
    up to ten; there is at least one unique IP when there is a request
    and never more than requests; and the counts of the counter add up
    to the number of requests. *)
Theorem unique_ips_and_top_lines logs :
  let ips := map ip logs in
  nunique str_eq_dec ips = List.length (ip_counts logs)
  /\ List.length (top_ips logs) = Nat.min 10 (nunique str_eq_dec ips)
  /\ nunique str_eq_dec ips <= List.length logs
  /\ (logs <> [] -> 1 <= nunique str_eq_dec ips)
  /\ table_total (ip_counts logs) = List.length logs.
Proof.
  intros ips.
  assert (Hlen : nunique str_eq_dec ips = List.length (ip_counts logs)).
  { unfold nunique, ip_counts. fold ips.
    rewrite <- (length_map fst (Counter str_eq_dec ips)).
    apply Permutation_length. apply NoDup_Permutation.
    - apply NoDup_nodup.
    - apply Counter_keys.
    - intros k. rewrite nodup_In. symmetry. apply Counter_keys. }
  split; [exact Hlen|]. split; [|split; [|split]].
  - unfold top_ips, most_common. rewrite length_firstn, Hlen.
    rewrite (Permutation_length (sort_by_count_perm _)). reflexivity.
  - unfold nunique. rewrite <- (length_map ip logs). fold ips.
    apply NoDup_incl_length; [apply NoDup_nodup|].
    intros k Hk. apply nodup_In in Hk. exact Hk.
  - intros Hne. destruct logs as [|r logs]; [congruence|].
    unfold nunique.
    assert (H : In (ip r) (nodup str_eq_dec ips)) by (apply nodup_In; left; reflexivity).
    destruct (nodup str_eq_dec ips); [destruct H|simpl; lia].
  - unfold ip_counts. rewrite table_total_Counter. apply length_map.
Qed.

Section ValueCountsTable.

Context {K : Type} (K_eq_dec : forall x y : K, {x = y} + {x <> y}).

(** X8: a table made by [value_counts] lists every present value once,
    with the number of its occurrences, which is positive, in descending
    order of count; cut by [head(10)] it has at most ten rows, and a row
    that is cut has no higher count than a row that is kept. *)
Theorem value_counts_table (xs : list (option K)) :
  let table := value_counts K_eq_dec xs in
  NoDup (map fst table)
  /\ StronglySorted (fun a b => snd b <= snd a) table
  /\ (forall k n, In (k, n) table <->
                  In (Some k) xs /\ n = count_occ K_eq_dec (dropna xs) k /\ 0 < n)
  /\ List.length (firstn 10 table) <= 10
  /\ (forall a b, In a (firstn 10 table) -> In b (skipn 10 table) -> snd b <= snd a).
Proof.
  intros table. unfold value_counts in table.
  set (c := Counter K_eq_dec (dropna xs)) in *.
  assert (Hperm : Permutation table c) by apply sort_by_count_perm.
  assert (Hsorted : StronglySorted (fun a b => snd b <= snd a) table).
  { apply (StronglySorted_impl_in (ranks_above K_eq_dec (dropna xs))).
    - intros a b _ _ [H|[H _]]; lia.
    - apply sort_by_count_stable.
      apply (StronglySorted_of_map fst
               (fun a b => first_index K_eq_dec a (dropna xs)
                           < first_index K_eq_dec b (dropna xs))).
      apply Counter_order. }
  pose proof (in_dropna xs) as Hdrop.
  split; [|split; [exact Hsorted|split; [|split]]].
  - apply (Permutation_NoDup (Permutation_map fst (Permutation_sym Hperm))).
    apply Counter_keys.
  - intros k n. rewrite <- Hdrop. split.
    + intros H. apply (Permutation_in _ Hperm) in H. apply Counter_entry in H.
      destruct H as [Hk Hn]. repeat split; auto.
      rewrite Hn. apply count_occ_In. exact Hk.
    + intros (Hk & Hn & _). apply (Permutation_in _ (Permutation_sym Hperm)).
      apply Counter_entry. auto.
  - apply firstn_le_length.
  - intros a b Ha Hb. rewrite <- (firstn_skipn 10 table) in Hsorted.
    exact (StronglySorted_app_cross _ _ _ Hsorted a b Ha Hb).
Qed.

End ValueCountsTable.

(** ** The series of requests per minute *)

Lemma z_min_list_in t ts : In (z_min_list t ts) (t :: ts).
Proof.
  induction ts as [|y ts IH]; simpl; [auto|].
  destruct (Z.min_spec y (z_min_list t ts)) as [[_ ->]|[_ ->]]; [auto|].
  destruct IH as [IH|IH]; auto.
Qed.

Lemma z_max_list_in t ts : In (z_max_list t ts) (t :: ts).
Proof.
  induction ts as [|y ts IH]; simpl; [auto|].
  destruct (Z.max_spec y (z_max_list t ts)) as [[_ ->]|[_ ->]]; [|auto].
  destruct IH as [IH|IH]; auto.
Qed.

Lemma z_min_list_lower t ts x : In x (t :: ts) -> (z_min_list t ts <= x)%Z.
Proof.
  destruct (z_min_list_le t ts) as [H1 H2]. rewrite Forall_forall in H2.
  intros [<-|H]; auto.
Qed.

Lemma z_max_list_upper t ts x : In x (t :: ts) -> (x <= z_max_list t ts)%Z.
Proof.
  destruct (z_max_list_ge t ts) as [H1 H2]. rewrite Forall_forall in H2.
  intros [<-|H]; auto.
Qed.

Lemma rows_from_labels {A} (g : A -> nat) (l : list (A * nat)) :
  (forall b n, In (b, n) l -> n = g b) ->
  l = map (fun b => (b, g b)) (map fst l).
Proof.
  induction l as [|[b n] l IH]; intros H; simpl; [reflexivity|].
  rewrite <- IH by (intros b' n' Hin; apply H; right; exact Hin).
  rewrite (H b n) by (left; reflexivity). reflexivity.
Qed.

Lemma table_total_labels {A} (g : A -> nat) (bins : list A) :
  table_total (map (fun b => (b, g b)) bins)
  = fold_right (fun b acc => g b + acc) 0 bins.
Proof. induction bins as [|b bins IH]; simpl; [reflexivity|]. rewrite IH. reflexivity. Qed.

Lemma sum_count_occ_notin (bins : list Z) x :
  ~ In x bins ->
  fold_right (fun b acc => (if Z.eq_dec x b then 1 else 0) + acc) 0 bins = 0.
Proof.
  induction bins as [|b bins IH]; simpl; [reflexivity|]. intros H.
  destruct (Z.eq_dec x b); [exfalso; apply H; left; congruence|]. apply IH. tauto.
Qed.

Lemma sum_count_occ_in (bins : list Z) x :
  NoDup bins -> In x bins ->
  fold_right (fun b acc => (if Z.eq_dec x b then 1 else 0) + acc) 0 bins = 1.
Proof.
  induction 1 as [|b bins Hb Hnd IH]; simpl; [tauto|]. intros Hin.
  destruct (Z.eq_dec x b) as [->|Hne].
  - rewrite sum_count_occ_notin by exact Hb. reflexivity.
  - apply IH. destruct Hin; [congruence|assumption].
Qed.

Lemma sum_count_occ_cons (bins : list Z) x l :
  fold_right (fun b acc => count_occ Z.eq_dec (x :: l) b + acc) 0 bins
  = fold_right (fun b acc => (if Z.eq_dec x b then 1 else 0) + acc) 0 bins
    + fold_right (fun b acc => count_occ Z.eq_dec l b + acc) 0 bins.
Proof.
  induction bins as [|b bins IH]; [reflexivity|].
  cbn [fold_right]. rewrite IH. simpl. destruct (Z.eq_dec x b); lia.
Qed.

(** When every value has its bin and no bin is listed twice, the counts
    of the bins add up to the number of values. *)
Lemma sum_count_occ (bins l : list Z) :
  NoDup bins -> (forall x, In x l -> In x bins) ->
  fold_right (fun b acc => count_occ Z.eq_dec l b + acc) 0 bins = List.length l.
Proof.
  intros Hnd. induction l as [|x l IH]; intros Hin.
  - clear Hnd Hin. induction bins as [|b bins IHb]; [reflexivity|].
    cbn [fold_right]. rewrite IHb. reflexivity.
  - rewrite sum_count_occ_cons.
    rewrite sum_count_occ_in; [|exact Hnd|apply Hin; left; reflexivity].
    rewrite IH; [reflexivity|]. intros y Hy. apply Hin. right. exact Hy.
Qed.

Lemma StronglySorted_lt_NoDup (l : list Z) : StronglySorted Z.lt l -> NoDup l.
Proof.
  induction 1 as [|a l Hs IH Hf]; constructor; [|exact IH].
  intros Hin. rewrite Forall_forall in Hf. specialize (Hf a Hin). lia.
Qed.

Lemma StronglySorted_to_map {A B} (f : A -> B) (R : B -> B -> Prop) l :
  StronglySorted (fun a b => R (f a) (f b)) l -> StronglySorted R (map f l).
Proof.
  induction 1 as [|a l Hs IH Hf]; simpl; constructor; [exact IH|].
  rewrite Forall_forall in *. intros y Hy. apply in_map_iff in Hy.
  destruct Hy as (x & <- & Hx). apply Hf. exact Hx.
Qed.

Lemma minute_span t ts :
  ((minute_floor (z_max_list t ts) - minute_floor (z_min_list t ts)) / 60
   = z_max_list t ts / 60 - z_min_list t ts / 60)%Z
  /\ (z_min_list t ts / 60 <= z_max_list t ts / 60)%Z.
Proof.
  split.
  - unfold minute_floor.
    replace (60 * (z_max_list t ts / 60) - 60 * (z_min_list t ts / 60))%Z
      with ((z_max_list t ts / 60 - z_min_list t ts / 60) * 60)%Z by lia.
    apply Z.div_mul. lia.
  - apply Z.div_le_mono; [lia|].
    pose proof (proj1 (z_min_list_le t ts)). pose proof (proj1 (z_max_list_ge t ts)). lia.
Qed.

(** X9: the series of requests per minute starts at the minute of the
    earliest valid datetime, ends at the minute of the latest one and
    has one row for every minute in between, 60 seconds apart; every
    valid datetime is counted in exactly one row, so the counts add up
    to the number of valid datetimes. *)
Theorem requests_per_minute_span ts :
  ts <> [] ->
  exists tmin tmax n,
    In tmin ts /\ In tmax ts
    /\ (forall t, In t ts -> (tmin <= t <= tmax)%Z)
    /\ map fst (requests_per_minute ts)
       = map (fun i => (minute_floor tmin + 60 * Z.of_nat i)%Z) (seq 0 (S n))
    /\ (minute_floor tmin + 60 * Z.of_nat n)%Z = minute_floor tmax
    /\ table_total (requests_per_minute ts) = List.length ts.
Proof.
  destruct ts as [|t0 ts]; [congruence|]. intros _.
  destruct (minute_span t0 ts) as [Hspan Hle].
  exists (z_min_list t0 ts), (z_max_list t0 ts),
         (Z.to_nat (z_max_list t0 ts / 60 - z_min_list t0 ts / 60)).
  split; [apply z_min_list_in|]. split; [apply z_max_list_in|]. split; [|split; [|split]].
  - intros t Ht. split; [apply z_min_list_lower|apply z_max_list_upper]; exact Ht.
  - unfold requests_per_minute. rewrite Hspan, map_map. reflexivity.
  - unfold minute_floor. lia.
  - set (ts' := t0 :: ts).
    rewrite (rows_from_labels (fun b => count_in_bin b ts') (requests_per_minute ts')).
    + rewrite table_total_labels. unfold count_in_bin.
      rewrite sum_count_occ; [apply length_map| |].
      * apply StronglySorted_lt_NoDup.
        apply (StronglySorted_to_map fst Z.lt). apply requests_per_minute_sorted.
      * intros x Hx. apply in_map_iff in Hx. destruct Hx as (t & <- & Ht).
        apply (in_map fst) in Ht || idtac.
        change (minute_floor t)
          with (fst (minute_floor t, count_in_bin (minute_floor t) ts')).
        apply in_map. apply requests_per_minute_covers. exact Ht.
    + intros b n H. apply requests_per_minute_rows in H.
      destruct H as (i & _ & _ & Hn). exact Hn.
Qed.

Lemma dropna_perm {A} (xs ys : list (option A)) :
  Permutation xs ys -> Permutation (dropna xs) (dropna ys).
Proof.
  induction 1 as [|x l l' Hp IH|x y l|l l' l'' H1 IH1 H2 IH2].
  - reflexivity.
  - destruct x; simpl; [constructor; exact IH|exact IH].
  - destruct x, y; simpl; try reflexivity. apply perm_swap.
  - eapply Permutation_trans; eassumption.
Qed.

Lemma requests_per_minute_perm ts ts' :
  Permutation ts ts' -> requests_per_minute ts = requests_per_minute ts'.
Proof.
  intros Hp. destruct ts as [|t ts]; destruct ts' as [|t' ts'].
  - reflexivity.
  - apply Permutation_nil in Hp. discriminate.
  - apply Permutation_sym, Permutation_nil in Hp. discriminate.
  - assert (Hmin : z_min_list t ts = z_min_list t' ts').
    { apply Z.le_antisymm.
      - apply z_min_list_lower. apply (Permutation_in _ (Permutation_sym Hp)).
        apply z_min_list_in.
      - apply z_min_list_lower. apply (Permutation_in _ Hp). apply z_min_list_in. }
    assert (Hmax : z_max_list t ts = z_max_list t' ts').
    { apply Z.le_antisymm.
      - apply z_max_list_upper. apply (Permutation_in _ Hp). apply z_max_list_in.
      - apply z_max_list_upper. apply (Permutation_in _ (Permutation_sym Hp)).
        apply z_max_list_in. }
    unfold requests_per_minute. rewrite Hmin, Hmax. apply map_ext. intros i.
    cbv zeta. f_equal. unfold count_in_bin.
    apply (proj1 (Permutation_count_occ Z.eq_dec _ _)).
    apply Permutation_map. exact Hp.
Qed.

(** X10: the time analysis does not depend on the order of the records:
    the same records in another order give the same dropped count, the
    same series and the same busiest minute. *)
Theorem time_report_order_independent logs logs' :
  Permutation logs logs' ->
  requests_per_minute (valid_times logs) = requests_per_minute (valid_times logs')
  /\ time_report logs = time_report logs'.
Proof.
  intros Hp.
  assert (Hv : Permutation (valid_times logs) (valid_times logs')).
  { unfold valid_times. apply dropna_perm. apply Permutation_map. exact Hp. }
  pose proof (requests_per_minute_perm _ _ Hv) as Hr.
  split; [exact Hr|]. unfold time_report.
  rewrite Hr, (Permutation_length Hp), (Permutation_length Hv). reflexivity.
Qed.

(** X11: when some record has a valid datetime, the busiest minute that
    is reported is the minute of at least one record, and its count is at
    least 1 and at most the number of records with a valid datetime. *)
Theorem peak_is_populated logs :
  valid_times logs <> [] ->
  exists p,
    idxmax (requests_per_minute (valid_times logs)) = Ok p
    /\ (exists t, In t (valid_times logs) /\ minute_floor t = p)
    /\ series_max (requests_per_minute (valid_times logs))
       = count_in_bin p (valid_times logs)
    /\ 1 <= series_max (requests_per_minute (valid_times logs))
         <= List.length (valid_times logs).
Proof.
  intros Hne. destruct (valid_times logs) as [|t0 ts'] eqn:Ets; [congruence|].
  set (ts := t0 :: ts') in *. set (rpm := requests_per_minute ts).
  destruct (idxmax_first rpm (requests_per_minute_nonempty t0 ts'))
    as (p & before & after & Hp & Hs & _).
  assert (Hin : In (p, series_max rpm) rpm).
  { rewrite Hs at 2. apply in_or_app. right. left. reflexivity. }
  apply requests_per_minute_rows in Hin. destruct Hin as (i & _ & _ & Hn).
  fold ts in Hn.
  assert (Hpos : 1 <= series_max rpm).
  { pose proof (requests_per_minute_covers ts t0 (or_introl eq_refl)) as Hc.
    apply (series_max_ge rpm) in Hc. cbn [snd] in Hc.
    assert (0 < count_in_bin (minute_floor t0) ts).
    { unfold count_in_bin. apply count_occ_In. apply in_map. left. reflexivity. }
    lia. }
  exists p. split; [exact Hp|]. split; [|split; [exact Hn|split; [exact Hpos|]]].
  - assert (Hc : 0 < count_in_bin p ts) by lia.
    unfold count_in_bin in Hc. apply count_occ_In in Hc.
    apply in_map_iff in Hc. destruct Hc as (t & Ht & Hin). exists t. auto.
  - rewrite Hn. unfold count_in_bin.
    rewrite <- (length_map minute_floor ts). apply count_occ_bound.
Qed.

Lemma valid_times_length logs : List.length (valid_times logs) <= List.length logs.
Proof.
  unfold valid_times. rewrite length_dropna_map. apply filter_length_le.
Qed.

(** X12: the time analysis saves a chart exactly when some record has a
    valid datetime and prints the warning exactly when none has; it
    notes dropped entries exactly when some timestamp is invalid, with
    their number; and its handler for exceptions is never entered. *)
Theorem chart_iff_valid_timestamp logs :
  ((exists f s, In (SaveFig f s) (time_report logs)) <-> valid_times logs <> [])
  /\ (In WarningNoValidTimestamps (time_report logs) <-> valid_times logs = [])
  /\ (forall n, In (DroppedInvalidTimestamps n) (time_report logs) <->
                0 < n /\ n + List.length (valid_times logs) = List.length logs)
  /\ (forall e, ~ In (CouldNotGenerateTimeGraph e) (time_report logs)).
Proof.
  pose proof (valid_times_length logs) as Hlen.
  unfold time_report.
  set (d := List.length logs - List.length (valid_times logs)).
  assert (Hd : d + List.length (valid_times logs) = List.length logs) by (unfold d; lia).
  set (note := if 0 <? d then [DroppedInvalidTimestamps d] else []).
  assert (Hnote : forall e, In e note <-> 0 < d /\ e = DroppedInvalidTimestamps d).
  { intros e. unfold note. destruct (Nat.ltb_spec 0 d); simpl; split.
    - intros [<-|[]]. auto.
    - intros [_ ->]. auto.
    - intros [].
    - intros [H' _]. lia. }
  clearbody note d.
  destruct (valid_times logs) as [|t0 ts'] eqn:Ets.
  - simpl List.length in *. change (0 <? 0) with false. cbv iota.
    split; [|split; [|split]].
    + split; [|congruence]. intros (f & s & H). apply in_app_iff in H.
      destruct H as [H|[H|[]]]; [apply Hnote in H; destruct H as [_ H]|];
        discriminate H.
    + split; [reflexivity|]. intros _. apply in_or_app. right. left. reflexivity.
    + intros n. rewrite in_app_iff, Hnote. split.
      * intros [[Hp H]|[H|[]]]; [|discriminate H]. inversion H; subst. lia.
      * intros [H1 H2]. left. split; [lia|]. f_equal. lia.
    + intros e H. apply in_app_iff in H.
      destruct H as [H|[H|[]]]; [apply Hnote in H; destruct H as [_ H]|];
        discriminate H.
  - change (0 <? List.length (t0 :: ts')) with true. cbv iota.
    destruct (idxmax_first (requests_per_minute (t0 :: ts'))
                (requests_per_minute_nonempty t0 ts'))
      as (p & _ & _ & Hp & _). rewrite Hp.
    split; [|split; [|split]].
    + split; [discriminate|]. intros _. do 2 eexists.
      apply in_or_app. left. apply in_or_app. right. left. reflexivity.
    + split; [|discriminate]. intros H. exfalso.
      rewrite !in_app_iff, Hnote in H.
      destruct H as [[[_ H]|[H|[H|[]]]]|[H|[]]]; discriminate H.
    + intros n. rewrite !in_app_iff, Hnote. split.
      * intros [[[Hpos H]|[H|[H|[]]]]|[H|[]]]; try discriminate H.
        inversion H; subst. lia.
      * intros [H1 H2]. left. left. split; [lia|]. f_equal. lia.
    + intros e H. rewrite !in_app_iff, Hnote in H.
      destruct H as [[[_ H]|[H|[H|[]]]]|[H|[]]]; discriminate H.
Qed.

(** ** Timestamps in the layout *)
















(** ** The reading loop and the run as a whole *)


Lemma accepted_records_in lines r :
  In r (accepted_records lines) <->
  exists line, In line lines /\ fst (parse_log_line line) = Some r.
Proof.
  unfold accepted_records. rewrite in_flat_map. split.
  - intros (line & Hl & Hr). exists line. split; [exact Hl|].
    destruct (fst (parse_log_line line)); [|destruct Hr].
    destruct Hr as [->|[]]. reflexivity.
  - intros (line & Hl & Hr). exists line. split; [exact Hl|].
    rewrite Hr. left. reflexivity.
Qed.

Lemma diagnostics_in lines e :
  In e (diagnostics lines) <->
  exists line m, In line lines
                 /\ re_search log_pattern (strip line) = Some m
                 /\ overlong (group 6 m) = true
                 /\ e = skipped line m.
Proof.
  unfold diagnostics. rewrite in_flat_map. split.
  - intros (line & Hl & He). exists line.
    destruct (snd (parse_log_line line)) as [|e' out] eqn:E; [destruct He|].
    destruct (parse_log_line_prints _ _ _ E) as (m & Hs & Hlong & -> & -> & _).
    destruct He as [<-|[]]. exists m. auto.
  - intros (line & m & Hl & Hs & Hlong & ->). exists line. split; [exact Hl|].
    rewrite (parse_log_line_match _ _ Hs), Hlong. left. reflexivity.
Qed.

(** A line that gives a diagnostic gives no record: the diagnostics and
    the accepted records together are no more than the lines. *)
Lemma diagnostics_length lines :
  List.length (diagnostics lines) + List.length (accepted_records lines)
  <= List.length lines.
Proof.
  unfold diagnostics, accepted_records.
  induction lines as [|line lines IH]; simpl; [lia|].
  rewrite !length_app.
  destruct (parse_log_line_outcomes line) as [[r Hr]|[Hr|(m & _ & _ & Hr)]];
    rewrite Hr; simpl; lia.
Qed.

(** X14: the reading loop counts every line, whatever [parse_log_line]
    makes of it, and keeps exactly the records that [parse_log_line]
    returns, in the order of their lines; there are never more entries
    than lines.  What it writes are the diagnostics of the lines whose
    status is too long for [int], in the order of the lines, and such a
    line gives no entry. *)
Theorem collect_counts_every_line lines :
  fst (fst (collect lines)) = List.length lines
  /\ snd (collect lines) = diagnostics lines
  /\ (forall e, In e (snd (collect lines)) <->
        exists line m, In line lines
                       /\ re_search log_pattern (strip line) = Some m
                       /\ overlong (group 6 m) = true
                       /\ e = skipped line m)
  /\ List.length (snd (collect lines)) + List.length (snd (fst (collect lines)))
     <= List.length lines
  /\ (forall r, In r (snd (fst (collect lines))) <->
                exists line, In line lines /\ fst (parse_log_line line) = Some r)
  /\ (forall l1 l2, lines = l1 ++ l2 ->
        snd (fst (collect lines))
        = snd (fst (collect l1)) ++ snd (fst (collect l2))).
Proof.
  rewrite collect_eq. cbn [fst snd].
  split; [reflexivity|]. split; [reflexivity|].
  split; [apply diagnostics_in|]. split; [apply diagnostics_length|].
  split; [apply accepted_records_in|].
  intros l1 l2 ->. rewrite !collect_eq. cbn [fst snd]. apply flat_map_app.
Qed.






(** The run returns when the file as a whole decodes in the encoding of
    the locale. *)
Lemma run_returns_when_decodable locale fs log_file bytes x :
  fs log_file = File bytes ->
  decode locale bytes true = Ok x ->
  snd (analyze_logs locale fs log_file) = Ok tt.
Proof.
  intros Hfs Hx. destruct (read_lines_replace_total bytes) as [lines Hread].
  destruct (accepted_records lines) as [|r acc] eqn:Eacc.
  - rewrite (analyze_logs_no_entries locale _ _ _ _ Hfs Hread Eacc).
    rewrite (echo_whole_file _ _ _ Hx). reflexivity.
  - unfold analyze_logs. rewrite Hfs, Hread, collect_eq, Eacc. reflexivity.
Qed.

Lemma read_lines_strict_decode bytes raw :
  read_lines_strict bytes = Ok raw ->
  exists x, decode utf_8 bytes true = Ok x /\ raw = text_lines (fst x).
Proof.
  unfold read_lines_strict. destruct (decode utf_8 bytes true) as [x|]; [|discriminate].
  simpl. intros H. inversion H. eauto.
Qed.

(** X18: on a platform whose locale is UTF-8, when the file as a whole
    decodes strictly, the strict reading yields the very lines the
    reading loop got with [errors='replace']: the lines echoed for a
    file without entries are the first lines that were scanned; and the
    run returns. *)
Theorem strict_read_agrees_with_replace bytes raw :
  read_lines_strict bytes = Ok raw ->
  read_lines_replace bytes = Ok raw
  /\ forall fs log_file,
       fs log_file = File bytes ->
       snd (analyze_logs utf_8 fs log_file) = Ok tt
       /\ (accepted_records raw = [] ->
           fst (analyze_logs utf_8 fs log_file)
           = no_entries_head log_file raw ++ echo_of raw).
Proof.
  intros Hstrict. destruct (read_lines_strict_decode _ _ Hstrict) as (x & Hx & ->).
  assert (Hrep : read_lines_replace bytes = Ok (text_lines (fst x))).
  { unfold read_lines_replace. simpl in Hx.
    rewrite (utf8_decode_strict_replace _ _ _ _ (le_n _) Hx). reflexivity. }
  split; [exact Hrep|]. intros fs log_file Hfs.
  destruct (accepted_records (text_lines (fst x))) as [|r acc] eqn:Eacc.
  - rewrite (analyze_logs_no_entries utf_8 _ _ _ _ Hfs Hrep Eacc).
    rewrite (echo_whole_file _ _ _ Hx). auto.
  - split; [|discriminate].
    unfold analyze_logs. rewrite Hfs, Hrep, collect_eq, Eacc. reflexivity.
Qed.

Lemma charmap_decode_ascii table :
  (forall b, (Byte.to_N b <? 128)%N = true -> table b <> None) ->
  forall bs pos,
    forallb (fun b => (Byte.to_N b <? 128)%N) bs = true ->
    exists t, charmap_decode table pos bs = Ok t.
Proof.
  intros Htable. induction bs as [|b bs IH]; intros pos H; [exists []; reflexivity|].
  cbn [forallb] in H. apply andb_true_iff in H. destruct H as [Hb Hbs].
  cbn [charmap_decode]. specialize (Htable b Hb).
  destruct (table b) as [c|]; [|congruence].
  destruct (IH (1 + pos) Hbs) as [t ->]. eexists. reflexivity.
Qed.

(** X19: a file of ASCII bytes is read alike by both readings, each
    character being its byte, and the run on it returns; it also returns
    where the locale has a single-byte encoding in which every ASCII
    byte is a character. *)
Theorem ascii_file_never_crashes fs log_file bytes :
  fs log_file = File bytes ->
  forallb (fun b => (Byte.to_N b <? 128)%N) bytes = true ->
  read_lines_replace bytes = Ok (text_lines (map Byte.to_N bytes))
  /\ read_lines_strict bytes = Ok (text_lines (map Byte.to_N bytes))
  /\ snd (analyze_logs utf_8 fs log_file) = Ok tt
  /\ (forall table,
        (forall b, (Byte.to_N b <? 128)%N = true -> table b <> None) ->
        snd (analyze_logs (charmap table) fs log_file) = Ok tt).
Proof.
  intros Hfs Hascii.
  assert (Hrep : read_lines_replace bytes = Ok (text_lines (map Byte.to_N bytes))).
  { unfold read_lines_replace. rewrite (utf8_decode_ascii true true _ _ Hascii).
    reflexivity. }
  assert (Hstr : read_lines_strict bytes = Ok (text_lines (map Byte.to_N bytes))).
  { unfold read_lines_strict, decode.
    rewrite (utf8_decode_ascii false true _ _ Hascii). reflexivity. }
  split; [exact Hrep|]. split; [exact Hstr|]. split.
  - apply (run_returns_when_decodable utf_8 fs log_file bytes
             (map Byte.to_N bytes, []) Hfs).
    unfold decode. apply utf8_decode_ascii. exact Hascii.
  - intros table Htable.
    destruct (charmap_decode_ascii table Htable bytes 0 Hascii) as [t Ht].
    apply (run_returns_when_decodable (charmap table) fs log_file bytes (t, []) Hfs).
    unfold decode. rewrite Ht. reflexivity.
Qed.

(** ** The lines of a text *)

Lemma lines_aux_concat s : forall cur,
  List.concat (lines_aux cur s) = rev cur ++ s.
Proof.
  induction s as [|c s IH]; intros cur; simpl.
  - destruct cur; simpl; rewrite ?app_nil_r; reflexivity.
  - destruct (c =? c_newline)%N; simpl; rewrite IH; simpl;
      rewrite <- app_assoc; reflexivity.
Qed.

Lemma lines_aux_shape s : forall cur,
  ~ In c_newline cur ->
  Forall (fun line =>
            line <> []
            /\ exists body, ~ In c_newline body
                            /\ (line = body ++ [c_newline] \/ line = body))
         (lines_aux cur s).
Proof.
  induction s as [|c s IH]; intros cur Hcur; simpl.
  - destruct cur as [|a cur]; [constructor|]. constructor; [|constructor]. split.
    + intros E. apply (f_equal (@List.length _)) in E.
      rewrite length_rev in E. discriminate.
    + exists (rev (a :: cur)). split; [|right; reflexivity].
      rewrite <- in_rev. exact Hcur.
  - destruct (N.eqb_spec c c_newline) as [->|Hc].
    + constructor; [|apply IH; simpl; tauto]. split.
      * simpl. intros E. apply app_eq_nil in E. destruct E; discriminate.
      * exists (rev cur). split; [rewrite <- in_rev; exact Hcur|left; reflexivity].
    + apply IH. simpl. intros [H|H]; [congruence|tauto].
Qed.

Lemma universal_newlines_no_return : forall n s,
  List.length s <= n -> ~ In c_return (universal_newlines s).
Proof.
  induction n as [|n IH]; intros s Hn.
  - destruct s; [simpl; tauto|simpl in Hn; lia].
  - destruct s as [|c s]; [simpl; tauto|]. simpl in Hn.
    change (universal_newlines (c :: s))
      with (if (c =? c_return)%N then
              match s with
              | c2 :: s'' =>
                  if (c2 =? c_newline)%N then c_newline :: universal_newlines s''
                  else c_newline :: universal_newlines s
              | [] => [c_newline]
              end
            else c :: universal_newlines s).
    destruct (N.eqb_spec c c_return) as [->|Hc].
    + destruct s as [|c2 s''].
      * intros [H|[]]. discriminate H.
      * simpl in Hn. destruct (c2 =? c_newline)%N; intros [H|H]; try discriminate H.
        -- apply (IH s'') in H; [exact H|lia].
        -- apply (IH (c2 :: s'')) in H; [exact H|simpl; lia].
    + intros [H|H]; [congruence|]. apply (IH s) in H; [exact H|lia].
Qed.

(** X20: the lines handed to the reading loop are a partition of the
    text with its line ends normalised: put together they give the text
    back, no line is empty, none holds a carriage return, and a line
    feed occurs only as the last character of a line. *)
Theorem text_lines_partition text :
  List.concat (text_lines text) = universal_newlines text
  /\ ~ In c_return (universal_newlines text)
  /\ Forall (fun line =>
               line <> [] /\ ~ In c_return line
               /\ exists body, ~ In c_newline body
                               /\ (line = body ++ [c_newline] \/ line = body))
            (text_lines text).
Proof.
  assert (Hcat : List.concat (text_lines text) = universal_newlines text).
  { unfold text_lines. rewrite lines_aux_concat. reflexivity. }
  pose proof (universal_newlines_no_return _ text (le_n _)) as Hcr.
  split; [exact Hcat|]. split; [exact Hcr|].
  pose proof (lines_aux_shape (universal_newlines text) [] (fun H => H)) as Hshape.
  fold (text_lines text) in Hshape.
  rewrite Forall_forall in *. intros line Hline.
  destruct (Hshape line Hline) as [Hne Hbody]. repeat split; auto.
  intros Hin. apply Hcr. rewrite <- Hcat. apply in_concat. eauto.
Qed.

End Analyzer.

(** * Concrete runs

    The inputs below are ASCII text, or raw bytes that decode to ASCII
    text and U+FFFD, which is no digit: on them the tables of [ascii_db]
    are the interpreter's.  Where the encoding of the locale matters it
    is UTF-8, unless said otherwise. *)

Lemma short_status : List.length (lit "200") <= int_max_str_digits.
Proof. apply Nat.leb_le. reflexivity. Qed.

Lemma long_status : int_max_str_digits < List.length overlong_status.
Proof. apply Nat.ltb_lt. vm_compute. reflexivity. Qed.

(** C1 fails as stated: [overlong_line] is an instance of the grammar as
    a whole, its timestamp is not ["-"], and no record is returned for
    it, because [int] refuses the 4301 digits of its status; a diagnostic
    is printed instead. *)
Lemma overlong_status_rejected :
  full_match ascii_db log_pattern (strip overlong_line) = true
  /\ re_search ascii_db log_pattern (strip overlong_line) = Some overlong_match
  /\ group 4 overlong_match <> lit "-"
  /\ List.length (group 6 overlong_match) = 4301
  /\ parse_log_line ascii_db overlong_line
     = (None, [SkippingMalformedLine (firstn 100 (strip overlong_line))
                 (ValueError (ExceedsDigitLimit 4300 4301))]).
Proof.
  split; [vm_compute; reflexivity|]. split; [vm_compute; reflexivity|].
  split; [vm_compute; discriminate|]. split; vm_compute; reflexivity.
Qed.

(** An instance of the amended C1: [sample_line]. *)
Lemma parse_log_line_fields_witness :
  re_search ascii_db log_pattern (strip sample_line) = Some sample_match
  /\ group 4 sample_match <> lit "-"
  /\ List.length (group 6 sample_match) <= int_max_str_digits
  /\ exists z,
       py_int ascii_db (group 6 sample_match) = Ok z
       /\ z = Z.of_N (decimal_value ascii_db (group 6 sample_match))
       /\ parse_log_line ascii_db sample_line =
          (Some {| ip := group 1 sample_match; timestamp := group 4 sample_match;
                   request := group 5 sample_match; status := z;
                   user_agent := group 9 sample_match |}, []).
Proof.
  assert (H1 : re_search ascii_db log_pattern (strip sample_line) = Some sample_match)
    by (vm_compute; reflexivity).
  assert (H2 : group 4 sample_match <> lit "-") by (vm_compute; discriminate).
  assert (H3 : List.length (group 6 sample_match) <= int_max_str_digits)
    by exact short_status.
  split; [exact H1|]. split; [exact H2|]. split; [exact H3|].
  exact (proj1 (parse_log_line_fields ascii_db sample_line) sample_match H1 H2 H3).
Defined.

(** What [parse_log_line] returns on [sample_line]. *)
Lemma parse_sample_line :
  parse_log_line ascii_db sample_line = (Some sample_record, []).
Proof. vm_compute. reflexivity. Qed.

(** C2 fails as stated: [embedded_line] has text before and after the
    entry, neither it nor its stripped form is an instance of the
    grammar, and yet a record is returned. *)
Lemma embedded_line_accepted :
  parse_log_line ascii_db embedded_line = (Some sample_record, [])
  /\ full_match ascii_db log_pattern (strip embedded_line) = false
  /\ ~ (exists gs, matches ascii_db log_pattern (strip embedded_line) gs)
  /\ ~ (exists gs, matches ascii_db log_pattern embedded_line gs).
Proof.
  split; [vm_compute; reflexivity|]. split; [vm_compute; reflexivity|]. split.
  - intros H. apply full_match_iff in H. vm_compute in H. discriminate.
  - intros H. apply full_match_iff in H. vm_compute in H. discriminate.
Qed.

(** An instance of the amended C2: the record returned for
    [embedded_line] comes from an instance of the grammar inside it. *)
Lemma parse_log_line_accepts_occurrence_witness :
  parse_log_line ascii_db embedded_line = (Some sample_record, [])
  /\ exists pre t post gs,
       strip embedded_line = pre ++ t ++ post
       /\ matches ascii_db log_pattern t gs
       /\ sample_record =
          {| ip := nth 0 gs []; timestamp := nth 3 gs []; request := nth 4 gs [];
             status := Z.of_N (decimal_value ascii_db (nth 5 gs []));
             user_agent := nth 8 gs [] |}.
Proof.
  assert (H : parse_log_line ascii_db embedded_line = (Some sample_record, []))
    by (vm_compute; reflexivity).
  split; [exact H|].
  exact (proj1 (parse_log_line_accepts_occurrence ascii_db embedded_line)
               sample_record [] H).
Defined.



(** C4 fails as stated.  The record of an entry with an empty request
    has neither method nor path, and the method table and the path table
    of a collection that holds just this record are empty: the record is
    not counted, under no category.  And of eleven paths the path table
    that is written shows ten: the records of the path requested least
    are not counted in it. *)
Lemma absent_method_not_counted :
  parse_log_line ascii_db empty_request_line = (Some empty_request_record, [])
  /\ method empty_request_record = None
  /\ path empty_request_record = None
  /\ method_counts [empty_request_record] = []
  /\ path_counts [empty_request_record] = []
  /\ table_total (method_counts [empty_request_record])
     <> List.length [empty_request_record]
  /\ status_counts [empty_request_record] = [(400%Z, 1)]
  /\ List.length (filter has_path eleven_paths_logs) = 21
  /\ path (record_for (lit "/rare")) = Some (lit "/rare")
  /\ In (record_for (lit "/rare")) eleven_paths_logs
  /\ List.length (firstn 10 (path_counts eleven_paths_logs)) = 10
  /\ count_of str_eq_dec (lit "/rare") (firstn 10 (path_counts eleven_paths_logs)) = 0
  /\ table_total (firstn 10 (path_counts eleven_paths_logs)) = 20.
Proof.
  repeat split; try (vm_compute; reflexivity); try (vm_compute; discriminate).
  vm_compute. tauto.
Qed.




(** C8, the failing run: the first reading turns the byte 0xFF into
    U+FFFD and finds no entry; the second reading, for the echo, is
    strict and raises [UnicodeDecodeError], which nothing catches. *)
Lemma undecodable_file_crashes :
  read_lines_replace undecodable_file = Ok [[c_replacement; c_newline]]
  /\ read_lines_strict undecodable_file = Raise (UnicodeDecodeError 0)
  /\ analyze_logs ascii_db utf_8 (single_file undecodable_file) default_log_file
     = ([AnalyzingLogFile default_log_file; ProcessingReport 1 0 1;
         ErrorNoValidEntries],
        Raise (UnicodeDecodeError 0)).
Proof. repeat split; vm_compute; reflexivity. Qed.

(** C9 fails as stated: the bracketed text of [odd_timestamp_line] is not
    in the layout, and the record is returned with it. *)
Lemma odd_timestamp_accepted :
  parse_log_line ascii_db odd_timestamp_line
  = (Some {| ip := lit "203.0.113.7"; timestamp := lit "yesterday";
             request := lit "GET /api/episodes HTTP/1.1"; status := 200;
             user_agent := lit "Mozilla/5.0" |}, [])
  /\ timestamp_layout ascii_db (lit "yesterday") = false
  /\ to_datetime ascii_db (lit "yesterday") = None.
Proof. repeat split; vm_compute; reflexivity. Qed.

(** An instance of the amended C9: [sample_line]. *)
Lemma record_timestamp_not_placeholder_witness :
  parse_log_line ascii_db sample_line = (Some sample_record, [])
  /\ timestamp sample_record <> lit "-"
  /\ forallb (in_class ascii_db Dot) (timestamp sample_record) = true.
Proof.
  assert (H : parse_log_line ascii_db sample_line = (Some sample_record, []))
    by (vm_compute; reflexivity).
  split; [exact H|].
  destruct (record_timestamp_not_placeholder ascii_db sample_line sample_record [] H)
    as (H1 & H2 & _).
  split; [exact H1|exact H2].
Defined.

(** C10 fails as stated: the status group of the match found in
    [overlong_line] holds decimal digits only, 4301 of them, and the
    conversion does not succeed: [int] raises [ValueError]. *)
Lemma overlong_status_conversion_fails :
  re_search ascii_db log_pattern (strip overlong_line) = Some overlong_match
  /\ group 6 overlong_match = overlong_status
  /\ forallb (is_decimal ascii_db) overlong_status = true
  /\ List.length overlong_status = 4301
  /\ py_int ascii_db overlong_status = Raise (ValueError (ExceedsDigitLimit 4300 4301))
  /\ fst (parse_log_line ascii_db overlong_line) = None.
Proof.
  split; [vm_compute; reflexivity|]. split; [reflexivity|].
  split; [vm_compute; reflexivity|]. split; [vm_compute; reflexivity|].
  split; vm_compute; reflexivity.
Qed.

(** An instance of the amended C10: [sample_line]. *)
Lemma record_status_nonnegative_witness :
  parse_log_line ascii_db sample_line = (Some sample_record, [])
  /\ (0 <= status sample_record)%Z.
Proof.
  assert (H : parse_log_line ascii_db sample_line = (Some sample_record, []))
    by (vm_compute; reflexivity).
  split; [exact H|].
  exact (proj2 (record_status_nonnegative ascii_db sample_line) sample_record [] H).
Defined.

(** ** The platform *)

(** A directory under the name of the log file: [os.path.exists] is
    true, [open] raises, and the run ends right after the heading. *)
Lemma directory_run :
  analyze_logs ascii_db utf_8 directory_only default_log_file
  = ([AnalyzingLogFile default_log_file], Raise (OSError EISDIR)).
Proof. reflexivity. Qed.

(** The reading for the echo is lazy: the byte 0xFF of
    [late_undecodable_file] lies in the second chunk, which is not
    fetched, the first one holding four lines; the three lines are
    echoed and the run returns, although the file as a whole does not
    decode. *)
Lemma late_undecodable_file_run :
  read_lines_strict late_undecodable_file = Raise (UnicodeDecodeError chunk_size)
  /\ analyze_logs ascii_db utf_8 (single_file late_undecodable_file) default_log_file
     = ([AnalyzingLogFile default_log_file; ProcessingReport 5 0 5;
         ErrorNoValidEntries;
         EchoLine 1 (lit "skip"); EchoLine 2 (lit "skip"); EchoLine 3 (lit "skip")],
        Ok tt).
Proof. split; vm_compute; reflexivity. Qed.

(** Where the locale is Latin-1 every byte decodes, and
    [undecodable_file] is echoed. *)
Lemma undecodable_file_latin_1 :
  analyze_logs ascii_db latin_1 (single_file undecodable_file) default_log_file
  = ([AnalyzingLogFile default_log_file; ProcessingReport 1 0 1;
      ErrorNoValidEntries; EchoLine 1 [255%N]],
     Ok tt).
Proof. vm_compute. reflexivity. Qed.

(** The run on a file whose only line has a status that is too long:
    the diagnostic comes before the processing report. *)
Lemma overlong_file_run :
  analyze_logs ascii_db utf_8 (single_file overlong_file) default_log_file
  = ([AnalyzingLogFile default_log_file;
      SkippingMalformedLine (firstn 100 (strip overlong_line))
        (ValueError (ExceedsDigitLimit 4300 4301));
      ProcessingReport 1 0 1;
      ErrorNoValidEntries;
      EchoLine 1 (strip overlong_line)],
     Ok tt).
Proof. vm_compute. reflexivity. Qed.

(** ** Instances of the further properties *)

(** An instance of X1: the entry of [sample_line], indented and ended
    by a carriage return and a line feed. *)
Lemma parse_log_line_ignores_outer_space_witness :
  forallb is_space (lit "  ") = true
  /\ forallb is_space [c_return; c_newline] = true
  /\ parse_log_line ascii_db (lit "  " ++ strip sample_line ++ [c_return; c_newline])
     = parse_log_line ascii_db (strip sample_line).
Proof.
  assert (H1 : forallb is_space (lit "  ") = true) by reflexivity.
  assert (H2 : forallb is_space [c_return; c_newline] = true) by reflexivity.
  split; [exact H1|]. split; [exact H2|].
  exact (proj1 (parse_log_line_ignores_outer_space ascii_db (lit "  ")
                  (strip sample_line) [c_return; c_newline] H1 H2)).
Defined.

(** An instance of X3: [embedded_line]. *)
Lemma parse_log_line_takes_leftmost_witness :
  parse_log_line ascii_db embedded_line = (Some sample_record, [])
  /\ exists m t,
       sample_record = record_of_match ascii_db m
       /\ strip embedded_line = m_pre m ++ t ++ m_post m
       /\ matches ascii_db log_pattern t (m_groups m)
       /\ forall pre t' post gs,
            strip embedded_line = pre ++ t' ++ post ->
            matches ascii_db log_pattern t' gs ->
            List.length (m_pre m) <= List.length pre.
Proof.
  assert (H : parse_log_line ascii_db embedded_line = (Some sample_record, []))
    by (vm_compute; reflexivity).
  split; [exact H|].
  exact (parse_log_line_takes_leftmost ascii_db embedded_line sample_record [] H).
Defined.

(** An instance of X4: [sample_line]. *)
Lemma record_fields_shape_witness :
  parse_log_line ascii_db sample_line = (Some sample_record, [])
  /\ ip sample_record <> []
  /\ forallb (fun c => negb (is_space c)) (ip sample_record) = true
  /\ forallb (fun c => negb (c =? c_newline)%N) (request sample_record) = true
  /\ forallb (fun c => negb (c =? c_newline)%N) (user_agent sample_record) = true.
Proof.
  assert (H : parse_log_line ascii_db sample_line = (Some sample_record, []))
    by (vm_compute; reflexivity).
  split; [exact H|].
  exact (record_fields_shape ascii_db sample_line sample_record [] H).
Defined.

(** An instance of X9: three datetimes over four minutes. *)
Lemma requests_per_minute_span_witness :
  [30%Z; 200%Z; 45%Z] <> []
  /\ exists tmin tmax n,
       In tmin [30%Z; 200%Z; 45%Z] /\ In tmax [30%Z; 200%Z; 45%Z]
       /\ (forall t, In t [30%Z; 200%Z; 45%Z] -> (tmin <= t <= tmax)%Z)
       /\ map fst (requests_per_minute [30%Z; 200%Z; 45%Z])
          = map (fun i => (minute_floor tmin + 60 * Z.of_nat i)%Z) (seq 0 (S n))
       /\ (minute_floor tmin + 60 * Z.of_nat n)%Z = minute_floor tmax
       /\ table_total (requests_per_minute [30%Z; 200%Z; 45%Z])
          = List.length [30%Z; 200%Z; 45%Z].
Proof.
  assert (H : [30%Z; 200%Z; 45%Z] <> []) by discriminate.
  split; [exact H|].
  exact (requests_per_minute_span [30%Z; 200%Z; 45%Z] H).
Defined.

(** An instance of X10: [minute_logs] in reverse order. *)
Lemma time_report_order_independent_witness :
  Permutation minute_logs (rev minute_logs)
  /\ time_report ascii_db minute_logs = time_report ascii_db (rev minute_logs).
Proof.
  assert (H : Permutation minute_logs (rev minute_logs)) by apply Permutation_rev.
  split; [exact H|].
  exact (proj2 (time_report_order_independent ascii_db minute_logs (rev minute_logs) H)).
Defined.

(** An instance of X11: [minute_logs]. *)
Lemma peak_is_populated_witness :
  valid_times ascii_db minute_logs <> []
  /\ exists p,
       idxmax (requests_per_minute (valid_times ascii_db minute_logs)) = Ok p
       /\ (exists t, In t (valid_times ascii_db minute_logs) /\ minute_floor t = p)
       /\ series_max (requests_per_minute (valid_times ascii_db minute_logs))
          = count_in_bin p (valid_times ascii_db minute_logs)
       /\ 1 <= series_max (requests_per_minute (valid_times ascii_db minute_logs))
            <= List.length (valid_times ascii_db minute_logs).
Proof.
  assert (H : valid_times ascii_db minute_logs <> []) by (vm_compute; discriminate).
  split; [exact H|].
  exact (peak_is_populated ascii_db minute_logs H).
Defined.




(** What the run on [sample_file] writes. *)
Lemma sample_file_run :
  analyze_logs ascii_db utf_8 (single_file sample_file) default_log_file
  = ([AnalyzingLogFile default_log_file; ProcessingReport 3 2 1;
      TrafficAnalysis 2 1; TopIPsHeading; TopIPLine (lit "203.0.113.7") 2;
      PotentialBotTraffic 0 2;
      HttpMethods [(lit "GET", 2)];
      TopRequestedPaths [(lit "/api/episodes", 2)];
      HttpStatusCodes [(200%Z, 2)];
      DroppedInvalidTimestamps 1;
      SaveFig (lit "requests_per_minute.png") [(epoch_seconds 2025 7 1 6 0 0, 1)];
      SavedTrafficGraph;
      BusiestMinute (epoch_seconds 2025 7 1 6 0 0) 1],
     Ok tt).
Proof. vm_compute. reflexivity. Qed.


(** An instance of X18: [indented_file]. *)
Lemma strict_read_agrees_with_replace_witness :
  read_lines_strict indented_file = Ok indented_lines
  /\ read_lines_replace indented_file = Ok indented_lines.
Proof.
  assert (H : read_lines_strict indented_file = Ok indented_lines)
    by (vm_compute; reflexivity).
  split; [exact H|].
  exact (proj1 (strict_read_agrees_with_replace ascii_db indented_file indented_lines H)).
Defined.

(** An instance of X19: [sample_file]. *)
Lemma ascii_file_never_crashes_witness :
  single_file sample_file default_log_file = File sample_file
  /\ forallb (fun b => (Byte.to_N b <? 128)%N) sample_file = true
  /\ snd (analyze_logs ascii_db utf_8 (single_file sample_file) default_log_file) = Ok tt.
Proof.
  assert (H1 : single_file sample_file default_log_file = File sample_file)
    by reflexivity.
  assert (H2 : forallb (fun b => (Byte.to_N b <? 128)%N) sample_file = true)
    by (vm_compute; reflexivity).
  split; [exact H1|]. split; [exact H2|].
  exact (proj1 (proj2 (proj2 (ascii_file_never_crashes ascii_db (single_file sample_file)
                                default_log_file sample_file H1 H2)))).
Defined.
